(** * HeatNonLinear: a Fisher-KPP reaction-diffusion solver (Prion.hpp, Prion.cpp)

    A shallow embedding of the class [HeatNonLinear]: the diffusivity tensor,
    the coefficient function, the cell-wise assembly of the Newton tangent
    problem, the Newton sweep and the time loop.

    Scalars.  The program computes with [double].  Its code is embedded once,
    over an interface [Scalar] of the operations it uses, and read at two
    instances: [float] (Rocq's primitive binary64 numbers, round to nearest
    even, the arithmetic of a C++ [double]) on which concrete runs are
    evaluated, and [R] on which the algebraic identities of the weak form are
    proved in exact arithmetic.

    Collaborators.  deal.II and Trilinos are not part of the program: finite
    element values, the DoF handler, the distributed containers' collective
    operations and the Krylov solver are records of operations the program
    calls, and every theorem holds for all of them. *)

From Stdlib Require Import String Ascii DecimalString ZArith NArith List Bool Lia.
From Stdlib Require Import Uint63 Floats Reals Lra Psatz.
From Stdlib Require DecimalFacts DecimalPos DecimalN.
Import ListNotations.

Set Implicit Arguments.

(* ================================================================== *)
(** * Scalars *)
(* ================================================================== *)

(** The operations of [double] the program uses.  [s_of_Z] is the conversion
    of an integer constant ([1 - 2 * u], [d_ext = 5]), the three literals are
    [0.5], [1e-10] and [1e-6]; [a > b] is [s_ltb b a].  [s_leb] is [<=], which
    the program never calls and the statements about tolerances need. *)
Class Scalar (F : Type) : Type := {
  s_of_Z : Z -> F;
  s_half : F;
  s_1em10 : F;
  s_1em6 : F;
  s_add : F -> F -> F;
  s_sub : F -> F -> F;
  s_mul : F -> F -> F;
  s_div : F -> F -> F;
  s_ltb : F -> F -> bool;
  s_leb : F -> F -> bool;
  s_leb_not_gt : forall x y, s_leb x y = true -> s_ltb y x = false
}.

Declare Scope scalar_scope.
Delimit Scope scalar_scope with s.
Infix "+" := s_add : scalar_scope.
Infix "-" := s_sub : scalar_scope.
Infix "*" := s_mul : scalar_scope.
Infix "/" := s_div : scalar_scope.
Infix "<?" := s_ltb : scalar_scope.
Infix "<=?" := s_leb : scalar_scope.
Notation "x >? y" := (s_ltb y x) (at level 70, no associativity) : scalar_scope.
Notation "0" := (s_of_Z 0%Z) : scalar_scope.
Notation "1" := (s_of_Z 1%Z) : scalar_scope.
Notation "2" := (s_of_Z 2%Z) : scalar_scope.

(** ** Exact arithmetic: the reals *)

Definition Rltb (x y : R) : bool := if Rlt_dec x y then true else false.
Definition Rleb (x y : R) : bool := if Rle_dec x y then true else false.

Lemma Rltb_true (x y : R) : Rltb x y = true <-> (x < y)%R.
Proof. unfold Rltb. destruct (Rlt_dec x y); split; intros; try discriminate; tauto. Qed.

Lemma Rltb_false (x y : R) : Rltb x y = false <-> (y <= x)%R.
Proof.
  unfold Rltb. destruct (Rlt_dec x y); split; intros; try discriminate; try lra; reflexivity.
Qed.

Lemma Rleb_true (x y : R) : Rleb x y = true <-> (x <= y)%R.
Proof. unfold Rleb. destruct (Rle_dec x y); split; intros; try discriminate; tauto. Qed.

Lemma Rleb_not_gt (x y : R) : Rleb x y = true -> Rltb y x = false.
Proof. intros H. apply Rleb_true in H. apply Rltb_false. exact H. Qed.

#[export] Instance ScalarR : Scalar R := {
  s_of_Z := IZR;
  s_half := (1 / 2)%R;
  s_1em10 := (1 / 10 ^ 10)%R;
  s_1em6 := (1 / 10 ^ 6)%R;
  s_add := Rplus;
  s_sub := Rminus;
  s_mul := Rmult;
  s_div := Rdiv;
  s_ltb := Rltb;
  s_leb := Rleb;
  s_leb_not_gt := Rleb_not_gt
}.

(** ** Binary64 arithmetic: primitive floats *)

(** An integer constant converted to [double]; the constants of the program
    are small, hence exact. *)
Definition float_of_Z (z : Z) : float :=
  match z with
  | Z0 => PrimFloat.of_uint63 0%uint63
  | Zpos _ => PrimFloat.of_uint63 (Uint63.of_Z z)
  | Zneg p => PrimFloat.opp (PrimFloat.of_uint63 (Uint63.of_Z (Zpos p)))
  end.

(** [SFcompare] is antisymmetric, so [<=] excludes [>] on every pair of
    doubles (on a NaN both are false). *)
Lemma SFcompare_antisym (x y : spec_float) :
  SFcompare y x = option_map CompOpp (SFcompare x y).
Proof.
  destruct x as [sx | sx | | sx mx ex], y as [sy | sy | | sy my ey]; simpl;
    try reflexivity;
    try (destruct sx; reflexivity); try (destruct sy; reflexivity);
    try (destruct sx, sy; reflexivity).
  destruct sx, sy; simpl; try reflexivity;
    rewrite (Z.compare_antisym ex ey); destruct (ex ?= ey)%Z; simpl; try reflexivity;
    rewrite (ZC4 my mx); destruct (Pos.compare_cont Eq mx my); reflexivity.
Qed.

Lemma float_leb_not_gt (x y : float) :
  PrimFloat.leb x y = true -> PrimFloat.ltb y x = false.
Proof.
  rewrite leb_spec, ltb_spec. unfold SFleb, SFltb.
  rewrite (SFcompare_antisym (Prim2SF x) (Prim2SF y)).
  destruct (SFcompare (Prim2SF x) (Prim2SF y)) as [[ | | ] | ]; simpl;
    intros H; try reflexivity; discriminate H.
Qed.

#[local] Set Warnings "-inexact-float".

#[export] Instance ScalarFloat : Scalar float := {
  s_of_Z := float_of_Z;
  s_half := 0.5%float;
  s_1em10 := 1e-10%float;
  s_1em6 := 1e-6%float;
  s_add := PrimFloat.add;
  s_sub := PrimFloat.sub;
  s_mul := PrimFloat.mul;
  s_div := PrimFloat.div;
  s_ltb := PrimFloat.ltb;
  s_leb := PrimFloat.leb;
  s_leb_not_gt := float_leb_not_gt
}.

(* ================================================================== *)
(** * Loops, tensors and the coefficients of the problem *)
(* ================================================================== *)

(** [for (unsigned int i = 0; i < n; ++i) body]. *)
Definition for_loop {A : Type} (n : nat) (body : nat -> A -> A) (a : A) : A :=
  fold_left (fun acc i => body i acc) (seq 0 n) a.

(** [std::string(count, ch)] for a [count] that fits. *)
Fixpoint string_of_char (count : nat) (ch : ascii) : string :=
  match count with
  | O => EmptyString
  | S count' => String ch (string_of_char count' ch)
  end.

(** [std::to_string] of an [unsigned int]. *)
Definition to_string (n : Z) : string :=
  NilZero.string_of_uint (N.to_uint (Z.to_N n)).

(** The name [output] gives its files:
    ["output-" + std::string(4 - size, '0') + std::to_string(time_step)].
    [4 - size] is a [size_t]: past four digits it wraps to a count no string
    can hold, and the constructor throws [std::length_error]. *)
Definition output_file_name (time_step : Z) : option string :=
  let output_file_name := to_string time_step in
  if (String.length output_file_name <=? 4)%nat
  then Some ("output-"
             ++ string_of_char (4 - String.length output_file_name) "0"%char
             ++ output_file_name)%string
  else None.

Section Problem.

Context {F : Type} {SF : Scalar F}.

Local Open Scope scalar_scope.

(** Physical dimension. *)
Definition dim : nat := 3.

(** [Tensor<1, dim>], [Point<dim>] and [Tensor<2, dim>], by component. *)
Definition Tensor1 : Type := nat -> F.
Definition Point : Type := nat -> F.
Definition Tensor2 : Type := nat -> nat -> F.

(** A tensor as its default constructor leaves it. *)
Definition Tensor2_zero : Tensor2 := fun _ _ => 0.

(** [result[i][j] = v]. *)
Definition Tensor2_set (t : Tensor2) (i j : nat) (v : F) : Tensor2 :=
  fun a b => if (a =? i) && (b =? j) then v else t a b.

(** [t * D] for a rank-1 [t]: the last index of [t] contracted with the first
    of [D]. *)
Definition contract_1_2 (t : Tensor1) (D : Tensor2) : Tensor1 :=
  fun j => for_loop dim (fun k acc => acc + t k * D k j) 0.

(** [a * b] for two rank-1 tensors: the scalar product. *)
Definition scalar_product (a b : Tensor1) : F :=
  for_loop dim (fun k acc => acc + a k * b k) 0.

(** [FunctionAlpha::value]: the point and the component are unnamed and
    unused. *)
Definition FunctionAlpha_value (p : Point) (component : nat) : F := s_of_Z 2.

(** [set_up_diffusivity], on the members [d_ext], [d_axn] and
    [axon_direction] it reads. *)
Definition set_up_diffusivity (d_ext d_axn : F) (axon_direction : nat -> F) : Tensor2 :=
  for_loop dim (fun i result =>
    for_loop dim (fun j result =>
      if negb (i =? j)
      then Tensor2_set result i j (d_axn * axon_direction i * axon_direction j)
      else Tensor2_set result i j (d_ext + d_axn * axon_direction i * axon_direction j))
      result)
    Tensor2_zero.

(** The in-class initialisers: [axon_direction = {1, 1, 1}], [d_ext = 5],
    [d_axn = 0]. *)
Definition axon_direction : nat -> F := fun i => nth i [1; 1; 1] 0.
Definition d_ext : F := s_of_Z 5.
Definition d_axn : F := 0.

(* ================================================================== *)
(** * Containers *)
(* ================================================================== *)

(** [FullMatrix<double>] and [Vector<double>] of one cell, by index. *)
Definition FullMatrix : Type := nat -> nat -> F.
Definition CellVector : Type := nat -> F.

(** [cell_matrix = 0.0], [cell_residual = 0.0]. *)
Definition FullMatrix_zero : FullMatrix := fun _ _ => 0.
Definition CellVector_zero : CellVector := fun _ => 0.

(** [cell_matrix(i, j) += v], [cell_matrix(i, j) -= v]. *)
Definition FullMatrix_add (m : FullMatrix) (i j : nat) (v : F) : FullMatrix :=
  fun a b => if (a =? i) && (b =? j) then m a b + v else m a b.
Definition FullMatrix_sub (m : FullMatrix) (i j : nat) (v : F) : FullMatrix :=
  fun a b => if (a =? i) && (b =? j) then m a b - v else m a b.

(** [cell_residual(i) += v], [cell_residual(i) -= v]. *)
Definition CellVector_add (r : CellVector) (i : nat) (v : F) : CellVector :=
  fun a => if a =? i then r a + v else r a.
Definition CellVector_sub (r : CellVector) (i : nat) (v : F) : CellVector :=
  fun a => if a =? i then r a - v else r a.

(** The distributed containers ([TrilinosWrappers::MPI::Vector],
    [TrilinosWrappers::SparseMatrix]) as this process stores them: one entry
    per DoF, one row per DoF. *)
Definition Vector : Type := list F.
Definition Matrix : Type := list (list F).

(** [v = 0.0] and [m = 0.0] on containers sized by [setup] for [n] DoFs. *)
Definition Vector_zero (n : nat) : Vector := repeat 0 n.
Definition Matrix_zero (n : nat) : Matrix := repeat (repeat 0 n) n.

(** [v(k)], and [v(k) += x]; an index [setup] did not allot changes nothing. *)
Definition Vector_get (v : Vector) (k : nat) : F := nth k v 0.

Fixpoint Vector_add_at (v : Vector) (k : nat) (x : F) : Vector :=
  match v, k with
  | [], _ => []
  | a :: v', O => (a + x) :: v'
  | a :: v', S k' => a :: Vector_add_at v' k' x
  end.

Definition Matrix_get (m : Matrix) (r c : nat) : F := nth c (nth r m []) 0.

Fixpoint Matrix_add_at (m : Matrix) (r c : nat) (x : F) : Matrix :=
  match m, r with
  | [], _ => []
  | row :: m', O => Vector_add_at row c x :: m'
  | row :: m', S r' => row :: Matrix_add_at m' r' c x
  end.

(** [residual_vector.add(dof_indices, cell_residual)]. *)
Definition Vector_add (dof_indices : list nat) (cell_residual : CellVector)
    (v : Vector) : Vector :=
  for_loop (length dof_indices)
    (fun i v => Vector_add_at v (nth i dof_indices O) (cell_residual i)) v.

(** [jacobian_matrix.add(dof_indices, cell_matrix)]. *)
Definition Matrix_add (dof_indices : list nat) (cell_matrix : FullMatrix)
    (m : Matrix) : Matrix :=
  for_loop (length dof_indices) (fun i m =>
    for_loop (length dof_indices) (fun j m =>
      Matrix_add_at m (nth i dof_indices O) (nth j dof_indices O) (cell_matrix i j)) m) m.

(** [a += b], entry by entry. *)
Fixpoint Vector_pluseq (a b : Vector) : Vector :=
  match a, b with
  | x :: a', y :: b' => (x + y) :: Vector_pluseq a' b'
  | _, _ => a
  end.

(* ================================================================== *)
(** * Collaborators *)
(* ================================================================== *)

(** [FEValues<dim>] built on [*fe] and [*quadrature], after [reinit(cell)]:
    every accessor takes the cell first.  [get_function_values] and
    [get_function_gradients] give the finite element function of a vector at
    the quadrature points of the cell. *)
Record FEValues : Type := {
  dofs_per_cell : nat;
  n_q_points : nat;
  shape_value : nat -> nat -> nat -> F;
  shape_grad : nat -> nat -> nat -> Tensor1;
  JxW : nat -> nat -> F;
  quadrature_point : nat -> nat -> Point;
  get_function_values : nat -> Vector -> nat -> F;
  get_function_gradients : nat -> Vector -> nat -> Tensor1
}.

(** [DoFHandler<dim>]: the active cells in iteration order, which of them
    this process owns, the DoF indices of a cell, and the nodal values
    [VectorTools::interpolate] gives for the initial condition [u_0]. *)
Record DoFHandler : Type := {
  n_dofs : nat;
  active_cell_iterators : list nat;
  is_locally_owned : nat -> bool;
  get_dof_indices : nat -> list nat;
  interpolate_u_0 : Vector
}.

(** What [SolverCG::solve] does with its [SolverControl]: it returns with the
    increment and [last_step], or raises [SolverControl::NoConvergence] when
    the iteration cap is reached (or the residual stops being a number)
    before the tolerance is met. *)
Inductive SolverResult : Type :=
| SolverSuccess (delta : Vector) (last_step : nat)
| SolverNoConvergence (last_step : nat) (last_residual : F).

(** The collective operations of the distributed containers and the
    preconditioned solver.  [compress_*] is [compress(VectorOperation::add)],
    [ghost_assign] the assignment of an owned vector to a ghosted one,
    [solver_cg max_steps tolerance A x b] is
    [SolverCG(SolverControl(max_steps, tolerance)).solve(A, x, b, SSOR(A, 1.0))]
    started from the content of [x]. *)
Record LinearAlgebra : Type := {
  compress_matrix : Matrix -> Matrix;
  compress_vector : Vector -> Vector;
  l2_norm : Vector -> F;
  ghost_assign : Vector -> Vector;
  solver_cg : nat -> F -> Matrix -> Vector -> Vector -> SolverResult
}.

(* ================================================================== *)
(** * The object *)
(* ================================================================== *)

(** The data members of [HeatNonLinear] the solver reads or writes. *)
Record HeatNonLinear : Type := {
  time : F;
  T : F;
  D : Tensor2;
  N : Z;
  r : Z;
  deltat : F;
  jacobian_matrix : Matrix;
  residual_vector : Vector;
  delta_owned : Vector;
  solution_owned : Vector;
  solution : Vector;
  solution_old : Vector
}.

Definition set_time (s : HeatNonLinear) (t : F) : HeatNonLinear :=
  {| time := t; T := T s; D := D s; N := N s; r := r s; deltat := deltat s;
     jacobian_matrix := jacobian_matrix s; residual_vector := residual_vector s;
     delta_owned := delta_owned s; solution_owned := solution_owned s;
     solution := solution s; solution_old := solution_old s |}.

Definition set_system (s : HeatNonLinear) (J : Matrix) (R : Vector) : HeatNonLinear :=
  {| time := time s; T := T s; D := D s; N := N s; r := r s; deltat := deltat s;
     jacobian_matrix := J; residual_vector := R;
     delta_owned := delta_owned s; solution_owned := solution_owned s;
     solution := solution s; solution_old := solution_old s |}.

Definition set_delta_owned (s : HeatNonLinear) (d : Vector) : HeatNonLinear :=
  {| time := time s; T := T s; D := D s; N := N s; r := r s; deltat := deltat s;
     jacobian_matrix := jacobian_matrix s; residual_vector := residual_vector s;
     delta_owned := d; solution_owned := solution_owned s;
     solution := solution s; solution_old := solution_old s |}.

Definition set_solution_owned (s : HeatNonLinear) (u : Vector) : HeatNonLinear :=
  {| time := time s; T := T s; D := D s; N := N s; r := r s; deltat := deltat s;
     jacobian_matrix := jacobian_matrix s; residual_vector := residual_vector s;
     delta_owned := delta_owned s; solution_owned := u;
     solution := solution s; solution_old := solution_old s |}.

Definition set_solution (s : HeatNonLinear) (u : Vector) : HeatNonLinear :=
  {| time := time s; T := T s; D := D s; N := N s; r := r s; deltat := deltat s;
     jacobian_matrix := jacobian_matrix s; residual_vector := residual_vector s;
     delta_owned := delta_owned s; solution_owned := solution_owned s;
     solution := u; solution_old := solution_old s |}.

Definition set_solution_old (s : HeatNonLinear) (u : Vector) : HeatNonLinear :=
  {| time := time s; T := T s; D := D s; N := N s; r := r s; deltat := deltat s;
     jacobian_matrix := jacobian_matrix s; residual_vector := residual_vector s;
     delta_owned := delta_owned s; solution_owned := solution_owned s;
     solution := solution s; solution_old := u |}.

(** The constructor: the arguments are stored as they come, [D] is set up
    from the in-class initialisers.  The containers are empty until [setup];
    [time] is not initialised before [solve] assigns it, [0] stands for it. *)
Definition HeatNonLinear_new (N_ r_ : Z) (T_ deltat_ : F) : HeatNonLinear :=
  {| time := 0; T := T_; D := set_up_diffusivity d_ext d_axn axon_direction;
     N := N_; r := r_; deltat := deltat_;
     jacobian_matrix := []; residual_vector := [];
     delta_owned := []; solution_owned := [];
     solution := []; solution_old := [] |}.

(* ================================================================== *)
(** * What a run shows and how it ends *)
(* ================================================================== *)

(** What the program writes to [pcout], the subsections it opens on
    [timer], and what [output] writes: the frame index, the name of the
    files, the time and the field it hands to [DataOut]. *)
Inductive Event : Type :=
| Pcout (line : string)
| PcoutNewton (n_iter n_max_iters : nat) (residual_norm : F)
| PcoutCG (last_step : nat)
| PcoutStep (time_step : Z) (time : F)
| TimerEnter (name : string)
| TimerLeave
| Output (time_step : Z) (output_file_name : string) (time : F) (u : Vector).

(** The exceptions that can cross the program, which has no [try]:
    [SolverControl::NoConvergence] from the solver and [std::length_error]
    from the constructor of [std::string]. *)
Inductive Exception : Type :=
| NoConvergence (last_step : nat) (last_residual : F)
| LengthError.

(** A call returns, or is left by an exception, or is still in its loop when
    the steps granted to the time loop are used up. *)
Inductive Outcome (A : Type) : Type :=
| Returned (a : A)
| Raised (e : Exception)
| Unfinished.

Arguments Raised {A} e.
Arguments Unfinished {A}.

(** A computation: the events in the order they happen, and the outcome. *)
Definition M (A : Type) : Type := (list Event * Outcome A)%type.

Definition ret {A : Type} (a : A) : M A := ([], Returned a).

Definition bind {A B : Type} (m : M A) (k : A -> M B) : M B :=
  match m with
  | (events, Returned a) => let (events', outcome) := k a in (events ++ events', outcome)
  | (events, Raised e) => (events, Raised e)
  | (events, Unfinished) => (events, Unfinished)
  end.

Definition tell (e : Event) : M unit := ([e], Returned tt).
Definition raise {A : Type} (e : Exception) : M A := ([], Raised e).
Definition unfinished {A : Type} : M A := ([], Unfinished).

(* ================================================================== *)
(** * Assembly of the tangent problem *)
(* ================================================================== *)

Section Program.

Variable fe_values : FEValues.
Variable dof_handler : DoFHandler.
Variable la : LinearAlgebra.

(** [setup], after the mesh and the finite element space: the containers are
    allotted for the DoFs of the handler, zero everywhere. *)
Definition setup (s : HeatNonLinear) : HeatNonLinear :=
  let n := n_dofs dof_handler in
  let s := set_system s (Matrix_zero n) (Vector_zero n) in
  let s := set_solution_owned s (Vector_zero n) in
  let s := set_delta_owned s (Vector_zero n) in
  let s := set_solution s (Vector_zero n) in
  set_solution_old s (solution s).

(** The three updates of [cell_matrix(i, j)] at quadrature node [q]:
    (A.1) mass, (A.2) diffusion, (A.3) linearised reaction. *)
Definition jacobian_terms (s : HeatNonLinear) (cell q i j : nat)
    (alpha_loc : F) (solution_loc : nat -> F) (cell_matrix : FullMatrix) : FullMatrix :=
  let cell_matrix :=
    FullMatrix_add cell_matrix i j
      (shape_value fe_values cell i q * shape_value fe_values cell j q / deltat s
       * JxW fe_values cell q) in
  let cell_matrix :=
    FullMatrix_add cell_matrix i j
      (scalar_product (contract_1_2 (shape_grad fe_values cell i q) (D s))
                      (shape_grad fe_values cell j q)
       * JxW fe_values cell q) in
  FullMatrix_sub cell_matrix i j
    (shape_value fe_values cell i q * alpha_loc * (1 - 2 * solution_loc q)
     * shape_value fe_values cell j q * JxW fe_values cell q).

(** The three updates of [cell_residual(i)] at quadrature node [q]:
    (R.1) time derivative, (R.2) diffusion, (R.3) reaction. *)
Definition residual_terms (s : HeatNonLinear) (cell q i : nat)
    (alpha_loc : F) (solution_loc : nat -> F) (solution_gradient_loc : nat -> Tensor1)
    (solution_old_loc : nat -> F) (cell_residual : CellVector) : CellVector :=
  let cell_residual :=
    CellVector_sub cell_residual i
      (shape_value fe_values cell i q * (solution_loc q - solution_old_loc q) / deltat s
       * JxW fe_values cell q) in
  let cell_residual :=
    CellVector_sub cell_residual i
      (scalar_product (contract_1_2 (shape_grad fe_values cell i q) (D s))
                      (solution_gradient_loc q)
       * JxW fe_values cell q) in
  CellVector_add cell_residual i
    (shape_value fe_values cell i q * (alpha_loc * solution_loc q * (1 - solution_loc q))
     * JxW fe_values cell q).

(** The body of the cell loop up to the scatter: the local matrix and
    residual of one cell, from zero, over the quadrature nodes. *)
Definition assemble_cell (s : HeatNonLinear) (cell : nat) : FullMatrix * CellVector :=
  let solution_loc := get_function_values fe_values cell (solution s) in
  let solution_gradient_loc := get_function_gradients fe_values cell (solution s) in
  let solution_old_loc := get_function_values fe_values cell (solution_old s) in
  for_loop (n_q_points fe_values) (fun q acc =>
    let alpha_loc := FunctionAlpha_value (quadrature_point fe_values cell q) 0 in
    for_loop (dofs_per_cell fe_values) (fun i acc =>
      let cell_matrix :=
        for_loop (dofs_per_cell fe_values) (fun j cell_matrix =>
          jacobian_terms s cell q i j alpha_loc solution_loc cell_matrix) (fst acc) in
      let cell_residual :=
        residual_terms s cell q i alpha_loc solution_loc solution_gradient_loc
          solution_old_loc (snd acc) in
      (cell_matrix, cell_residual)) acc)
    (FullMatrix_zero, CellVector_zero).

(** [assemble_system]: both containers are set to zero, every locally owned
    cell adds its local matrix and residual at its DoF indices, and the
    containers are compressed.  No boundary values are applied (that block is
    commented out in the source). *)
Definition assemble_system (s : HeatNonLinear) : HeatNonLinear :=
  let zero := (Matrix_zero (n_dofs dof_handler), Vector_zero (n_dofs dof_handler)) in
  let system :=
    fold_left (fun acc cell =>
      if negb (is_locally_owned dof_handler cell) then acc
      else
        let local := assemble_cell s cell in
        let dof_indices := get_dof_indices dof_handler cell in
        (Matrix_add dof_indices (fst local) (fst acc),
         Vector_add dof_indices (snd local) (snd acc)))
      (active_cell_iterators dof_handler) zero in
  set_system s (compress_matrix la (fst system)) (compress_vector la (snd system)).

(* ================================================================== *)
(** * The linear solve, the Newton sweep and the time loop *)
(* ================================================================== *)

Local Notation "x <- m ;; k" := (bind m (fun x => k))
  (at level 61, m at next level, right associativity).
Local Notation "m ;; k" := (bind m (fun _ => k))
  (at level 61, right associativity).

(** [solve_linear_system]: conjugate gradient, at most 1000 steps, down to
    [1e-6] times the norm of the residual vector, started from the content of
    [delta_owned].  The exception of the solver is not caught. *)
Definition solve_linear_system (s : HeatNonLinear) : M HeatNonLinear :=
  match solver_cg la 1000 (s_1em6 * l2_norm la (residual_vector s))
          (jacobian_matrix s) (delta_owned s) (residual_vector s) with
  | SolverSuccess delta last_step =>
      tell (PcoutCG last_step) ;;
      ret (set_delta_owned s delta)
  | SolverNoConvergence last_step last_residual =>
      raise (NoConvergence last_step last_residual)
  end.

Definition n_max_iters : nat := 1000.
Definition residual_tolerance : F := s_1em10.

(** The body of the [while] of [solve_newton], up to [++n_iter]: the state
    and the residual norm it leaves. *)
Definition newton_iteration (s : HeatNonLinear) (n_iter : nat) : M (HeatNonLinear * F) :=
  tell (TimerEnter "Assemble system"%string) ;;
  let s := assemble_system s in
  tell TimerLeave ;;
  let residual_norm := l2_norm la (residual_vector s) in
  tell (PcoutNewton n_iter n_max_iters residual_norm) ;;
  s <- (if residual_norm >? residual_tolerance
        then
          tell (TimerEnter "Solve system"%string) ;;
          s <- solve_linear_system s ;;
          tell TimerLeave ;;
          let s := set_solution_owned s (Vector_pluseq (solution_owned s) (delta_owned s)) in
          ret (set_solution s (ghost_assign la (solution_owned s)))
        else
          tell (Pcout " < tolerance"%string) ;;
          ret s) ;;
  ret (s, residual_norm).

(** [while (n_iter < n_max_iters && residual_norm > residual_tolerance)]:
    the state, [n_iter] and [residual_norm] at the exit.  [k] bounds the
    passes; [n_max_iters] of them are always enough. *)
Fixpoint newton_loop (k : nat) (n_iter : nat) (residual_norm : F) (s : HeatNonLinear)
    : M (HeatNonLinear * nat * F) :=
  if (n_iter <? n_max_iters)%nat && (residual_norm >? residual_tolerance) then
    match k with
    | O => unfinished
    | S k' =>
        it <- newton_iteration s n_iter ;;
        newton_loop k' (S n_iter) (snd it) (fst it)
    end
  else ret (s, n_iter, residual_norm).

(** [solve_newton]. *)
Definition solve_newton (s : HeatNonLinear) : M HeatNonLinear :=
  x <- newton_loop n_max_iters 0 (residual_tolerance + 1) s ;;
  ret (fst (fst x)).

(** [output]: the field is handed to [DataOut] and written under the name
    the frame index gives; a name that cannot be built raises before
    anything is written. *)
Definition output (s : HeatNonLinear) (time_step : Z) (time : F) : M unit :=
  match output_file_name time_step with
  | Some name => tell (Output time_step name time (solution s))
  | None => raise LengthError
  end.

(** [++n] on an [unsigned int]. *)
Definition uint_succ (n : Z) : Z := ((n + 1) mod 2 ^ 32)%Z.

(** [while (time < T - 0.5 * deltat)] of [solve], with the locals
    [time_step] and [tt]; [fuel] bounds the passes. *)
Fixpoint time_loop (fuel : nat) (time_step tt : Z) (s : HeatNonLinear) : M HeatNonLinear :=
  if time s <? T s - s_half * deltat s then
    match fuel with
    | O => unfinished
    | S fuel' =>
        let s := set_time s (time s + deltat s) in
        let time_step := uint_succ time_step in
        let s := set_solution_old s (solution s) in
        tell (PcoutStep time_step (time s)) ;;
        s <- solve_newton s ;;
        tt <- (if (time_step mod 30 =? 0)%Z
               then
                 tell (TimerEnter "Writing"%string) ;;
                 output s tt (time s) ;;
                 tell TimerLeave ;;
                 ret (uint_succ tt)
               else ret tt) ;;
        tell (Pcout EmptyString) ;;
        time_loop fuel' time_step tt s
    end
  else ret s.

(** [solve]. *)
Definition solve (fuel : nat) (s : HeatNonLinear) : M HeatNonLinear :=
  tell (Pcout "==============================================="%string) ;;
  let s := set_time s 0 in
  tell (Pcout "Applying the initial condition"%string) ;;
  let s := set_solution_owned s (interpolate_u_0 dof_handler) in
  let s := set_solution s (ghost_assign la (solution_owned s)) in
  tell (TimerEnter "Writing"%string) ;;
  output s 0 0 ;;
  tell TimerLeave ;;
  tell (Pcout "-----------------------------------------------"%string) ;;
  time_loop fuel 0 1 s.

End Program.

End Problem.

Arguments Tensor1 F : clear implicits.
Arguments Point F : clear implicits.
Arguments Tensor2 F : clear implicits.
Arguments FullMatrix F : clear implicits.
Arguments CellVector F : clear implicits.
Arguments Vector F : clear implicits.
Arguments Matrix F : clear implicits.
Arguments FEValues F : clear implicits.
Arguments DoFHandler F : clear implicits.
Arguments SolverResult F : clear implicits.
Arguments LinearAlgebra F : clear implicits.
Arguments HeatNonLinear F : clear implicits.
Arguments Event F : clear implicits.
Arguments Exception F : clear implicits.
Arguments Outcome F A : clear implicits.
Arguments M F A : clear implicits.
Arguments Returned {F A} a.
Arguments Raised {F A} e.
Arguments Unfinished {F A}.

(* ================================================================== *)
(** * The vocabulary of the specification *)
(* ================================================================== *)

Section Vocabulary.

Context {F : Type} {SF : Scalar F}.

Local Open Scope scalar_scope.

(** The states of the Newton driver, read off the guard of its [while]: the
    sweep goes on while [n_iter < n_max_iters] and the norm is above the
    tolerance; it has converged when the norm is not above the tolerance, and
    diverged when the norm is above it and the passes are used up. *)
Inductive NewtonState : Type := ITERATING | CONVERGED | DIVERGED.

Definition newton_state (n_iter : nat) (residual_norm : F) : NewtonState :=
  if residual_norm >? residual_tolerance then
    if (n_iter <? n_max_iters)%nat then ITERATING else DIVERGED
  else CONVERGED.

(** The time steps a run has entered: index and time of each line
    ["n = ..., t = ..."]. *)
Fixpoint steps_of (events : list (Event F)) : list (Z * F) :=
  match events with
  | [] => []
  | PcoutStep time_step time :: rest => (time_step, time) :: steps_of rest
  | _ :: rest => steps_of rest
  end.

(** The snapshots a run has emitted: frame index and time of each call of
    [output]. *)
Fixpoint snapshots_of (events : list (Event F)) : list (Z * F) :=
  match events with
  | [] => []
  | Output frame _ time _ :: rest => (frame, time) :: snapshots_of rest
  | _ :: rest => snapshots_of rest
  end.

(** The snapshots the cadence asks for: one at every step whose index is a
    multiple of 30, numbered from [frame] on. *)
Fixpoint snapshots_due (steps : list (Z * F)) (frame : Z) : list (Z * F) :=
  match steps with
  | [] => []
  | (time_step, time) :: rest =>
      if (time_step mod 30 =? 0)%Z
      then (frame, time) :: snapshots_due rest (uint_succ frame)
      else snapshots_due rest frame
  end.

(** The steps of the time loop as its guard and its two increments alone
    decide them, and whether the guard fails within [fuel] passes. *)
Fixpoint time_grid (fuel : nat) (time T deltat : F) (time_step : Z)
    : list (Z * F) * bool :=
  if time <? T - s_half * deltat then
    match fuel with
    | O => ([], false)
    | S fuel' =>
        let rest := time_grid fuel' (time + deltat) T deltat (uint_succ time_step) in
        ((uint_succ time_step, time + deltat) :: fst rest, snd rest)
    end
  else ([], true).

(** What a sweep may show: the subsections of the timer and the lines of the
    Newton iteration and of the linear solve. *)
Definition newton_event (e : Event F) : Prop :=
  match e with
  | TimerEnter _ | TimerLeave | PcoutNewton _ _ _ | PcoutCG _ => True
  | Pcout line => line = " < tolerance"%string
  | PcoutStep _ _ | Output _ _ _ _ => False
  end.

(** What a sweep that meets no tolerance shows: no line of text at all. *)
Definition iteration_event (e : Event F) : Prop :=
  match e with
  | TimerEnter _ | TimerLeave | PcoutNewton _ _ _ | PcoutCG _ => True
  | Pcout _ | PcoutStep _ _ | Output _ _ _ _ => False
  end.

(** The state [solve] enters its loop with: time zero, the interpolant of
    [u_0] in the owned solution and, through the ghost assignment, in the
    solution. *)
Definition initial_condition (dof_handler : DoFHandler F) (la : LinearAlgebra F)
    (s : HeatNonLinear F) : HeatNonLinear F :=
  let s := set_time s 0 in
  let s := set_solution_owned s (interpolate_u_0 dof_handler) in
  set_solution s (ghost_assign la (solution_owned s)).

(** What [solve] shows before its loop. *)
Definition header_events (u : Vector F) : list (Event F) :=
  [Pcout "==============================================="%string;
   Pcout "Applying the initial condition"%string;
   TimerEnter "Writing"%string;
   Output 0 "output-0000"%string 0 u;
   TimerLeave;
   Pcout "-----------------------------------------------"%string].

(** The same finite element values with other quadrature points. *)
Definition move_quadrature_points (fe : FEValues F) (points : nat -> nat -> Point F)
    : FEValues F :=
  {| dofs_per_cell := dofs_per_cell fe;
     n_q_points := n_q_points fe;
     shape_value := shape_value fe;
     shape_grad := shape_grad fe;
     JxW := JxW fe;
     quadrature_point := points;
     get_function_values := get_function_values fe;
     get_function_gradients := get_function_gradients fe |}.

(** The state a pass of the time loop hands to the Newton sweep: the time
    advanced by one step, the solution saved as the previous one. *)
Definition begin_step (s : HeatNonLinear F) : HeatNonLinear F :=
  set_solution_old (set_time s (time s + deltat s)) (solution s).

(** The state a pass of the sweep leaves when the solver has returned
    [delta]: the increment stored, added to the owned solution, and the owned
    solution assigned to the ghosted one. *)
Definition apply_increment (la : LinearAlgebra F) (s : HeatNonLinear F)
    (delta : Vector F) : HeatNonLinear F :=
  let s := set_delta_owned s delta in
  let s := set_solution_owned s (Vector_pluseq (solution_owned s) (delta_owned s)) in
  set_solution s (ghost_assign la (solution_owned s)).

(** What a pass of the time loop shows after the sweep, and the frame index it
    leaves in [tt]. *)
Definition writing_events (time_step tt : Z) (s : HeatNonLinear F) : list (Event F) :=
  if (time_step mod 30 =? 0)%Z
  then
    match output_file_name tt with
    | Some name =>
        [TimerEnter "Writing"%string; Output tt name (time s) (solution s); TimerLeave]
    | None => [TimerEnter "Writing"%string]
    end
  else [].

(** Whether the snapshot of a step is due and cannot be named. *)
Definition snapshot_fails (time_step tt : Z) : bool :=
  (time_step mod 30 =? 0)%Z
  && match output_file_name tt with
     | Some _ => false
     | None => true
     end.

Definition next_frame (time_step tt : Z) : Z :=
  if (time_step mod 30 =? 0)%Z then uint_succ tt else tt.

(** The time after [k] steps from [t]: [t + dt + ... + dt], added one by one
    as the loop does. *)
Fixpoint time_after (k : nat) (t dt : F) : F :=
  match k with
  | O => t
  | S k' => time_after k' t dt + dt
  end.

(** What a Newton sweep never writes: the time, the parameters of the run,
    the tensor and the solution of the previous time step. *)
Definition untouched (s s' : HeatNonLinear F) : Prop :=
  time s' = time s /\ T s' = T s /\ deltat s' = deltat s /\ D s' = D s
  /\ solution_old s' = solution_old s.

(** What one pass of the sweep shows when it solves: the assembly, the line
    of the iteration, the solve and its line. *)
Definition solved_pass_events (n_iter : nat) (residual_norm : F) (last_step : nat)
    : list (Event F) :=
  [TimerEnter "Assemble system"%string; TimerLeave;
   PcoutNewton n_iter n_max_iters residual_norm;
   TimerEnter "Solve system"%string; PcoutCG last_step; TimerLeave].

(** What the last pass of a sweep shows when the tolerance is met. *)
Definition converged_pass_events (n_iter : nat) (residual_norm : F) : list (Event F) :=
  [TimerEnter "Assemble system"%string; TimerLeave;
   PcoutNewton n_iter n_max_iters residual_norm;
   Pcout " < tolerance"%string].

(** What a pass shows when the solver raises: the subsection of the solve is
    entered and never left. *)
Definition raised_pass_events (n_iter : nat) (residual_norm : F) : list (Event F) :=
  [TimerEnter "Assemble system"%string; TimerLeave;
   PcoutNewton n_iter n_max_iters residual_norm;
   TimerEnter "Solve system"%string].

(** [n_iter] and [residual_norm] at the exit of a sweep that returned. *)
Definition sweep_exit (m : M F (HeatNonLinear F * nat * F)) : option (nat * F) :=
  match snd m with
  | Returned x => Some (snd (fst x), snd x)
  | _ => None
  end.

(** The lines of text a run has written to [pcout]. *)
Fixpoint lines_of (events : list (Event F)) : list string :=
  match events with
  | [] => []
  | Pcout line :: rest => line :: lines_of rest
  | _ :: rest => lines_of rest
  end.

(** Whether a call has returned. *)
Definition has_returned {A : Type} (m : M F A) : bool :=
  match snd m with
  | Returned _ => true
  | _ => false
  end.

(** A property of what a call returns, when it returns. *)
Definition returns {A : Type} (m : M F A) (P : A -> Prop) : Prop :=
  match snd m with
  | Returned a => P a
  | _ => True
  end.

End Vocabulary.

(** ** The terms of the local matrix and residual *)

Section CellTerms.

Context {F : Type} {SF : Scalar F}.
Variable fe : FEValues F.
Variable s : HeatNonLinear F.
Variable cell : nat.

Local Open Scope scalar_scope.

(** The three terms added to entry [(i, j)] at node [q], as the code
    associates them. *)
Definition mass_term (q i j : nat) : F :=
  shape_value fe cell i q * shape_value fe cell j q / deltat s * JxW fe cell q.

Definition diffusion_term (q i j : nat) : F :=
  scalar_product (contract_1_2 (shape_grad fe cell i q) (D s)) (shape_grad fe cell j q)
  * JxW fe cell q.

Definition reaction_term (q i j : nat) (alpha_loc : F) (solution_loc : nat -> F) : F :=
  shape_value fe cell i q * alpha_loc * (1 - 2 * solution_loc q)
  * shape_value fe cell j q * JxW fe cell q.

(** The three terms of entry [i] of the local residual at node [q], as the
    code associates them. *)
Definition time_derivative_term (q i : nat) (solution_loc solution_old_loc : nat -> F) : F :=
  shape_value fe cell i q * (solution_loc q - solution_old_loc q) / deltat s
  * JxW fe cell q.

Definition residual_diffusion_term (q i : nat) (solution_gradient_loc : nat -> Tensor1 F) : F :=
  scalar_product (contract_1_2 (shape_grad fe cell i q) (D s)) (solution_gradient_loc q)
  * JxW fe cell q.

Definition residual_reaction_term (q i : nat) (alpha_loc : F) (solution_loc : nat -> F) : F :=
  shape_value fe cell i q * (alpha_loc * solution_loc q * (1 - solution_loc q))
  * JxW fe cell q.

(** The body of the loop over the quadrature nodes, as [assemble_cell] has
    it. *)
Definition node_pass (q : nat) (acc : FullMatrix F * CellVector F)
    : FullMatrix F * CellVector F :=
  let solution_loc := get_function_values fe cell (solution s) in
  let solution_gradient_loc := get_function_gradients fe cell (solution s) in
  let solution_old_loc := get_function_values fe cell (solution_old s) in
  let alpha_loc := FunctionAlpha_value (quadrature_point fe cell q) 0 in
  for_loop (dofs_per_cell fe) (fun i acc =>
    (for_loop (dofs_per_cell fe) (fun j cell_matrix =>
       jacobian_terms fe s cell q i j alpha_loc solution_loc cell_matrix) (fst acc),
     residual_terms fe s cell q i alpha_loc solution_loc solution_gradient_loc
       solution_old_loc (snd acc))) acc.

End CellTerms.

(** ** The weak form, in exact arithmetic *)

(** [sum_{k < n} f k]. *)
Fixpoint Rsum (n : nat) (f : nat -> R) : R :=
  match n with
  | O => 0%R
  | S k => (Rsum k f + f k)%R
  end.

(** [g . D . h], the bilinear form of the diffusivity tensor. *)
Definition grad_D_grad (g : Tensor1 R) (D : Tensor2 R) (h : Tensor1 R) : R :=
  Rsum dim (fun a => Rsum dim (fun b => g a * D a b * h b))%R.

(** The integrand of the Jacobian entry [(i, j)] at quadrature node [q],
    weight included; [u_k] is the current iterate at the node. *)
Definition jacobian_integrand (fe : FEValues R) (s : HeatNonLinear R)
    (cell i j q : nat) : R :=
  let phi_i := shape_value fe cell i q in
  let phi_j := shape_value fe cell j q in
  let alpha := FunctionAlpha_value (quadrature_point fe cell q) 0 in
  let u_k := get_function_values fe cell (solution s) q in
  ((phi_i * phi_j / deltat s
    + grad_D_grad (shape_grad fe cell i q) (D s) (shape_grad fe cell j q)
    - phi_i * alpha * (1 - 2 * u_k) * phi_j) * JxW fe cell q)%R.

(** The integrand of the residual entry [i] at quadrature node [q], weight
    included; [u_prev] is the solution of the previous time step. *)
Definition residual_integrand (fe : FEValues R) (s : HeatNonLinear R)
    (cell i q : nat) : R :=
  let phi_i := shape_value fe cell i q in
  let alpha := FunctionAlpha_value (quadrature_point fe cell q) 0 in
  let u_k := get_function_values fe cell (solution s) q in
  let u_prev := get_function_values fe cell (solution_old s) q in
  ((- phi_i * (u_k - u_prev) / deltat s
    - grad_D_grad (shape_grad fe cell i q) (D s) (get_function_gradients fe cell (solution s) q)
    + phi_i * alpha * u_k * (1 - u_k)) * JxW fe cell q)%R.

(* ================================================================== *)
(** * A run on one process: one cell, one DoF, one quadrature node *)
(* ================================================================== *)

(** The smallest discretisation the program accepts, for evaluating runs: a
    single cell that this process owns, carrying one DoF whose shape function
    is the constant [1], and one quadrature node of weight [w]. *)
Definition fe_one (w : float) : FEValues float :=
  {| dofs_per_cell := 1;
     n_q_points := 1;
     shape_value := fun _ _ _ => 1%float;
     shape_grad := fun _ _ _ _ => 0%float;
     JxW := fun _ _ => w;
     quadrature_point := fun _ _ _ => 0%float;
     get_function_values := fun _ v _ => Vector_get v 0;
     get_function_gradients := fun _ _ _ _ => 0%float |}.

Definition dof_handler_one (u_0 : float) : DoFHandler float :=
  {| n_dofs := 1;
     active_cell_iterators := [O];
     is_locally_owned := fun _ => true;
     get_dof_indices := fun _ => [O];
     interpolate_u_0 := [u_0] |}.

(** [sqrt (sum_k v(k)^2)]. *)
Definition l2_norm_serial (v : Vector float) : float :=
  PrimFloat.sqrt (fold_left (fun acc x => PrimFloat.add acc (PrimFloat.mul x x)) v 0%float).

(** A solver for one equation [a * x = b]: the quotient, accepted when its
    residual is within the tolerance; with [a = 0] and [b <> 0] no iterate
    meets it. *)
Definition solver_one (max_steps : nat) (tolerance : float)
    (A : Matrix float) (x b : Vector float) : SolverResult float :=
  let a := Matrix_get A 0 0 in
  let d := PrimFloat.div (Vector_get b 0) a in
  let res := PrimFloat.abs (PrimFloat.sub (Vector_get b 0) (PrimFloat.mul a d)) in
  if PrimFloat.leb res tolerance then SolverSuccess [d] 1
  else SolverNoConvergence max_steps res.

Definition la_one : LinearAlgebra float :=
  {| compress_matrix := fun m => m;
     compress_vector := fun v => v;
     l2_norm := l2_norm_serial;
     ghost_assign := fun v => v;
     solver_cg := solver_one |}.

(** The state in which the program built by [main_one] enters the Newton
    sweep of its first time step. *)
Definition first_sweep_state (u_0 T_ deltat_ : float) : HeatNonLinear float :=
  let dh := dof_handler_one u_0 in
  begin_step (initial_condition dh la_one (setup dh (HeatNonLinear_new 19 1 T_ deltat_))).

(** [main] with the mesh replaced by the cell above: construct, [setup],
    [solve].  The source passes [N = 19], [degree = 1], [T = 15.0],
    [deltat = 0.1]. *)
Definition main_one (w u_0 T_ deltat_ : float) (fuel : nat) : M float (HeatNonLinear float) :=
  let problem := HeatNonLinear_new 19 1 T_ deltat_ in
  solve (fe_one w) (dof_handler_one u_0) la_one fuel (setup (dof_handler_one u_0) problem).

(** ** One cell in exact arithmetic *)

(** The cell of [fe_one] over the reals, with weight [1]. *)
Definition fe_unit : FEValues R :=
  {| dofs_per_cell := 1;
     n_q_points := 1;
     shape_value := fun _ _ _ => 1%R;
     shape_grad := fun _ _ _ _ => 0%R;
     JxW := fun _ _ => 1%R;
     quadrature_point := fun _ _ _ => 0%R;
     get_function_values := fun _ v _ => Vector_get v 0;
     get_function_gradients := fun _ _ _ _ => 0%R |}.

Definition dof_handler_unit (u_0 : R) : DoFHandler R :=
  {| n_dofs := 1;
     active_cell_iterators := [O];
     is_locally_owned := fun _ => true;
     get_dof_indices := fun _ => [O];
     interpolate_u_0 := [u_0] |}.

(** One process and one equation, solved by division. *)
Definition la_unit : LinearAlgebra R :=
  {| compress_matrix := fun m => m;
     compress_vector := fun v => v;
     l2_norm := fun v => Rabs (Vector_get v 0);
     ghost_assign := fun v => v;
     solver_cg := fun _ _ A _ b => SolverSuccess [(Vector_get b 0 / Matrix_get A 0 0)%R] 1 |}.

(** The state at the first sweep of a run from the value [1/4] with
    [deltat = 1]. *)
Definition unit_state : HeatNonLinear R :=
  let dh := dof_handler_unit (1 / 4) in
  begin_step (initial_condition dh la_unit (setup dh (HeatNonLinear_new 19 1 1%R 1%R))).

(* ================================================================== *)
(** * Further vocabulary: traces, file names, exact arithmetic *)
(* ================================================================== *)

Section TraceVocabulary.

Context {F : Type} {SF : Scalar F}.

(** The subsections open on [timer] after the events of a run, innermost
    first, from those in [open]: [enter_subsection] opens one,
    [leave_subsection] closes the innermost, and is an error when none is
    open. *)
Fixpoint timer_sections (events : list (Event F)) (open : list string)
    : option (list string) :=
  match events with
  | [] => Some open
  | TimerEnter name :: rest => timer_sections rest (name :: open)
  | TimerLeave :: rest =>
      match open with
      | [] => None
      | _ :: open' => timer_sections rest open'
      end
  | _ :: rest => timer_sections rest open
  end.

(** The subsection an exception leaves open: that of the call it comes
    from. *)
Definition section_of (e : Exception F) : string :=
  match e with
  | NoConvergence _ _ => "Solve system"
  | LengthError => "Writing"
  end.

Definition sections_left {A : Type} (outcome : Outcome F A) : list string :=
  match outcome with
  | Raised e => [section_of e]
  | _ => []
  end.

(** A call that starts with no subsection open leaves open that of its
    exception, if any. *)
Definition closes {A : Type} (m : M F A) : Prop :=
  timer_sections (fst m) [] = Some (sections_left (snd m)).

(** The numbers [n_iter] of the lines ["Newton iteration n_iter/..."] of a
    run, in the order they are printed. *)
Fixpoint newton_lines (events : list (Event F)) : list nat :=
  match events with
  | [] => []
  | PcoutNewton n_iter _ _ :: rest => n_iter :: newton_lines rest
  | _ :: rest => newton_lines rest
  end.

(** How many times a run has entered the subsection [name] of the timer. *)
Fixpoint entered (name : string) (events : list (Event F)) : nat :=
  match events with
  | [] => O
  | TimerEnter name' :: rest =>
      if String.eqb name name' then S (entered name rest) else entered name rest
  | _ :: rest => entered name rest
  end.

(** The names of the files a run has written, in order. *)
Fixpoint files_of (events : list (Event F)) : list string :=
  match events with
  | [] => []
  | Output _ name _ _ :: rest => name :: files_of rest
  | _ :: rest => files_of rest
  end.

(** A snapshot carries the name [output_file_name] gives its frame. *)
Definition well_named (e : Event F) : Prop :=
  match e with
  | Output frame name _ _ => output_file_name frame = Some name
  | _ => True
  end.

(** How a call may end: what it returns satisfies [Inv], the exception that
    leaves it satisfies [Exc]. *)
Definition ends {A : Type} (Inv : A -> Prop) (Exc : Exception F -> Prop) (m : M F A)
    : Prop :=
  match snd m with
  | Returned a => Inv a
  | Raised e => Exc e
  | Unfinished => True
  end.

(** The ghosted solution is the owned one, as [solution = solution_owned]
    leaves it. *)
Definition synchronised (la : LinearAlgebra F) (s : HeatNonLinear F) : Prop :=
  solution s = ghost_assign la (solution_owned s).

(** The increment and the three solution vectors have [n] entries. *)
Definition sized (n : nat) (s : HeatNonLinear F) : Prop :=
  List.length (delta_owned s) = n /\ List.length (solution_owned s) = n
  /\ List.length (solution s) = n /\ List.length (solution_old s) = n.

(** A snapshot of a field of [n] entries. *)
Definition sized_event (n : nat) (e : Event F) : Prop :=
  match e with
  | Output _ _ _ u => List.length u = n
  | _ => True
  end.







End TraceVocabulary.

(** The frame index a file name carries: the decimal number after
    ["output-"]. *)
Definition frame_of_file_name (name : string) : option Z :=
  if String.eqb (substring 0 7 name) "output-"
  then option_map (fun d => Z.of_N (N.of_uint d))
         (NilEmpty.uint_of_string (substring 7 (String.length name - 7) name))
  else None.

(** Whether [output_file_name] names frame [n] with eleven characters that
    carry [n]. *)
Definition names_frame (n : Z) : bool :=
  match output_file_name n with
  | Some name =>
      (String.length name =? 11)%nat
      && match frame_of_file_name name with
         | Some m => (m =? n)%Z
         | None => false
         end
  | None => false
  end.

Section ExactVocabulary.

Local Open Scope R_scope.

(** [FunctionU0::value], in exact arithmetic: the initial concentration for
    the brain mesh, a Gaussian seed cut off outside a box of side 2 around
    the point (50, 80, 70); the component is unnamed and unused. *)
Definition FunctionU0_value (p : Point R) (component : nat) : R :=
  if Rltb 49 (p 0%nat) && Rltb (p 0%nat) 51 && Rltb 79 (p 1%nat) && Rltb (p 1%nat) 81
     && Rltb 69 (p 2%nat) && Rltb (p 2%nat) 71
  then 1 * exp (- (2 * (p 0%nat - 50)) ^ 2 - (2 * (p 1%nat - 80)) ^ 2
                - (2 * (p 2%nat - 70)) ^ 2)
  else 0.

(** The open box in which the seed lives. *)
Definition in_seed_box (p : Point R) : Prop :=
  49 < p 0%nat < 51 /\ 79 < p 1%nat < 81 /\ 69 < p 2%nat < 71.

(** The finite element function with nodal values [v] on a cell, and its
    gradient, at node [q]. *)
Definition fe_value (fe : FEValues R) (cell : nat) (v : nat -> R) (q : nat) : R :=
  Rsum (dofs_per_cell fe) (fun i => v i * shape_value fe cell i q).

Definition fe_gradient (fe : FEValues R) (cell : nat) (v : nat -> R) (q : nat)
    : Tensor1 R :=
  fun k => Rsum (dofs_per_cell fe) (fun i => v i * shape_grad fe cell i q k).

(** [v . A . v] for the local matrix [A] of a cell. *)
Definition local_quadratic_form (fe : FEValues R) (s : HeatNonLinear R) (cell : nat)
    (v : nat -> R) : R :=
  Rsum (dofs_per_cell fe) (fun i =>
    Rsum (dofs_per_cell fe) (fun j =>
      v i * fst (assemble_cell fe s cell) i j * v j)).

(** [sum_{c in cells} f c]. *)
Fixpoint cells_sum (cells : list nat) (f : nat -> R) : R :=
  match cells with
  | [] => 0
  | cell :: rest => f cell + cells_sum rest f
  end.

(** What a cell with DoF indices [dof_indices] and local matrix [A] adds to
    entry [(a, b)] of the matrix: the entries [A i j] whose indices are
    mapped to [a] and [b]. *)
Definition scattered_matrix (dof_indices : list nat) (A : FullMatrix R) (a b : nat) : R :=
  Rsum (List.length dof_indices) (fun i =>
    Rsum (List.length dof_indices) (fun j =>
      if (nth i dof_indices O =? a)%nat && (nth j dof_indices O =? b)%nat
      then A i j else 0)).

(** What it adds to entry [a] of the vector. *)
Definition scattered_vector (dof_indices : list nat) (v : CellVector R) (a : nat) : R :=
  Rsum (List.length dof_indices) (fun i =>
    if (nth i dof_indices O =? a)%nat then v i else 0).

(** A matrix of [h] rows of [w] entries. *)
Definition has_shape (h w : nat) (m : Matrix R) : Prop :=
  List.length m = h /\ Forall (fun row => List.length row = w) m.

(** The finite element function of the solution of [s'] on a cell is that
    of the solution of [s] plus the function with nodal values [delta]; the
    two objects share the time step, the tensor and the function of the
    previous solution. *)
Definition perturbed (fe : FEValues R) (cell : nat) (delta : nat -> R)
    (s s' : HeatNonLinear R) : Prop :=
  deltat s' = deltat s /\ D s' = D s
  /\ forall q, (q < n_q_points fe)%nat ->
       get_function_values fe cell (solution s') q =
         get_function_values fe cell (solution s) q + fe_value fe cell delta q
       /\ get_function_values fe cell (solution_old s') q =
          get_function_values fe cell (solution_old s) q
       /\ forall k, (k < dim)%nat ->
            get_function_gradients fe cell (solution s') q k =
            get_function_gradients fe cell (solution s) q k
            + fe_gradient fe cell delta q k.

(** The finite element function of the solution is the constant [c] at
    every quadrature node of every cell, with a zero gradient, and so is
    that of the previous solution. *)
Definition uniform (fe : FEValues R) (c : R) (s : HeatNonLinear R) : Prop :=
  forall cell q k, (q < n_q_points fe)%nat -> (k < dim)%nat ->
    get_function_values fe cell (solution s) q = c
    /\ get_function_values fe cell (solution_old s) q = c
    /\ get_function_gradients fe cell (solution s) q k = 0.

(** What a run shows when nothing changes: snapshots of the field [u], sweeps
    of one pass that find a zero residual, and no linear solve. *)
Definition stationary_event (u : Vector R) (e : Event R) : Prop :=
  match e with
  | Output _ _ _ v => v = u
  | PcoutNewton n_iter _ residual_norm => n_iter = 0%nat /\ residual_norm = 0
  | PcoutCG _ => False
  | TimerEnter name => name <> "Solve system"%string
  | _ => True
  end.

(** ** A chain of two segments, in exact arithmetic *)

(** Cells with two DoFs whose shape functions are [1 - x] and [x] along the
    first axis, and two quadrature nodes, at [x = 1/4] and [x = 3/4], of
    weight [1/2] each; cell [c] carries the DoFs [c] and [c + 1]. *)
Definition fe_segment : FEValues R :=
  {| dofs_per_cell := 2;
     n_q_points := 2;
     shape_value := fun _ i q =>
       let x := if (q =? 0)%nat then 1 / 4 else 3 / 4 in
       if (i =? 0)%nat then 1 - x else x;
     shape_grad := fun _ i _ k =>
       if (k =? 0)%nat then (if (i =? 0)%nat then - 1 else 1) else 0;
     JxW := fun _ _ => 1 / 2;
     quadrature_point := fun cell q k =>
       if (k =? 0)%nat then INR cell + (if (q =? 0)%nat then 1 / 4 else 3 / 4) else 0;
     get_function_values := fun cell v q =>
       let x := if (q =? 0)%nat then 1 / 4 else 3 / 4 in
       Vector_get v cell * (1 - x) + Vector_get v (S cell) * x;
     get_function_gradients := fun cell v _ k =>
       if (k =? 0)%nat then Vector_get v (S cell) - Vector_get v cell else 0 |}.

Definition dof_handler_chain (u_0 : Vector R) : DoFHandler R :=
  {| n_dofs := 3;
     active_cell_iterators := [0%nat; 1%nat];
     is_locally_owned := fun _ => true;
     get_dof_indices := fun cell => [cell; S cell];
     interpolate_u_0 := u_0 |}.

(** The state at the first sweep of a run on the chain from the nodal values
    [0], [1/2] and [1], with [deltat = 1/10]. *)
Definition chain_state : HeatNonLinear R :=
  let dh := dof_handler_chain [0; 1 / 2; 1] in
  begin_step (initial_condition dh la_unit (setup dh (HeatNonLinear_new 19 1 15 (1 / 10)))).

End ExactVocabulary.

(* ================================================================== *)
(** * Loops and computations *)
(* ================================================================== *)

Lemma for_loop_S {A : Type} (n : nat) (body : nat -> A -> A) (a : A) :
  for_loop (S n) body a = body n (for_loop n body a).
Proof.
  unfold for_loop. rewrite seq_S, fold_left_app. reflexivity.
Qed.

(** A loop whose passes leave an observation alone leaves it alone. *)
Lemma for_loop_frame {A V : Type} (get : A -> V) (body : nat -> A -> A) (n : nat) :
  (forall i a, i < n -> get (body i a) = get a) ->
  forall a, get (for_loop n body a) = get a.
Proof.
  intros Hframe a. induction n as [ | n IH].
  - reflexivity.
  - rewrite for_loop_S, Hframe by lia. apply IH. intros i b Hi. apply Hframe. lia.
Qed.

(** A loop in which pass [k] alone touches an observation, through [f]. *)
Lemma for_loop_hit {A V : Type} (get : A -> V) (body : nat -> A -> A)
    (f : V -> V) (k n : nat) :
  k < n ->
  (forall i a, i <> k -> get (body i a) = get a) ->
  (forall a, get (body k a) = f (get a)) ->
  forall a, get (for_loop n body a) = f (get a).
Proof.
  intros Hk Hother Hat a. induction n as [ | n IH].
  - lia.
  - rewrite for_loop_S. destruct (Nat.eq_dec n k) as [-> | Hne].
    + rewrite Hat. f_equal. apply for_loop_frame.
      intros i b Hi. apply Hother. lia.
    + rewrite Hother by exact Hne. apply IH. lia.
Qed.

(** ** The laws of computations *)

Section Computations.

Context {F : Type}.

Lemma bind_ret {A B : Type} (a : A) (k : A -> M F B) : bind (ret a) k = k a.
Proof. unfold bind, ret. destruct (k a) as [events outcome]. reflexivity. Qed.

Lemma bind_tell {B : Type} (e : Event F) (m : M F B) :
  bind (tell e) (fun _ => m) = (e :: fst m, snd m).
Proof. unfold bind, tell. destruct m as [events outcome]. reflexivity. Qed.

Lemma bind_returned {A B : Type} (m : M F A) (k : A -> M F B) (a : A) :
  snd m = Returned a ->
  bind m k = ((fst m ++ fst (k a))%list, snd (k a)).
Proof.
  destruct m as [events outcome]. simpl. intros ->. unfold bind.
  destruct (k a) as [events' outcome']. reflexivity.
Qed.

Lemma bind_raised {A B : Type} (m : M F A) (k : A -> M F B) (e : Exception F) :
  snd m = Raised e ->
  bind m k = (fst m, Raised e).
Proof. destruct m as [events outcome]. simpl. intros ->. reflexivity. Qed.


Lemma bind_events_Forall {A B : Type} (m : M F A) (k : A -> M F B)
    (P : Event F -> Prop) :
  Forall P (fst m) ->
  (forall a, snd m = Returned a -> Forall P (fst (k a))) ->
  Forall P (fst (bind m k)).
Proof.
  destruct m as [events [a | e | ]]; simpl; intros Hm Hk; try exact Hm.
  specialize (Hk a eq_refl). destruct (k a) as [events' outcome'].
  simpl in *. apply Forall_app. split; assumption.
Qed.

Lemma returns_ret {A : Type} (a : A) (P : A -> Prop) :
  P a -> returns (F := F) (ret a) P.
Proof. intros H. exact H. Qed.

Lemma returns_bind {A B : Type} (m : M F A) (k : A -> M F B)
    (Q : A -> Prop) (P : B -> Prop) :
  returns m Q -> (forall a, Q a -> returns (k a) P) -> returns (bind m k) P.
Proof.
  unfold returns. destruct m as [events [a | e | ]]; simpl; intros Hm Hk; try exact I.
  specialize (Hk a Hm). destruct (k a) as [events' outcome']. exact Hk.
Qed.

Lemma returns_tell {B : Type} (e : Event F) (m : M F B) (P : B -> Prop) :
  returns m P -> returns (bind (tell e) (fun _ => m)) P.
Proof. rewrite bind_tell. intros H. exact H. Qed.

Lemma returns_weaken {A : Type} (m : M F A) (P Q : A -> Prop) :
  returns m P -> (forall a, P a -> Q a) -> returns m Q.
Proof. unfold returns. destruct (snd m); auto. Qed.

End Computations.

(* ================================================================== *)
(** * What the sweep and the time loop leave alone *)
(* ================================================================== *)

Section Frames.

Context {F : Type} {SF : Scalar F}.
Variable fe_values : FEValues F.
Variable dof_handler : DoFHandler F.
Variable la : LinearAlgebra F.

Lemma untouched_refl (s : HeatNonLinear F) : untouched s s.
Proof. repeat split. Qed.

Lemma untouched_trans (s1 s2 s3 : HeatNonLinear F) :
  untouched s1 s2 -> untouched s2 s3 -> untouched s1 s3.
Proof.
  unfold untouched. intros (H1 & H2 & H3 & H4 & H5) (K1 & K2 & K3 & K4 & K5).
  repeat split; congruence.
Qed.

Lemma assemble_system_untouched (s : HeatNonLinear F) :
  untouched s (assemble_system fe_values dof_handler la s).
Proof. repeat split. Qed.

Lemma solve_linear_system_untouched (s : HeatNonLinear F) :
  returns (solve_linear_system la s) (untouched s).
Proof.
  unfold solve_linear_system.
  destruct (solver_cg la 1000 _ _ _ _) as [delta last_step | last_step res].
  - apply returns_tell, returns_ret. repeat split.
  - exact I.
Qed.

Lemma newton_iteration_untouched (s : HeatNonLinear F) (n_iter : nat) :
  returns (newton_iteration fe_values dof_handler la s n_iter)
          (fun it => untouched s (fst it)).
Proof.
  unfold newton_iteration.
  do 3 apply returns_tell.
  eapply returns_bind with (Q := untouched s); [ | intros a Ha; apply returns_ret; exact Ha].
  destruct (s_ltb _ _).
  - apply returns_tell.
    eapply returns_bind; [apply solve_linear_system_untouched | ].
    intros a Ha. apply returns_tell, returns_ret.
    apply untouched_trans with (s2 := a); [exact Ha | repeat split].
  - apply returns_tell, returns_ret. repeat split.
Qed.

Lemma newton_loop_untouched (k n_iter : nat) (residual_norm : F) (s : HeatNonLinear F) :
  returns (newton_loop fe_values dof_handler la k n_iter residual_norm s)
          (fun x => untouched s (fst (fst x))).
Proof.
  revert n_iter residual_norm s. induction k as [ | k IH]; intros n_iter residual_norm s; simpl.
  - destruct (_ && _); [exact I | apply returns_ret, untouched_refl].
  - destruct (_ && _); [ | apply returns_ret, untouched_refl].
    eapply returns_bind; [apply newton_iteration_untouched | ].
    intros it Hit. eapply returns_weaken; [apply IH | ].
    intros x Hx. apply untouched_trans with (s2 := fst it); assumption.
Qed.

Lemma solve_newton_untouched (s : HeatNonLinear F) :
  returns (solve_newton fe_values dof_handler la s) (untouched s).
Proof.
  unfold solve_newton.
  eapply returns_bind; [apply newton_loop_untouched | ].
  intros x Hx. apply returns_ret. exact Hx.
Qed.

(** One pass of the sweep, case by case. *)
Lemma newton_iteration_eq (s : HeatNonLinear F) (n_iter : nat) :
  newton_iteration fe_values dof_handler la s n_iter =
  let s1 := assemble_system fe_values dof_handler la s in
  let residual_norm := l2_norm la (residual_vector s1) in
  if s_ltb residual_tolerance residual_norm then
    match solver_cg la 1000 (s_mul s_1em6 residual_norm)
            (jacobian_matrix s1) (delta_owned s1) (residual_vector s1) with
    | SolverSuccess delta last_step =>
        ([TimerEnter "Assemble system"%string; TimerLeave;
          PcoutNewton n_iter n_max_iters residual_norm;
          TimerEnter "Solve system"%string; PcoutCG last_step; TimerLeave],
         Returned (apply_increment la s1 delta, residual_norm))
    | SolverNoConvergence last_step last_residual =>
        ([TimerEnter "Assemble system"%string; TimerLeave;
          PcoutNewton n_iter n_max_iters residual_norm;
          TimerEnter "Solve system"%string],
         Raised (NoConvergence last_step last_residual))
    end
  else
    ([TimerEnter "Assemble system"%string; TimerLeave;
      PcoutNewton n_iter n_max_iters residual_norm;
      Pcout " < tolerance"%string],
     Returned (s1, residual_norm)).
Proof.
  unfold newton_iteration, solve_linear_system. cbv zeta.
  destruct (s_ltb residual_tolerance _).
  - destruct (solver_cg la 1000 _ _ _ _); reflexivity.
  - reflexivity.
Qed.

(** The sweep always ends: a thousand passes are enough. *)
Lemma newton_loop_finishes (k n_iter : nat) (residual_norm : F) (s : HeatNonLinear F) :
  n_max_iters <= k + n_iter ->
  snd (newton_loop fe_values dof_handler la k n_iter residual_norm s) <> Unfinished.
Proof.
  revert n_iter residual_norm s.
  induction k as [ | k IH]; intros n_iter residual_norm s Hk; simpl.
  - replace (n_iter <? n_max_iters) with false by (symmetry; apply Nat.ltb_ge; lia).
    simpl. discriminate.
  - destruct (_ && _); [ | simpl; discriminate].
    destruct (newton_iteration fe_values dof_handler la s n_iter) as [events [it | e | ]] eqn:Hit.
    + rewrite bind_returned with (a := it) by reflexivity. simpl. apply IH. lia.
    + rewrite bind_raised with (e := e) by reflexivity. simpl. discriminate.
    + exfalso. revert Hit. rewrite newton_iteration_eq. cbv zeta.
      destruct (s_ltb _ _); [destruct (solver_cg la 1000 _ _ _ _) | ]; discriminate.
Qed.

Lemma solve_newton_finishes (s : HeatNonLinear F) :
  snd (solve_newton fe_values dof_handler la s) <> Unfinished.
Proof.
  unfold solve_newton.
  pose proof (newton_loop_finishes n_max_iters 0 (s_add residual_tolerance (s_of_Z 1)) s) as H.
  destruct (newton_loop _ _ _ _ _ _ _) as [events [x | e | ]]; simpl in *.
  - discriminate.
  - discriminate.
  - exfalso. apply H; [unfold n_max_iters; lia | reflexivity].
Qed.

(** A sweep shows nothing but its own lines: no line of a time step, no
    snapshot. *)
Lemma newton_iteration_events (s : HeatNonLinear F) (n_iter : nat) :
  Forall newton_event (fst (newton_iteration fe_values dof_handler la s n_iter)).
Proof.
  rewrite newton_iteration_eq. cbv zeta.
  destruct (s_ltb _ _); [destruct (solver_cg la 1000 _ _ _ _) | ];
    simpl; repeat constructor.
Qed.

Lemma newton_loop_events (k n_iter : nat) (residual_norm : F) (s : HeatNonLinear F) :
  Forall newton_event (fst (newton_loop fe_values dof_handler la k n_iter residual_norm s)).
Proof.
  revert n_iter residual_norm s.
  induction k as [ | k IH]; intros n_iter residual_norm s; simpl.
  - destruct (_ && _); constructor.
  - destruct (_ && _); [ | constructor].
    apply bind_events_Forall; [apply newton_iteration_events | ].
    intros it _. apply IH.
Qed.

Lemma solve_newton_events (s : HeatNonLinear F) :
  Forall newton_event (fst (solve_newton fe_values dof_handler la s)).
Proof.
  unfold solve_newton. apply bind_events_Forall; [apply newton_loop_events | ].
  intros x _. constructor.
Qed.

Lemma steps_of_app (a b : list (Event F)) :
  steps_of (a ++ b) = (steps_of a ++ steps_of b)%list.
Proof.
  induction a as [ | e a IH]; [reflexivity | ].
  destruct e; simpl; rewrite IH; reflexivity.
Qed.

Lemma snapshots_of_app (a b : list (Event F)) :
  snapshots_of (a ++ b) = (snapshots_of a ++ snapshots_of b)%list.
Proof.
  induction a as [ | e a IH]; [reflexivity | ].
  destruct e; simpl; rewrite IH; reflexivity.
Qed.

Lemma newton_events_no_step (events : list (Event F)) :
  Forall newton_event events -> steps_of events = [] /\ snapshots_of events = [].
Proof.
  induction 1 as [ | e events He _ [IH1 IH2]]; [split; reflexivity | ].
  destruct e; simpl in *; try contradiction; split; assumption.
Qed.

Lemma writing_events_trace (time_step tt : Z) (s : HeatNonLinear F) :
  steps_of (writing_events time_step tt s) = []
  /\ snapshots_of (writing_events time_step tt s) =
     if snapshot_fails time_step tt then []
     else if (time_step mod 30 =? 0)%Z then [(tt, time s)] else [].
Proof.
  unfold writing_events, snapshot_fails.
  destruct (_ =? _)%Z; [ | split; reflexivity].
  destruct (output_file_name tt); split; reflexivity.
Qed.

(** One pass of the time loop, when the sweep returns: the line of the step,
    what the sweep shows, the snapshot if one is due, an empty line, and the
    rest of the loop.  Nothing in it depends on how the sweep ended. *)
Lemma time_loop_step (fuel : nat) (time_step tt : Z) (s s' : HeatNonLinear F) :
  s_ltb (time s) (s_sub (T s) (s_mul s_half (deltat s))) = true ->
  snd (solve_newton fe_values dof_handler la (begin_step s)) = Returned s' ->
  snapshot_fails (uint_succ time_step) tt = false ->
  time_loop fe_values dof_handler la (S fuel) time_step tt s =
  let rest := time_loop fe_values dof_handler la fuel (uint_succ time_step)
                (next_frame (uint_succ time_step) tt) s' in
  (PcoutStep (uint_succ time_step) (time (begin_step s))
     :: fst (solve_newton fe_values dof_handler la (begin_step s))
     ++ writing_events (uint_succ time_step) tt s'
     ++ Pcout EmptyString :: fst rest,
   snd rest).
Proof.
  intros Hguard Hnewton Hwrite.
  change (time_loop fe_values dof_handler la (S fuel) time_step tt s) with
    (if s_ltb (time s) (s_sub (T s) (s_mul s_half (deltat s))) then
       bind (tell (PcoutStep (uint_succ time_step) (time (begin_step s)))) (fun _ =>
       bind (solve_newton fe_values dof_handler la (begin_step s)) (fun s =>
       bind (if (uint_succ time_step mod 30 =? 0)%Z
             then
               bind (tell (TimerEnter "Writing"%string)) (fun _ =>
               bind (output s tt (time s)) (fun _ =>
               bind (tell TimerLeave) (fun _ => ret (uint_succ tt))))
             else ret tt) (fun tt =>
       bind (tell (Pcout EmptyString)) (fun _ =>
       time_loop fe_values dof_handler la fuel (uint_succ time_step) tt s))))
     else ret s).
  rewrite Hguard, bind_tell.
  rewrite bind_returned with (a := s') by exact Hnewton.
  unfold snapshot_fails in Hwrite. unfold writing_events, next_frame, output.
  destruct (uint_succ time_step mod 30 =? 0)%Z.
  - destruct (output_file_name tt) as [name | ]; [ | discriminate Hwrite].
    rewrite !bind_tell. simpl.
    destruct (time_loop fe_values dof_handler la fuel _ _ s') as [events outcome].
    reflexivity.
  - rewrite bind_ret, bind_tell. reflexivity.
Qed.

(** One pass of the time loop, when the sweep returns and the snapshot that
    is due cannot be named: the exception of [output] leaves the loop. *)
Lemma time_loop_output_raised (fuel : nat) (time_step tt : Z) (s s' : HeatNonLinear F) :
  s_ltb (time s) (s_sub (T s) (s_mul s_half (deltat s))) = true ->
  snd (solve_newton fe_values dof_handler la (begin_step s)) = Returned s' ->
  snapshot_fails (uint_succ time_step) tt = true ->
  time_loop fe_values dof_handler la (S fuel) time_step tt s =
  (PcoutStep (uint_succ time_step) (time (begin_step s))
     :: fst (solve_newton fe_values dof_handler la (begin_step s))
     ++ writing_events (uint_succ time_step) tt s',
   Raised LengthError).
Proof.
  intros Hguard Hnewton Hwrite.
  change (time_loop fe_values dof_handler la (S fuel) time_step tt s) with
    (if s_ltb (time s) (s_sub (T s) (s_mul s_half (deltat s))) then
       bind (tell (PcoutStep (uint_succ time_step) (time (begin_step s)))) (fun _ =>
       bind (solve_newton fe_values dof_handler la (begin_step s)) (fun s =>
       bind (if (uint_succ time_step mod 30 =? 0)%Z
             then
               bind (tell (TimerEnter "Writing"%string)) (fun _ =>
               bind (output s tt (time s)) (fun _ =>
               bind (tell TimerLeave) (fun _ => ret (uint_succ tt))))
             else ret tt) (fun tt =>
       bind (tell (Pcout EmptyString)) (fun _ =>
       time_loop fe_values dof_handler la fuel (uint_succ time_step) tt s))))
     else ret s).
  rewrite Hguard, bind_tell.
  rewrite bind_returned with (a := s') by exact Hnewton.
  unfold snapshot_fails in Hwrite. unfold writing_events, output.
  destruct (uint_succ time_step mod 30 =? 0)%Z; [ | discriminate Hwrite].
  destruct (output_file_name tt) as [name | ]; [discriminate Hwrite | ].
  reflexivity.
Qed.

(** One pass of the time loop, when the solver raises inside the sweep: the
    exception leaves the loop at once. *)
Lemma time_loop_raised (fuel : nat) (time_step tt : Z) (s : HeatNonLinear F)
    (e : Exception F) :
  s_ltb (time s) (s_sub (T s) (s_mul s_half (deltat s))) = true ->
  snd (solve_newton fe_values dof_handler la (begin_step s)) = Raised e ->
  time_loop fe_values dof_handler la (S fuel) time_step tt s =
  (PcoutStep (uint_succ time_step) (time (begin_step s))
     :: fst (solve_newton fe_values dof_handler la (begin_step s)),
   Raised e).
Proof.
  intros Hguard Hnewton.
  change (time_loop fe_values dof_handler la (S fuel) time_step tt s) with
    (if s_ltb (time s) (s_sub (T s) (s_mul s_half (deltat s))) then
       bind (tell (PcoutStep (uint_succ time_step) (time (begin_step s)))) (fun _ =>
       bind (solve_newton fe_values dof_handler la (begin_step s)) (fun s =>
       bind (if (uint_succ time_step mod 30 =? 0)%Z
             then
               bind (tell (TimerEnter "Writing"%string)) (fun _ =>
               bind (output s tt (time s)) (fun _ =>
               bind (tell TimerLeave) (fun _ => ret (uint_succ tt))))
             else ret tt) (fun tt =>
       bind (tell (Pcout EmptyString)) (fun _ =>
       time_loop fe_values dof_handler la fuel (uint_succ time_step) tt s))))
     else ret s).
  rewrite Hguard, bind_tell.
  rewrite bind_raised with (e := e) by exact Hnewton. reflexivity.
Qed.

Lemma time_loop_exit (fuel : nat) (time_step tt : Z) (s : HeatNonLinear F) :
  s_ltb (time s) (s_sub (T s) (s_mul s_half (deltat s))) = false ->
  time_loop fe_values dof_handler la fuel time_step tt s = ret s.
Proof. intros Hguard. destruct fuel; simpl; rewrite Hguard; reflexivity. Qed.

Lemma time_loop_out_of_fuel (time_step tt : Z) (s : HeatNonLinear F) :
  s_ltb (time s) (s_sub (T s) (s_mul s_half (deltat s))) = true ->
  time_loop fe_values dof_handler la 0 time_step tt s = unfinished.
Proof. intros Hguard. simpl. rewrite Hguard. reflexivity. Qed.

Lemma time_grid_exit (fuel : nat) (t T_ dt : F) (time_step : Z) :
  s_ltb t (s_sub T_ (s_mul s_half dt)) = false ->
  time_grid fuel t T_ dt time_step = ([], true).
Proof. intros Hguard. destruct fuel; simpl; rewrite Hguard; reflexivity. Qed.

(** The trace of the time loop.  Whatever the collaborators are, the steps a
    run enters are those of [time_grid], which the guard and the two
    increments alone decide, and its snapshots are those the cadence asks
    for.  A run that returns has entered all of them; a run left by an
    exception has entered the step in which the solver raised and has written
    no snapshot for it. *)
Lemma time_loop_trace (fuel : nat) :
  forall (time_step tt : Z) (s : HeatNonLinear F),
  let run := time_loop fe_values dof_handler la fuel time_step tt s in
  let grid := time_grid fuel (time s) (T s) (deltat s) time_step in
  match snd run with
  | Returned s' =>
      steps_of (fst run) = fst grid /\ snd grid = true
      /\ snapshots_of (fst run) = snapshots_due (fst grid) tt
      /\ T s' = T s /\ deltat s' = deltat s /\ D s' = D s
  | Unfinished =>
      steps_of (fst run) = fst grid /\ snd grid = false
      /\ snapshots_of (fst run) = snapshots_due (fst grid) tt
  | Raised _ =>
      exists entered step rest,
        steps_of (fst run) = (entered ++ [step])%list
        /\ fst grid = (entered ++ step :: rest)%list
        /\ snapshots_of (fst run) = snapshots_due entered tt
  end.
Proof.
  induction fuel as [ | fuel IH]; intros time_step tt s;
    destruct (s_ltb (time s) (s_sub (T s) (s_mul s_half (deltat s)))) eqn:Hguard.
  - rewrite (time_loop_out_of_fuel _ _ _ Hguard). simpl. rewrite Hguard.
    repeat split.
  - rewrite (time_loop_exit _ _ _ _ Hguard), (time_grid_exit _ _ _ _ _ Hguard).
    simpl. repeat split.
  - pose proof (solve_newton_untouched (begin_step s)) as Hframe.
    pose proof (solve_newton_finishes (begin_step s)) as Hfin.
    destruct (newton_events_no_step (solve_newton_events (begin_step s))) as [Hs Hw].
    unfold returns in Hframe.
    destruct (snd (solve_newton fe_values dof_handler la (begin_step s)))
      as [s' | e | ] eqn:Hnewton.
    + destruct Hframe as (Ht & HT & Hdt & HD & _). simpl in Ht, HT, Hdt, HD.
      destruct (writing_events_trace (uint_succ time_step) tt s') as [Hws Hww].
      destruct (snapshot_fails (uint_succ time_step) tt) eqn:Hwrite.
      { rewrite (time_loop_output_raised fuel time_step tt s Hguard Hnewton Hwrite).
        simpl time_grid. rewrite Hguard.
        exists [], (uint_succ time_step, s_add (time s) (deltat s)),
          (fst (time_grid fuel (s_add (time s) (deltat s)) (T s) (deltat s)
                  (uint_succ time_step))).
        cbn [fst snd steps_of snapshots_of].
        rewrite steps_of_app, snapshots_of_app, Hs, Hw, Hws, Hww. repeat split. }
      rewrite (time_loop_step fuel time_step tt s Hguard Hnewton Hwrite). cbv zeta.
      specialize (IH (uint_succ time_step) (next_frame (uint_succ time_step) tt) s').
      cbv zeta in IH. rewrite Ht, HT, Hdt in IH.
      simpl time_grid. rewrite Hguard.
      set (grid := time_grid fuel (s_add (time s) (deltat s)) (T s) (deltat s)
                     (uint_succ time_step)) in *.
      set (rest := time_loop fe_values dof_handler la fuel (uint_succ time_step)
                     (next_frame (uint_succ time_step) tt) s') in *.
      assert (Hsteps : steps_of (fst (PcoutStep (uint_succ time_step) (time (begin_step s))
                 :: fst (solve_newton fe_values dof_handler la (begin_step s))
                 ++ writing_events (uint_succ time_step) tt s'
                 ++ Pcout EmptyString :: fst rest, snd rest))
               = (uint_succ time_step, s_add (time s) (deltat s)) :: steps_of (fst rest)).
      { simpl. rewrite !steps_of_app, Hs, Hws. reflexivity. }
      assert (Hsnaps : snapshots_of (fst (PcoutStep (uint_succ time_step) (time (begin_step s))
                 :: fst (solve_newton fe_values dof_handler la (begin_step s))
                 ++ writing_events (uint_succ time_step) tt s'
                 ++ Pcout EmptyString :: fst rest, snd rest))
               = ((if (uint_succ time_step mod 30 =? 0)%Z
                   then [(tt, s_add (time s) (deltat s))] else [])
                  ++ snapshots_of (fst rest))%list).
      { simpl. rewrite !snapshots_of_app, Hw, Hww, Ht. reflexivity. }
      rewrite Hsteps, Hsnaps. simpl snd. simpl fst.
      unfold next_frame in IH.
      destruct (snd rest) as [s'' | e | ].
      * destruct IH as (I1 & I2 & I3 & I4 & I5 & I6).
        rewrite I1, I3. repeat split; try congruence.
        cbn [snapshots_due]. destruct (uint_succ time_step mod 30 =? 0)%Z; reflexivity.
      * destruct IH as (entered & step & more & I1 & I2 & I3).
        exists ((uint_succ time_step, s_add (time s) (deltat s)) :: entered), step, more.
        rewrite I1, I2, I3. repeat split.
        cbn [snapshots_due app]. destruct (uint_succ time_step mod 30 =? 0)%Z; reflexivity.
      * destruct IH as (I1 & I2 & I3).
        rewrite I1, I3. repeat split; try assumption.
        cbn [snapshots_due]. destruct (uint_succ time_step mod 30 =? 0)%Z; reflexivity.
    + rewrite (time_loop_raised fuel time_step tt s Hguard Hnewton).
      simpl time_grid. rewrite Hguard.
      exists [], (uint_succ time_step, s_add (time s) (deltat s)),
        (fst (time_grid fuel (s_add (time s) (deltat s)) (T s) (deltat s)
                (uint_succ time_step))).
      simpl. rewrite Hs, Hw. repeat split.
    + contradiction Hfin. reflexivity.
  - rewrite (time_loop_exit _ _ _ _ Hguard), (time_grid_exit _ _ _ _ _ Hguard).
    simpl. repeat split.
Qed.

(** [solve]: the header, with the snapshot of the initial condition, then
    the time loop from step 0 and frame 1. *)
Lemma solve_eq (fuel : nat) (s : HeatNonLinear F) :
  solve fe_values dof_handler la fuel s =
  let s0 := initial_condition dof_handler la s in
  let run := time_loop fe_values dof_handler la fuel 0 1 s0 in
  ((header_events (solution s0) ++ fst run)%list, snd run).
Proof.
  unfold solve, output. cbv zeta. rewrite !bind_tell. reflexivity.
Qed.

Lemma solve_keeps_parameters (fuel : nat) (s : HeatNonLinear F) :
  returns (solve fe_values dof_handler la fuel s)
          (fun s' => T s' = T s /\ deltat s' = deltat s /\ D s' = D s).
Proof.
  rewrite solve_eq. cbv zeta. unfold returns. simpl snd.
  pose proof (time_loop_trace fuel 0 1 (initial_condition dof_handler la s)) as H.
  cbv zeta in H.
  destruct (snd (time_loop fe_values dof_handler la fuel 0 1 _)); try exact I.
  destruct H as (_ & _ & _ & H1 & H2 & H3). repeat split; assumption.
Qed.

(** The trace of [solve]: the snapshot of the initial condition, then the
    trace of the time loop from time zero. *)
Lemma solve_trace (fuel : nat) (s : HeatNonLinear F) :
  let run := solve fe_values dof_handler la fuel s in
  let grid := time_grid fuel (s_of_Z 0) (T s) (deltat s) 0 in
  match snd run with
  | Returned _ =>
      steps_of (fst run) = fst grid /\ snd grid = true
      /\ snapshots_of (fst run) = (0%Z, s_of_Z 0) :: snapshots_due (fst grid) 1
  | Unfinished =>
      steps_of (fst run) = fst grid /\ snd grid = false
      /\ snapshots_of (fst run) = (0%Z, s_of_Z 0) :: snapshots_due (fst grid) 1
  | Raised _ =>
      exists entered step rest,
        steps_of (fst run) = (entered ++ [step])%list
        /\ fst grid = (entered ++ step :: rest)%list
        /\ snapshots_of (fst run) = (0%Z, s_of_Z 0) :: snapshots_due entered 1
  end.
Proof.
  rewrite solve_eq. cbv zeta.
  pose proof (time_loop_trace fuel 0 1 (initial_condition dof_handler la s)) as H.
  cbv zeta in H. simpl time in H. simpl T in H. simpl deltat in H.
  cbn [fst snd]. rewrite steps_of_app, snapshots_of_app.
  change (steps_of (header_events (solution (initial_condition dof_handler la s))))
    with (@nil (Z * F)).
  change (snapshots_of (header_events (solution (initial_condition dof_handler la s))))
    with [(0%Z, s_of_Z 0)].
  destruct (snd (time_loop fe_values dof_handler la fuel 0 1 _)).
  - destruct H as (H1 & H2 & H3 & _). simpl. rewrite H1, H3. repeat split. exact H2.
  - destruct H as (entered & step & rest & H1 & H2 & H3).
    exists entered, step, rest. simpl. rewrite H1, H2, H3. repeat split.
  - destruct H as (H1 & H2 & H3). simpl. rewrite H1, H3. repeat split. exact H2.
Qed.

End Frames.

(** The times of the grid: step [k] happens at [time_after k t dt]. *)
Lemma time_after_shift {F : Type} {SF : Scalar F} (k : nat) (t dt : F) :
  time_after k (s_add t dt) dt = time_after (S k) t dt.
Proof.
  induction k as [ | k IH]; [reflexivity | ].
  simpl. simpl in IH. rewrite IH. reflexivity.
Qed.

Lemma time_grid_times {F : Type} {SF : Scalar F} (fuel : nat) :
  forall (t T_ dt : F) (time_step : Z),
  map snd (fst (time_grid fuel t T_ dt time_step)) =
  map (fun k => time_after k t dt)
      (seq 1 (List.length (fst (time_grid fuel t T_ dt time_step)))).
Proof.
  induction fuel as [ | fuel IH]; intros t T_ dt time_step; simpl.
  - destruct (s_ltb _ _); reflexivity.
  - destruct (s_ltb _ _); [ | reflexivity].
    cbn [fst map List.length seq]. f_equal.
    rewrite IH, <- (seq_shift _ 1), map_map.
    apply map_ext. intros k. apply time_after_shift.
Qed.

(** Once the guard has failed within [n] passes, more passes change
    nothing. *)
Lemma time_grid_more {F : Type} {SF : Scalar F} (n k : nat) :
  forall (t T_ dt : F) (time_step : Z),
  snd (time_grid n t T_ dt time_step) = true ->
  time_grid (n + k) t T_ dt time_step = time_grid n t T_ dt time_step.
Proof.
  induction n as [ | n IH]; intros t T_ dt time_step.
  - simpl. destruct (s_ltb t (s_sub T_ (s_mul s_half dt))) eqn:Hguard.
    + discriminate.
    + intros _. apply time_grid_exit. exact Hguard.
  - simpl. destruct (s_ltb t (s_sub T_ (s_mul s_half dt))); [ | reflexivity].
    simpl. intros H. rewrite IH by exact H. reflexivity.
Qed.

(** ** The Newton sweep *)

Section Sweep.

Context {F : Type} {SF : Scalar F}.
Variable fe_values : FEValues F.
Variable dof_handler : DoFHandler F.
Variable la : LinearAlgebra F.

Lemma newton_loop_S (k n_iter : nat) (residual_norm : F) (s : HeatNonLinear F) :
  newton_loop fe_values dof_handler la (S k) n_iter residual_norm s =
  if (n_iter <? n_max_iters) && s_ltb residual_tolerance residual_norm
  then bind (newton_iteration fe_values dof_handler la s n_iter)
            (fun it => newton_loop fe_values dof_handler la k (S n_iter) (snd it) (fst it))
  else ret (s, n_iter, residual_norm).
Proof. reflexivity. Qed.

Lemma newton_loop_exit (k n_iter : nat) (residual_norm : F) (s : HeatNonLinear F) :
  (n_iter <? n_max_iters) && s_ltb residual_tolerance residual_norm = false ->
  newton_loop fe_values dof_handler la k n_iter residual_norm s =
  ret (s, n_iter, residual_norm).
Proof. intros H. destruct k; simpl; rewrite H; reflexivity. Qed.

Lemma iterating_guard (n_iter : nat) (residual_norm : F) :
  newton_state n_iter residual_norm = ITERATING <->
  (n_iter <? n_max_iters) && s_ltb residual_tolerance residual_norm = true.
Proof.
  unfold newton_state.
  destruct (s_ltb residual_tolerance residual_norm), (n_iter <? n_max_iters);
    simpl; split; intros H; try reflexivity; discriminate H.
Qed.


End Sweep.

(* ================================================================== *)
(** * When the solver or the sweep fails *)
(* ================================================================== *)

Section Failures.

Context {F : Type} {SF : Scalar F}.
Variable fe : FEValues F.
Variable dh : DoFHandler F.
Variable la : LinearAlgebra F.

(** A sweep that ends diverged has shown the passes of its iterations and
    nothing else. *)
Lemma diverged_sweep_events (k : nat) :
  forall (n_iter : nat) (residual_norm : F) (s : HeatNonLinear F) (n : nat) (norm : F),
  sweep_exit (newton_loop fe dh la k n_iter residual_norm s) = Some (n, norm) ->
  newton_state n norm = DIVERGED ->
  Forall iteration_event (fst (newton_loop fe dh la k n_iter residual_norm s)).
Proof.
  induction k as [ | k IH]; intros n_iter residual_norm s n norm.
  - simpl. destruct (_ && _); intros _ _; constructor.
  - rewrite newton_loop_S. destruct (_ && _); [ | intros _ _; constructor].
    rewrite newton_iteration_eq. cbv zeta.
    remember (assemble_system fe dh la s) as s1 eqn:Hs1.
    remember (l2_norm la (residual_vector s1)) as norm1 eqn:Hnorm1.
    destruct (s_ltb residual_tolerance norm1) eqn:Hgt.
    + destruct (solver_cg la 1000 _ _ _ _) as [delta last_step | last_step res].
      * rewrite bind_returned with (a := (apply_increment la s1 delta, norm1))
          by reflexivity.
        unfold sweep_exit. cbn [fst snd]. intros Hexit Hdiv.
        apply Forall_app. split; [repeat constructor | ].
        apply (IH _ _ _ n norm); assumption.
      * unfold sweep_exit. simpl. discriminate.
    + rewrite bind_returned with (a := (s1, norm1)) by reflexivity.
      cbn [fst snd].
      rewrite newton_loop_exit by (rewrite Hgt; apply andb_false_r).
      unfold sweep_exit, ret. cbn [fst snd]. intros Hexit Hdiv. exfalso.
      injection Hexit as Hn Hnorm. rewrite <- Hnorm in Hdiv.
      unfold newton_state in Hdiv. rewrite Hgt in Hdiv. discriminate.
Qed.

Lemma iteration_events_no_line (events : list (Event F)) :
  Forall iteration_event events -> lines_of events = [].
Proof.
  induction 1 as [ | e events He _ IH]; [reflexivity | ].
  destruct e; simpl in *; try contradiction; exact IH.
Qed.

(** What [solve_newton] shows and how it ends are those of its loop. *)
Lemma solve_newton_eq (s : HeatNonLinear F) :
  let sweep := newton_loop fe dh la n_max_iters 0
                 (s_add residual_tolerance (s_of_Z 1)) s in
  fst (solve_newton fe dh la s) = fst sweep
  /\ snd (solve_newton fe dh la s) =
     match snd sweep with
     | Returned x => Returned (fst (fst x))
     | Raised e => Raised e
     | Unfinished => Unfinished
     end.
Proof.
  cbv zeta. unfold solve_newton.
  destruct (newton_loop fe dh la n_max_iters 0 _ s) as [events [x | e | ]];
    unfold bind, ret; simpl; rewrite ?app_nil_r; split; reflexivity.
Qed.

(** The first pass of a sweep always assembles and prints the residual
    norm. *)
Lemma first_pass_events (s : HeatNonLinear F) :
  newton_state 0 (s_add residual_tolerance (s_of_Z 1)) = ITERATING ->
  exists rest,
    fst (solve_newton fe dh la s) =
    TimerEnter "Assemble system"%string :: TimerLeave
      :: PcoutNewton 0 n_max_iters
           (l2_norm la (residual_vector (assemble_system fe dh la s)))
      :: rest.
Proof.
  intros Hiterating. apply iterating_guard in Hiterating.
  rewrite (proj1 (solve_newton_eq s)).
  change n_max_iters with (S 999) at 1.
  rewrite newton_loop_S, Hiterating, newton_iteration_eq. cbv zeta.
  remember (assemble_system fe dh la s) as s1 eqn:Hs1.
  remember (l2_norm la (residual_vector s1)) as norm1 eqn:Hnorm1.
  destruct (s_ltb residual_tolerance norm1).
  - destruct (solver_cg la 1000 _ _ _ _) as [delta last_step | last_step res].
    + rewrite bind_returned with (a := (apply_increment la s1 delta, norm1))
        by reflexivity.
      cbn [fst app]. eexists. reflexivity.
    + rewrite bind_raised with (e := NoConvergence last_step res) by reflexivity.
      cbn [fst]. eexists. reflexivity.
  - rewrite bind_returned with (a := (s1, norm1)) by reflexivity.
    cbn [fst app]. eexists. reflexivity.
Qed.

End Failures.

(* ================================================================== *)
(** * The local matrix and residual of a cell *)
(* ================================================================== *)

Section CellLoops.

Context {F : Type} {SF : Scalar F}.
Variable fe : FEValues F.
Variable s : HeatNonLinear F.
Variable cell : nat.

Local Open Scope scalar_scope.

Lemma jacobian_terms_at (q i j : nat) (alpha_loc : F) (solution_loc : nat -> F)
    (m : FullMatrix F) (a b : nat) :
  jacobian_terms fe s cell q i j alpha_loc solution_loc m a b =
  if (a =? i) && (b =? j)
  then m a b + mass_term fe s cell q i j + diffusion_term fe s cell q i j
       - reaction_term fe cell q i j alpha_loc solution_loc
  else m a b.
Proof.
  unfold jacobian_terms, FullMatrix_add, FullMatrix_sub. cbv zeta.
  destruct ((a =? i) && (b =? j)); reflexivity.
Qed.

(** The loop over [j] touches row [i] only, each entry of it once. *)
Lemma column_loop_at (q i : nat) (alpha_loc : F) (solution_loc : nat -> F)
    (m : FullMatrix F) (a b : nat) :
  for_loop (dofs_per_cell fe)
    (fun j cell_matrix => jacobian_terms fe s cell q i j alpha_loc solution_loc cell_matrix)
    m a b =
  if (a =? i) && (b <? dofs_per_cell fe)%nat
  then m a b + mass_term fe s cell q i b + diffusion_term fe s cell q i b
       - reaction_term fe cell q i b alpha_loc solution_loc
  else m a b.
Proof.
  destruct (a =? i) eqn:Hai; simpl.
  - apply Nat.eqb_eq in Hai. subst a.
    destruct (b <? dofs_per_cell fe)%nat eqn:Hb.
    + apply Nat.ltb_lt in Hb.
      apply (for_loop_hit (fun m : FullMatrix F => m i b)
               (fun j cell_matrix =>
                  jacobian_terms fe s cell q i j alpha_loc solution_loc cell_matrix)
               (fun v => v + mass_term fe s cell q i b + diffusion_term fe s cell q i b
                         - reaction_term fe cell q i b alpha_loc solution_loc)
               (k := b)); [exact Hb | | ].
      * intros j m' Hj. rewrite jacobian_terms_at, Nat.eqb_refl. simpl.
        replace (b =? j) with false by (symmetry; apply Nat.eqb_neq; lia).
        reflexivity.
      * intros m'. rewrite jacobian_terms_at, !Nat.eqb_refl. reflexivity.
    + apply Nat.ltb_ge in Hb.
      apply (for_loop_frame (fun m : FullMatrix F => m i b)).
      intros j m' Hj. rewrite jacobian_terms_at.
      replace (b =? j) with false by (symmetry; apply Nat.eqb_neq; lia).
      rewrite andb_false_r. reflexivity.
  - apply (for_loop_frame (fun m : FullMatrix F => m a b)).
    intros j m' Hj. rewrite jacobian_terms_at, Hai. reflexivity.
Qed.

Lemma residual_terms_at (q i : nat) (alpha_loc : F) (solution_loc : nat -> F)
    (solution_gradient_loc : nat -> Tensor1 F) (solution_old_loc : nat -> F)
    (v : CellVector F) (a : nat) :
  residual_terms fe s cell q i alpha_loc solution_loc solution_gradient_loc
    solution_old_loc v a =
  if a =? i
  then v a - time_derivative_term fe s cell q i solution_loc solution_old_loc
       - residual_diffusion_term fe s cell q i solution_gradient_loc
       + residual_reaction_term fe cell q i alpha_loc solution_loc
  else v a.
Proof.
  unfold residual_terms, CellVector_add, CellVector_sub. cbv zeta.
  destruct (a =? i); reflexivity.
Qed.

Lemma assemble_cell_eq :
  assemble_cell fe s cell =
  for_loop (n_q_points fe) (node_pass fe s cell) (FullMatrix_zero, CellVector_zero).
Proof. reflexivity. Qed.

(** One node adds its three terms to every entry of the local matrix, and to
    every entry of the local residual. *)
Lemma node_pass_matrix (q : nat) (acc : FullMatrix F * CellVector F) (a b : nat) :
  fst (node_pass fe s cell q acc) a b =
  if (a <? dofs_per_cell fe)%nat && (b <? dofs_per_cell fe)%nat
  then fst acc a b + mass_term fe s cell q a b + diffusion_term fe s cell q a b
       - reaction_term fe cell q a b (FunctionAlpha_value (quadrature_point fe cell q) 0)
           (get_function_values fe cell (solution s))
  else fst acc a b.
Proof.
  unfold node_pass. cbv zeta.
  destruct (a <? dofs_per_cell fe)%nat eqn:Ha; simpl.
  - apply Nat.ltb_lt in Ha.
    apply (for_loop_hit (fun acc : FullMatrix F * CellVector F => fst acc a b)
             _
             (fun v => if (b <? dofs_per_cell fe)%nat
                       then v + mass_term fe s cell q a b + diffusion_term fe s cell q a b
                            - reaction_term fe cell q a b
                                (FunctionAlpha_value (quadrature_point fe cell q) 0)
                                (get_function_values fe cell (solution s))
                       else v)
             (k := a)); [exact Ha | | ].
    + intros i acc' Hi. cbn [fst]. rewrite column_loop_at.
      replace (a =? i) with false by (symmetry; apply Nat.eqb_neq; lia).
      reflexivity.
    + intros acc'. cbn [fst]. rewrite column_loop_at, Nat.eqb_refl. reflexivity.
  - apply Nat.ltb_ge in Ha.
    apply (for_loop_frame (fun acc : FullMatrix F * CellVector F => fst acc a b)).
    intros i acc' Hi. cbn [fst]. rewrite column_loop_at.
    replace (a =? i) with false by (symmetry; apply Nat.eqb_neq; lia).
    reflexivity.
Qed.

Lemma node_pass_residual (q : nat) (acc : FullMatrix F * CellVector F) (a : nat) :
  snd (node_pass fe s cell q acc) a =
  if (a <? dofs_per_cell fe)%nat
  then snd acc a
       - time_derivative_term fe s cell q a (get_function_values fe cell (solution s))
           (get_function_values fe cell (solution_old s))
       - residual_diffusion_term fe s cell q a (get_function_gradients fe cell (solution s))
       + residual_reaction_term fe cell q a (FunctionAlpha_value (quadrature_point fe cell q) 0)
           (get_function_values fe cell (solution s))
  else snd acc a.
Proof.
  unfold node_pass. cbv zeta.
  destruct (a <? dofs_per_cell fe)%nat eqn:Ha.
  - apply Nat.ltb_lt in Ha.
    apply (for_loop_hit (fun acc : FullMatrix F * CellVector F => snd acc a)
             _
             (fun v => v
                - time_derivative_term fe s cell q a (get_function_values fe cell (solution s))
                    (get_function_values fe cell (solution_old s))
                - residual_diffusion_term fe s cell q a (get_function_gradients fe cell (solution s))
                + residual_reaction_term fe cell q a
                    (FunctionAlpha_value (quadrature_point fe cell q) 0)
                    (get_function_values fe cell (solution s)))
             (k := a)); [exact Ha | | ].
    + intros i acc' Hi. cbn [snd]. rewrite residual_terms_at.
      replace (a =? i) with false by (symmetry; apply Nat.eqb_neq; lia).
      reflexivity.
    + intros acc'. cbn [snd]. rewrite residual_terms_at, Nat.eqb_refl. reflexivity.
  - apply Nat.ltb_ge in Ha.
    apply (for_loop_frame (fun acc : FullMatrix F * CellVector F => snd acc a)).
    intros i acc' Hi. cbn [snd]. rewrite residual_terms_at.
    replace (a =? i) with false by (symmetry; apply Nat.eqb_neq; lia).
    reflexivity.
Qed.

End CellLoops.

(* ================================================================== *)
(** * The weak form *)
(* ================================================================== *)

(** The double contraction the code computes is the bilinear form of [D]. *)
Lemma scalar_product_contract (g : Tensor1 R) (D_ : Tensor2 R) (h : Tensor1 R) :
  scalar_product (contract_1_2 g D_) h = grad_D_grad g D_ h.
Proof.
  unfold scalar_product, contract_1_2, grad_D_grad, for_loop, dim. simpl. ring.
Qed.

Lemma local_matrix_sum (fe : FEValues R) (s : HeatNonLinear R) (cell i j n : nat) :
  i < dofs_per_cell fe -> j < dofs_per_cell fe ->
  fst (for_loop n (node_pass fe s cell) (FullMatrix_zero, CellVector_zero)) i j =
  Rsum n (jacobian_integrand fe s cell i j).
Proof.
  intros Hi Hj. induction n as [ | n IH].
  - reflexivity.
  - rewrite for_loop_S, node_pass_matrix, IH.
    apply Nat.ltb_lt in Hi, Hj. rewrite Hi, Hj. cbn [andb Rsum].
    unfold mass_term, diffusion_term, reaction_term, jacobian_integrand.
    rewrite scalar_product_contract. simpl. ring.
Qed.

Lemma local_residual_sum (fe : FEValues R) (s : HeatNonLinear R) (cell i n : nat) :
  i < dofs_per_cell fe ->
  snd (for_loop n (node_pass fe s cell) (FullMatrix_zero, CellVector_zero)) i =
  Rsum n (residual_integrand fe s cell i).
Proof.
  intros Hi. induction n as [ | n IH].
  - reflexivity.
  - rewrite for_loop_S, node_pass_residual, IH.
    apply Nat.ltb_lt in Hi. rewrite Hi. cbn [Rsum].
    unfold time_derivative_term, residual_diffusion_term, residual_reaction_term,
      residual_integrand.
    rewrite scalar_product_contract. simpl. unfold Rdiv. ring.
Qed.

(** The cell loop skips the cells this process does not own. *)
Lemma assemble_system_scatter {F : Type} {SF : Scalar F}
    (fe : FEValues F) (dh : DoFHandler F) (la : LinearAlgebra F) (s : HeatNonLinear F) :
  let owned := filter (is_locally_owned dh) (active_cell_iterators dh) in
  jacobian_matrix (assemble_system fe dh la s) =
    compress_matrix la
      (fold_left (fun J cell =>
                    Matrix_add (get_dof_indices dh cell) (fst (assemble_cell fe s cell)) J)
         owned (Matrix_zero (n_dofs dh)))
  /\ residual_vector (assemble_system fe dh la s) =
    compress_vector la
      (fold_left (fun R cell =>
                    Vector_add (get_dof_indices dh cell) (snd (assemble_cell fe s cell)) R)
         owned (Vector_zero (n_dofs dh))).
Proof.
  cbv zeta. unfold assemble_system. cbv zeta. cbn [jacobian_matrix residual_vector set_system].
  generalize (Matrix_zero (F := F) (n_dofs dh)) as J0.
  generalize (Vector_zero (F := F) (n_dofs dh)) as R0.
  induction (active_cell_iterators dh) as [ | cell cells IH]; intros R0 J0.
  - split; reflexivity.
  - cbn [fold_left filter].
    destruct (is_locally_owned dh cell); cbn [negb fold_left fst snd]; apply IH.
Qed.

Lemma Vector_pluseq_get (a b : Vector R) (k : nat) :
  k < List.length a -> k < List.length b ->
  Vector_get (Vector_pluseq a b) k = (Vector_get a k + Vector_get b k)%R.
Proof.
  revert b k. induction a as [ | x a IH]; intros b k Ha Hb; simpl in Ha; [lia | ].
  destruct b as [ | y b]; simpl in Hb; [lia | ].
  destruct k as [ | k]; [reflexivity | ].
  unfold Vector_get in *. simpl. apply IH; lia.
Qed.

(** C1.  The local Jacobian.  In exact arithmetic, for every cell and every
    pair [(i, j)] of local basis indices, the entry of the local matrix that
    [assemble_system] builds is the quadrature sum of
    [phi_i phi_j / dt + grad phi_i . D . grad phi_j
     - phi_i alpha (1 - 2 u_k) phi_j], times [w_q], with [u_k] the current
    iterate at the node (first part).  The Jacobian is rebuilt from zero:
    what the container held before has no part in it (second part), it is
    the compressed sum of the local matrices of the locally owned cells,
    added to the zero matrix at their DoF indices (third part). *)
Theorem local_jacobian_is_the_weak_form
    (fe : FEValues R) (dh : DoFHandler R) (la : LinearAlgebra R)
    (s : HeatNonLinear R) (cell i j : nat)
    (Hi : i < dofs_per_cell fe) (Hj : j < dofs_per_cell fe) :
  fst (assemble_cell fe s cell) i j =
    Rsum (n_q_points fe) (jacobian_integrand fe s cell i j)
  /\ (forall (J0 : Matrix R) (R0 : Vector R),
        jacobian_matrix (assemble_system fe dh la (set_system s J0 R0)) =
        jacobian_matrix (assemble_system fe dh la s))
  /\ jacobian_matrix (assemble_system fe dh la s) =
     compress_matrix la
       (fold_left (fun J c =>
                     Matrix_add (get_dof_indices dh c) (fst (assemble_cell fe s c)) J)
          (filter (is_locally_owned dh) (active_cell_iterators dh))
          (Matrix_zero (n_dofs dh))).
Proof.
  split; [ | split].
  - rewrite assemble_cell_eq. apply local_matrix_sum; assumption.
  - intros J0 R0. reflexivity.
  - apply (proj1 (assemble_system_scatter fe dh la s)).
Qed.

(** C1, an instance: from the value [1/4] with [deltat = 1] the only entry of
    the local matrix is [1/1 + 0 - 2 (1 - 2/4) = 0]. *)
Lemma local_jacobian_witness :
  0 < dofs_per_cell fe_unit
  /\ fst (assemble_cell fe_unit unit_state 0) 0 0 =
     Rsum 1 (jacobian_integrand fe_unit unit_state 0 0 0)
  /\ Rsum 1 (jacobian_integrand fe_unit unit_state 0 0 0) = 0%R.
Proof.
  assert (H : 0 < dofs_per_cell fe_unit) by (simpl; lia).
  split; [exact H | ]. split.
  - exact (proj1 (local_jacobian_is_the_weak_form
                    fe_unit (dof_handler_unit (1 / 4)) la_unit unit_state 0 H H)).
  - unfold jacobian_integrand, grad_D_grad. simpl. unfold Vector_get. simpl. field.
Defined.

(** C2.  The local residual and the sign of the increment.  In exact
    arithmetic, for every cell and every local basis index [i], the entry of
    the local residual is the quadrature sum of
    [- phi_i (u_k - u_prev) / dt - grad phi_i . D . grad u_k
     + phi_i alpha u_k (1 - u_k)], times [w_q] (first part); the residual
    vector is the compressed sum of the local residuals of the locally owned
    cells, added to the zero vector (second part).  The solver is given the
    Jacobian and this residual as its right-hand side, and the increment it
    returns is added to the owned solution, entry by entry (third part). *)
Theorem local_residual_is_the_weak_form
    (fe : FEValues R) (dh : DoFHandler R) (la : LinearAlgebra R)
    (s : HeatNonLinear R) (cell i : nat)
    (Hi : i < dofs_per_cell fe) :
  snd (assemble_cell fe s cell) i =
    Rsum (n_q_points fe) (residual_integrand fe s cell i)
  /\ residual_vector (assemble_system fe dh la s) =
     compress_vector la
       (fold_left (fun R0 c =>
                     Vector_add (get_dof_indices dh c) (snd (assemble_cell fe s c)) R0)
          (filter (is_locally_owned dh) (active_cell_iterators dh))
          (Vector_zero (n_dofs dh)))
  /\ (forall (n_iter : nat) (delta : Vector R) (last_step : nat),
        let s1 := assemble_system fe dh la s in
        let norm := l2_norm la (residual_vector s1) in
        s_ltb residual_tolerance norm = true ->
        solver_cg la 1000 (s_mul s_1em6 norm) (jacobian_matrix s1) (delta_owned s1)
          (residual_vector s1) = SolverSuccess delta last_step ->
        exists s2,
          snd (newton_iteration fe dh la s n_iter) = Returned (s2, norm)
          /\ solution_owned s2 = Vector_pluseq (solution_owned s) delta
          /\ (forall k, k < List.length (solution_owned s) -> k < List.length delta ->
                Vector_get (solution_owned s2) k =
                (Vector_get (solution_owned s) k + Vector_get delta k)%R)).
Proof.
  split; [ | split].
  - rewrite assemble_cell_eq. apply local_residual_sum; assumption.
  - apply (proj2 (assemble_system_scatter fe dh la s)).
  - intros n_iter delta last_step s1 norm Hgt Hsolver.
    exists (apply_increment la s1 delta).
    rewrite newton_iteration_eq. cbv zeta. fold s1. fold norm.
    rewrite Hgt, Hsolver. split; [reflexivity | ]. split; [reflexivity | ].
    intros k Hk Hd. apply Vector_pluseq_get; assumption.
Qed.

(** C2, an instance: from the value [1/4] with [deltat = 1] the only entry of
    the local residual is [- 0 - 0 + 2 (1/4) (3/4) = 3/8]. *)
Lemma local_residual_witness :
  0 < dofs_per_cell fe_unit
  /\ snd (assemble_cell fe_unit unit_state 0) 0 =
     Rsum 1 (residual_integrand fe_unit unit_state 0 0)
  /\ Rsum 1 (residual_integrand fe_unit unit_state 0 0) = (3 / 8)%R.
Proof.
  assert (H : 0 < dofs_per_cell fe_unit) by (simpl; lia).
  split; [exact H | ]. split.
  - exact (proj1 (local_residual_is_the_weak_form
                    fe_unit (dof_handler_unit (1 / 4)) la_unit unit_state 0 H)).
  - unfold residual_integrand, grad_D_grad. simpl. unfold Vector_get. simpl. field.
Defined.

(* ================================================================== *)
(** * The diffusivity tensor and the reaction coefficient *)
(* ================================================================== *)

(** Every entry of the tensor [set_up_diffusivity] builds, in exact
    arithmetic: [d_ext * delta_ij + d_axn * n_i * n_j] inside the three
    dimensions, the zero of the default constructor outside. *)
Lemma set_up_diffusivity_entry (de da : R) (n : nat -> R) (i j : nat) :
  set_up_diffusivity de da n i j =
  if (i <? dim) && (j <? dim)
  then (de * (if i =? j then 1 else 0) + da * n i * n j)%R
  else 0%R.
Proof.
  unfold set_up_diffusivity, dim.
  destruct i as [ | [ | [ | i]]], j as [ | [ | [ | j]]]; cbn; try reflexivity; ring.
Qed.

Lemma set_up_diffusivity_symmetric (de da : R) (n : nat -> R) (i j : nat) :
  set_up_diffusivity de da n i j = set_up_diffusivity de da n j i.
Proof.
  rewrite !set_up_diffusivity_entry.
  rewrite (andb_comm (i <? dim) (j <? dim)), (Nat.eqb_sym i j).
  destruct ((j <? dim) && (i <? dim)); [ring | reflexivity].
Qed.



(** C10.  The reaction coefficient.  [FunctionAlpha::value] is [2] at every
    point and for every component (first part), the double [2.0] (second
    part); the assembly reads it at the quadrature points and therefore
    builds the same local matrix and residual wherever those points lie
    (third part). *)
Theorem reaction_coefficient_is_two :
  (forall (F : Type) (SF : Scalar F) (p : Point F) (component : nat),
     FunctionAlpha_value p component = s_of_Z 2)
  /\ (forall (p : Point float) (component : nat),
        FunctionAlpha_value p component = 2%float)
  /\ (forall (F : Type) (SF : Scalar F) (fe : FEValues F)
             (points : nat -> nat -> Point F) (s : HeatNonLinear F) (cell : nat),
        assemble_cell (move_quadrature_points fe points) s cell =
        assemble_cell fe s cell).
Proof.
  split; [reflexivity | ].
  split; [intros p component; vm_compute; reflexivity | ].
  intros F SF fe points s cell. reflexivity.
Qed.



(** A norm that is not a number is not above the tolerance: in binary64 such
    a pass takes the branch of the met tolerance, prints [" < tolerance"] and
    solves nothing.  (With the reals there is no such norm.) *)
Lemma nan_norm_is_taken_for_convergence
    (fe : FEValues float) (dh : DoFHandler float) (la : LinearAlgebra float)
    (s : HeatNonLinear float) (n_iter : nat) :
  l2_norm la (residual_vector (assemble_system fe dh la s)) = nan ->
  s_leb (F := float) nan residual_tolerance = false
  /\ newton_iteration fe dh la s n_iter =
     (converged_pass_events n_iter nan, Returned (assemble_system fe dh la s, nan)).
Proof.
  intros Hnan. split; [vm_compute; reflexivity | ].
  rewrite newton_iteration_eq. cbv zeta. rewrite Hnan.
  replace (s_ltb (F := float) residual_tolerance nan) with false
    by (vm_compute; reflexivity).
  reflexivity.
Qed.

(** C5 (amended).  When the Krylov solve fails.  In a pass of the sweep whose
    residual norm is above the tolerance: if the solver reaches its cap it
    raises, and the sweep is left at once, inside the subsection of the
    solve, with no increment applied and no state returned (first part); if
    the solver returns, the number of its steps is printed and the state the
    pass leaves is made of the increment alone (second part).  No caller
    catches the exception: a sweep that raises makes [solve_newton] raise
    (third part), and then the time loop (fourth part) and [solve] (fifth
    part) raise in turn, and the run is over. *)
Theorem krylov_failure_is_not_caught
    (F : Type) (SF : Scalar F) (fe : FEValues F) (dh : DoFHandler F)
    (la : LinearAlgebra F) (s : HeatNonLinear F) (k n_iter : nat) (residual_norm : F)
    (Hiterating : newton_state n_iter residual_norm = ITERATING) :
  let s1 := assemble_system fe dh la s in
  let norm := l2_norm la (residual_vector s1) in
  let solver := solver_cg la 1000 (s_mul s_1em6 norm) (jacobian_matrix s1)
                  (delta_owned s1) (residual_vector s1) in
  (s_ltb residual_tolerance norm = true ->
   forall (last_step : nat) (last_residual : F),
   solver = SolverNoConvergence last_step last_residual ->
   newton_loop fe dh la (S k) n_iter residual_norm s =
   (raised_pass_events n_iter norm, Raised (NoConvergence last_step last_residual)))
  /\ (s_ltb residual_tolerance norm = true ->
      forall (delta : Vector F) (last_step : nat),
      solver = SolverSuccess delta last_step ->
      newton_iteration fe dh la s n_iter =
      (solved_pass_events n_iter norm last_step,
       Returned (apply_increment la s1 delta, norm)))
  /\ (forall (s0 : HeatNonLinear F) (e : Exception F),
        snd (newton_loop fe dh la n_max_iters 0
               (s_add residual_tolerance (s_of_Z 1)) s0) = Raised e ->
        snd (solve_newton fe dh la s0) = Raised e)
  /\ (forall (fuel : nat) (time_step tt : Z) (s0 : HeatNonLinear F) (e : Exception F),
        s_ltb (time s0) (s_sub (T s0) (s_mul s_half (deltat s0))) = true ->
        snd (solve_newton fe dh la (begin_step s0)) = Raised e ->
        time_loop fe dh la (S fuel) time_step tt s0 =
        (PcoutStep (uint_succ time_step) (time (begin_step s0))
           :: fst (solve_newton fe dh la (begin_step s0)),
         Raised e))
  /\ (forall (fuel : nat) (s0 : HeatNonLinear F) (e : Exception F),
        snd (time_loop fe dh la fuel 0 1 (initial_condition dh la s0)) = Raised e ->
        snd (solve fe dh la fuel s0) = Raised e).
Proof.
  intros s1 norm solver. apply iterating_guard in Hiterating.
  split; [ | split; [ | split; [ | split]]].
  - intros Hgt last_step last_residual Hsolver.
    rewrite newton_loop_S, Hiterating, newton_iteration_eq. cbv zeta.
    fold s1. fold norm. fold solver. rewrite Hgt, Hsolver.
    rewrite bind_raised with (e := NoConvergence last_step last_residual) by reflexivity.
    reflexivity.
  - intros Hgt delta last_step Hsolver.
    rewrite newton_iteration_eq. cbv zeta.
    fold s1. fold norm. fold solver. rewrite Hgt, Hsolver. reflexivity.
  - intros s0 e H. rewrite (proj2 (solve_newton_eq fe dh la s0)).
    cbv zeta. rewrite H. reflexivity.
  - intros fuel time_step tt s0 e Hguard H.
    apply time_loop_raised; assumption.
  - intros fuel s0 e H. rewrite solve_eq. cbv zeta. exact H.
Qed.

(** C5, an instance.  On one cell, from the value [0.25] with [deltat = 1],
    the Jacobian of the first pass is [1/1 - 2 (1 - 0.5) = 0] and the residual
    is [0.375]: the solver reaches its cap and the sweep raises. *)
Lemma krylov_failure_witness :
  newton_state 0 (s_add residual_tolerance (s_of_Z 1)) = ITERATING
  /\ jacobian_matrix (assemble_system (fe_one 1) (dof_handler_one 0.25) la_one
                        (first_sweep_state 0.25 2 1)) = [[0%float]]
  /\ residual_vector (assemble_system (fe_one 1) (dof_handler_one 0.25) la_one
                        (first_sweep_state 0.25 2 1)) = [0.375%float]
  /\ newton_loop (fe_one 1) (dof_handler_one 0.25) la_one 1000 0
       (s_add residual_tolerance (s_of_Z 1)) (first_sweep_state 0.25 2 1) =
     (raised_pass_events 0 0.375%float, Raised (NoConvergence 1000 nan)).
Proof.
  assert (H1 : newton_state (F := float) 0 (s_add residual_tolerance (s_of_Z 1)) = ITERATING)
    by (vm_compute; reflexivity).
  split; [exact H1 | ].
  split; [vm_compute; reflexivity | ].
  split; [vm_compute; reflexivity | ].
  pose proof (@krylov_failure_is_not_caught float ScalarFloat (fe_one 1)
                (dof_handler_one 0.25) la_one (first_sweep_state 0.25 2 1)
                999 0 (s_add residual_tolerance (s_of_Z 1)) H1) as P.
  cbv zeta in P. destruct P as (P & _).
  assert (H2 : s_ltb residual_tolerance
                 (l2_norm la_one (residual_vector
                    (assemble_system (fe_one 1) (dof_handler_one 0.25) la_one
                       (first_sweep_state 0.25 2 1)))) = true)
    by (vm_compute; reflexivity).
  specialize (P H2 1000 nan).
  assert (H3 : l2_norm la_one (residual_vector
                 (assemble_system (fe_one 1) (dof_handler_one 0.25) la_one
                    (first_sweep_state 0.25 2 1))) = 0.375%float)
    by (vm_compute; reflexivity).
  rewrite H3 in P. apply P. vm_compute. reflexivity.
Defined.

(** C5, the claim as stated fails.  On one cell, from the value [0.25] with
    [T = 2] and [deltat = 1], two steps are due.  The solver reaches its cap
    in the first pass of the first step: the run ends there with the
    exception, inside the subsection of the solve; no line reports the
    iterations of the solver, no increment is applied and the second step is
    never entered. *)
Lemma krylov_failure_counterexample :
  main_one 1 0.25 2 1 5 =
    ((header_events [0.25%float]
      ++ PcoutStep 1 1%float :: raised_pass_events 0 0.375%float)%list,
     Raised (NoConvergence 1000 nan))
  /\ time_grid (F := float) 5 0%float 2%float 1%float 0 =
     ([(1%Z, 1%float); (2%Z, 2%float)], true).
Proof. split; vm_compute; reflexivity. Qed.

(** C6 (amended).  When the Newton sweep diverges.  A sweep that leaves its
    loop with the passes used up and the norm above the tolerance returns
    like any other (first part); it has shown the passes of its iterations
    and nothing else: no line of text, hence no report of the divergence
    (second and third parts).  The time loop has nothing to test: it goes on
    with the snapshot, if one is due, and with the next step, in which the
    last iterate is the solution of the previous time step (fourth part; the
    one thing that can stop it there is a snapshot whose frame index has
    more than four digits).  There is no setting that would make it stop. *)
Theorem newton_divergence_is_silent
    (F : Type) (SF : Scalar F) (fe : FEValues F) (dh : DoFHandler F)
    (la : LinearAlgebra F) (s : HeatNonLinear F) (n : nat) (norm : F)
    (Hexit : sweep_exit (newton_loop fe dh la n_max_iters 0
                           (s_add residual_tolerance (s_of_Z 1)) s) = Some (n, norm))
    (Hdiverged : newton_state n norm = DIVERGED) :
  has_returned (solve_newton fe dh la s) = true
  /\ Forall iteration_event (fst (solve_newton fe dh la s))
  /\ lines_of (fst (solve_newton fe dh la s)) = []
  /\ (forall (fuel : nat) (time_step tt : Z) (s0 s' : HeatNonLinear F),
        s = begin_step s0 ->
        s_ltb (time s0) (s_sub (T s0) (s_mul s_half (deltat s0))) = true ->
        snd (solve_newton fe dh la s) = Returned s' ->
        snapshot_fails (uint_succ time_step) tt = false ->
        time_loop fe dh la (S fuel) time_step tt s0 =
        (let rest := time_loop fe dh la fuel (uint_succ time_step)
                       (next_frame (uint_succ time_step) tt) s' in
         (PcoutStep (uint_succ time_step) (time s)
            :: fst (solve_newton fe dh la s)
            ++ writing_events (uint_succ time_step) tt s'
            ++ Pcout EmptyString :: fst rest,
          snd rest))
        /\ solution_old (begin_step s') = solution s').
Proof.
  pose proof (solve_newton_eq fe dh la s) as [Hevents Houtcome]. cbv zeta in *.
  assert (Hiter : Forall iteration_event (fst (solve_newton fe dh la s))).
  { rewrite Hevents. apply (diverged_sweep_events fe dh la _ _ _ _ Hexit Hdiverged). }
  split; [ | split; [exact Hiter | split]].
  - unfold has_returned. rewrite Houtcome. unfold sweep_exit in Hexit.
    destruct (snd (newton_loop fe dh la n_max_iters 0 _ s)); [reflexivity | | ];
      discriminate Hexit.
  - apply iteration_events_no_line. exact Hiter.
  - intros fuel time_step tt s0 s' Hs Hguard Hreturned Hwrite. subst s.
    split; [ | reflexivity].
    apply time_loop_step; assumption.
Qed.

(** C6, an instance.  On one cell of weight [1e9], from the value [0.5] with
    [deltat = 0.1], the residual of the first sweep stays at rounding level,
    [5.96e-07], above the tolerance [1e-10]: the sweep uses its thousand
    passes, returns and has written no line. *)
Lemma newton_divergence_witness :
  sweep_exit (newton_loop (fe_one 1e9) (dof_handler_one 0.5) la_one n_max_iters 0
                (s_add residual_tolerance (s_of_Z 1)) (first_sweep_state 0.5 0.2 0.1))
    = Some (1000, 5.9604644775390625e-07%float)
  /\ newton_state 1000 5.9604644775390625e-07%float = DIVERGED
  /\ has_returned (solve_newton (fe_one 1e9) (dof_handler_one 0.5) la_one
                     (first_sweep_state 0.5 0.2 0.1)) = true
  /\ lines_of (fst (solve_newton (fe_one 1e9) (dof_handler_one 0.5) la_one
                      (first_sweep_state 0.5 0.2 0.1))) = [].
Proof.
  assert (H1 : sweep_exit (newton_loop (fe_one 1e9) (dof_handler_one 0.5) la_one
                             n_max_iters 0 (s_add residual_tolerance (s_of_Z 1))
                             (first_sweep_state 0.5 0.2 0.1))
               = Some (1000, 5.9604644775390625e-07%float))
    by (vm_compute; reflexivity).
  assert (H2 : newton_state (F := float) 1000 5.9604644775390625e-07%float = DIVERGED)
    by (vm_compute; reflexivity).
  split; [exact H1 | ]. split; [exact H2 | ].
  pose proof (@newton_divergence_is_silent float ScalarFloat (fe_one 1e9)
                (dof_handler_one 0.5) la_one (first_sweep_state 0.5 0.2 0.1)
                1000 5.9604644775390625e-07%float H1 H2) as P.
  destruct P as (P1 & _ & P3 & _). split; assumption.
Defined.

(** C6, the claim as stated fails.  The run of the instance above, with
    [T = 0.2]: the sweep of the first step diverges, and the run goes on to
    the second step and returns.  Everything it has written is the header and
    the empty line that ends each step. *)
Lemma newton_divergence_counterexample :
  sweep_exit (newton_loop (fe_one 1e9) (dof_handler_one 0.5) la_one n_max_iters 0
                (s_add residual_tolerance (s_of_Z 1)) (first_sweep_state 0.5 0.2 0.1))
    = Some (1000, 5.9604644775390625e-07%float)
  /\ newton_state 1000 5.9604644775390625e-07%float = DIVERGED
  /\ has_returned (main_one 1e9 0.5 0.2 0.1 5) = true
  /\ steps_of (fst (main_one 1e9 0.5 0.2 0.1 5)) = [(1%Z, 0.1%float); (2%Z, 0.2%float)]
  /\ lines_of (fst (main_one 1e9 0.5 0.2 0.1 5)) =
     ["==============================================="%string;
      "Applying the initial condition"%string;
      "-----------------------------------------------"%string;
      EmptyString; EmptyString].
Proof. repeat split; vm_compute; reflexivity. Qed.

(* ================================================================== *)
(** * The time loop and the snapshots *)
(* ================================================================== *)

(** The grid of [T = 1.0], [deltat = 0.1] in binary64: ten steps, and the
    guard fails at [0.99999999999999989 < 0.95]. *)
Lemma time_grid_ten (k : nat) :
  time_grid (F := float) (10 + k) 0%float 1%float 0.1%float 0 =
  (map (fun n => (Z.of_nat n, time_after n 0%float 0.1%float)) (seq 1 10), true).
Proof.
  rewrite time_grid_more by (vm_compute; reflexivity).
  vm_compute. reflexivity.
Qed.


(** The names of the snapshots: the frame index padded to four digits.  A
    fifth digit, at frame 10000, cannot be padded: the name is never built
    and [output] raises. *)
Lemma output_file_name_digits :
  output_file_name 0 = Some "output-0000"%string
  /\ output_file_name 5 = Some "output-0005"%string
  /\ output_file_name 9999 = Some "output-9999"%string
  /\ output_file_name 10000 = None
  /\ snapshot_fails 299970 9999 = false
  /\ snapshot_fails 300000 10000 = true.
Proof. repeat split; vm_compute; reflexivity. Qed.

(** C4 (amended).  The time step is never checked.  The constructor stores
    the time step it is given and [setup] keeps it (first part).  Whenever
    the guard of the time loop holds at time zero, [0 < T - 0.5 * deltat],
    the run enters its first step at time [0 + deltat], assembles the system
    with that time step and prints the norm of the residual, whatever the
    sign of [deltat] (second part); every state [solve] returns has the time
    step it started with (third part).  With the arguments of [main],
    [deltat = 0.1] is positive (fourth part). *)
Theorem time_step_is_not_validated
    (fe : FEValues float) (dh : DoFHandler float) (la : LinearAlgebra float)
    (N_ r_ : Z) (T_ deltat_ : float) (fuel : nat)
    (Hguard : PrimFloat.ltb 0 (PrimFloat.sub T_ (PrimFloat.mul 0.5 deltat_)) = true) :
  let problem := setup dh (HeatNonLinear_new N_ r_ T_ deltat_) in
  let s1 := begin_step (initial_condition dh la problem) in
  (deltat (HeatNonLinear_new N_ r_ T_ deltat_) = deltat_
   /\ deltat problem = deltat_ /\ deltat s1 = deltat_)
  /\ (exists rest,
        fst (solve fe dh la (S fuel) problem) =
        (header_events (ghost_assign la (interpolate_u_0 dh))
         ++ PcoutStep 1 (PrimFloat.add 0 deltat_)
            :: TimerEnter "Assemble system"%string :: TimerLeave
            :: PcoutNewton 0 n_max_iters
                 (l2_norm la (residual_vector (assemble_system fe dh la s1)))
            :: rest)%list)
  /\ returns (solve fe dh la (S fuel) problem) (fun s' => deltat s' = deltat_)
  /\ PrimFloat.ltb 0 0.1 = true.
Proof.
  intros problem s1.
  split; [repeat split | ].
  split; [ | split; [ | vm_compute; reflexivity]].
  - rewrite solve_eq. cbv zeta. cbn [fst].
    change (begin_step (initial_condition dh la problem)) with s1.
    assert (Hg : s_ltb (time (initial_condition dh la problem))
                   (s_sub (T (initial_condition dh la problem))
                      (s_mul s_half (deltat (initial_condition dh la problem)))) = true)
      by exact Hguard.
    assert (Hit : newton_state (F := float) 0 (s_add residual_tolerance (s_of_Z 1))
                  = ITERATING) by (vm_compute; reflexivity).
    destruct (first_pass_events fe dh la s1 Hit) as [rest Hrest].
    pose proof (solve_newton_finishes fe dh la s1) as Hfin.
    destruct (snd (solve_newton fe dh la s1)) as [s' | e | ] eqn:Hnewton.
    + rewrite (time_loop_step fe dh la fuel 0 1 (initial_condition dh la problem)
                 Hg Hnewton eq_refl).
      cbv zeta. cbn [fst]. change (begin_step (initial_condition dh la problem)) with s1.
      rewrite Hrest. eexists. reflexivity.
    + rewrite (time_loop_raised fe dh la fuel 0 1 (initial_condition dh la problem)
                 Hg Hnewton).
      cbn [fst]. change (begin_step (initial_condition dh la problem)) with s1.
      rewrite Hrest. eexists. reflexivity.
    + contradiction Hfin. reflexivity.
  - eapply returns_weaken; [apply solve_keeps_parameters | ].
    intros s' (_ & H & _). exact H.
Qed.

(** C4, an instance: the arguments of [main] on one cell. *)
Lemma time_step_witness :
  PrimFloat.ltb 0 (PrimFloat.sub 15 (PrimFloat.mul 0.5 0.1)) = true
  /\ deltat (first_sweep_state 0 15 0.1) = 0.1%float
  /\ returns (main_one 1 0 15 0.1 1) (fun s' => deltat s' = 0.1%float).
Proof.
  assert (H : PrimFloat.ltb 0 (PrimFloat.sub 15 (PrimFloat.mul 0.5 0.1)) = true)
    by (vm_compute; reflexivity).
  split; [exact H | ].
  pose proof (@time_step_is_not_validated (fe_one 1) (dof_handler_one 0) la_one
                19 1 15%float 0.1%float 0 H) as P.
  cbv zeta in P. destruct P as ((_ & _ & P1) & _ & P3 & _).
  split; [exact P1 | exact P3].
Defined.

(** C4, the claim as stated fails.  The constructor takes [deltat = -0.1]
    and [deltat = 0.0] as it takes any other value, and the run assembles the
    system with them: with [-0.1] the first step happens at time [-0.1]; with
    [0.0] the time does not advance, the residual is not a number and the
    sweep stops as if the tolerance were met. *)
Lemma time_step_counterexample :
  PrimFloat.leb (-0.1)%float 0%float = true
  /\ deltat (HeatNonLinear_new 19 1 15%float (-0.1)%float) = (-0.1)%float
  /\ main_one 1 0 15 (-0.1)%float 1 =
     ((header_events [0%float]
       ++ PcoutStep 1 (-0.1)%float
          :: converged_pass_events 0 0%float ++ [Pcout EmptyString])%list,
      Unfinished)
  /\ PrimFloat.leb 0%float 0%float = true
  /\ deltat (HeatNonLinear_new 19 1 15%float 0%float) = 0%float
  /\ main_one 1 0 15 0 1 =
     ((header_events [0%float]
       ++ PcoutStep 1 0%float
          :: converged_pass_events 0 nan ++ [Pcout EmptyString])%list,
      Unfinished).
Proof. repeat split; vm_compute; reflexivity. Qed.
(** C7 (amended).  The time loop.  A pass is entered exactly when
    [time < T - 0.5 * deltat] holds, and then advances the time by [deltat];
    otherwise the loop returns at once (first part).  In exact arithmetic the
    guard fails exactly when the remaining time [T - time] is at most half a
    step (second part).  Step [k] of a run happens at [0 + deltat + ... +
    deltat], [k] increments (third part).  For [T = 1.0] and [deltat = 0.1]
    in binary64, ten passes are enough for every collaborator: a run that
    returns has made exactly ten steps, a run the solver interrupts at most
    ten (fourth part); on one cell with a zero initial condition the run
    returns (fifth part). *)
Theorem time_loop_stopping_rule :
  (forall (F : Type) (SF : Scalar F) (fe : FEValues F) (dh : DoFHandler F)
          (la : LinearAlgebra F) (fuel : nat) (time_step tt : Z) (s : HeatNonLinear F),
     if s_ltb (time s) (s_sub (T s) (s_mul s_half (deltat s)))
     then exists rest,
            steps_of (fst (time_loop fe dh la (S fuel) time_step tt s)) =
            (uint_succ time_step, s_add (time s) (deltat s)) :: rest
     else time_loop fe dh la fuel time_step tt s = ret s)
  /\ (forall t T_ dt : R,
        s_ltb t (s_sub T_ (s_mul s_half dt)) = false <-> (T_ - t <= dt / 2)%R)
  /\ (forall (F : Type) (SF : Scalar F) (fe : FEValues F) (dh : DoFHandler F)
             (la : LinearAlgebra F) (fuel : nat) (s : HeatNonLinear F),
        returns (solve fe dh la fuel s) (fun _ =>
          map snd (steps_of (fst (solve fe dh la fuel s))) =
          map (fun k => time_after k (s_of_Z 0) (deltat s))
              (seq 1 (List.length (steps_of (fst (solve fe dh la fuel s)))))))
  /\ (forall (fe : FEValues float) (dh : DoFHandler float) (la : LinearAlgebra float)
             (N_ r_ : Z) (k : nat),
        let run := solve fe dh la (10 + k)
                     (setup dh (HeatNonLinear_new N_ r_ 1%float 0.1%float)) in
        match snd run with
        | Returned _ => List.length (steps_of (fst run)) = 10
        | Raised _ => List.length (steps_of (fst run)) <= 10
        | Unfinished => False
        end)
  /\ has_returned (main_one 1 0 1 0.1 10) = true.
Proof.
  split.
  { intros F SF fe dh la fuel time_step tt s.
    destruct (s_ltb (time s) (s_sub (T s) (s_mul s_half (deltat s)))) eqn:Hguard.
    - pose proof (solve_newton_finishes fe dh la (begin_step s)) as Hfin.
      destruct (snd (solve_newton fe dh la (begin_step s))) as [s' | e | ] eqn:Hnewton.
      + destruct (snapshot_fails (uint_succ time_step) tt) eqn:Hwrite.
        * rewrite (time_loop_output_raised fe dh la fuel time_step tt s
                     Hguard Hnewton Hwrite).
          simpl. eexists. reflexivity.
        * rewrite (time_loop_step fe dh la fuel time_step tt s Hguard Hnewton Hwrite).
          cbv zeta. simpl. eexists. reflexivity.
      + rewrite (time_loop_raised fe dh la fuel time_step tt s Hguard Hnewton).
        simpl. eexists. reflexivity.
      + contradiction Hfin. reflexivity.
    - apply time_loop_exit. exact Hguard. }
  split.
  { intros t T_ dt. simpl. rewrite Rltb_false. split; intros H; lra. }
  split.
  { intros F SF fe dh la fuel s. unfold returns.
    pose proof (solve_trace fe dh la fuel s) as H. cbv zeta in H.
    destruct (snd (solve fe dh la fuel s)); try exact I.
    destruct H as (H & _). rewrite H. apply time_grid_times. }
  split.
  { intros fe dh la N_ r_ k.
    pose proof (solve_trace fe dh la (10 + k)
                  (setup dh (HeatNonLinear_new N_ r_ 1%float 0.1%float))) as H.
    cbv zeta in H.
    change (time_grid (10 + k) _ _ _ 0)
      with (time_grid (F := float) (10 + k) 0%float 1%float 0.1%float 0) in H.
    rewrite time_grid_ten in H. cbv zeta.
    destruct (snd (solve fe dh la (10 + k) _)).
    - destruct H as (H & _). rewrite H. reflexivity.
    - destruct H as (entered & step & rest & H1 & H2 & _).
      rewrite H1. apply (f_equal (@List.length _)) in H2.
      rewrite !length_app in *. simpl in *. lia.
    - destruct H as (_ & H & _). discriminate H. }
  vm_compute. reflexivity.
Qed.

(** C7, the claim as stated fails.  With [T = 0.5] and [deltat = 1.0] the
    loop returns without a single step, and the remaining time [0.5 - 0] is
    not less than half a step, [0.5 * 1.0]: it is equal to it. *)
Lemma half_step_boundary_counterexample :
  fst (main_one 1 0 0.5 1 5) = header_events [0%float]
  /\ has_returned (main_one 1 0 0.5 1 5) = true
  /\ PrimFloat.ltb (PrimFloat.sub 0.5 0) (PrimFloat.mul 0.5 1) = false
  /\ PrimFloat.eqb (PrimFloat.sub 0.5 0) (PrimFloat.mul 0.5 1) = true.
Proof. vm_compute. repeat split. Qed.


(* ================================================================== *)
(** * Further properties: what the sweep and the time loop keep *)
(* ================================================================== *)

Section Invariants.

Context {F : Type} {SF : Scalar F}.
Variable fe : FEValues F.
Variable dh : DoFHandler F.
Variable la : LinearAlgebra F.

Lemma returns_ends {A : Type} (m : M F A) (Inv : A -> Prop) :
  returns m Inv -> ends Inv (fun _ => True) m.
Proof. unfold returns, ends. destruct (snd m); auto. Qed.

Lemma ends_returns {A : Type} (m : M F A) (Inv : A -> Prop) (Exc : Exception F -> Prop) :
  ends Inv Exc m -> returns m Inv.
Proof. unfold returns, ends. destruct (snd m); auto. Qed.

(** What the assembly and the update by an increment the solver returns
    keep, the sweep keeps. *)
Lemma solve_newton_invariant (Inv : HeatNonLinear F -> Prop) :
  (forall s, Inv s -> Inv (assemble_system fe dh la s)) ->
  (forall s delta last_step, Inv s ->
     solver_cg la 1000 (s_mul s_1em6 (l2_norm la (residual_vector s)))
       (jacobian_matrix s) (delta_owned s) (residual_vector s) =
     SolverSuccess delta last_step ->
     Inv (apply_increment la s delta)) ->
  forall s, Inv s -> returns (solve_newton fe dh la s) Inv.
Proof.
  intros Hassemble Hupdate.
  assert (Hloop : forall k n_iter residual_norm s, Inv s ->
            returns (newton_loop fe dh la k n_iter residual_norm s)
                    (fun x => Inv (fst (fst x)))).
  { induction k as [ | k IH]; intros n_iter residual_norm s Hs.
    - simpl. destruct (_ && _); [exact I | exact Hs].
    - rewrite newton_loop_S. destruct (_ && _); [ | exact Hs].
      eapply returns_bind with (Q := fun it => Inv (fst it)).
      + rewrite newton_iteration_eq. cbv zeta.
        destruct (s_ltb _ _).
        * destruct (solver_cg la 1000 _ _ _ _) as [delta last_step | last_step res] eqn:Hcg.
          -- apply (Hupdate _ delta last_step); [apply Hassemble; exact Hs | exact Hcg].
          -- exact I.
        * apply Hassemble. exact Hs.
      + intros it Hit. apply IH. exact Hit. }
  intros s Hs. unfold solve_newton.
  eapply returns_bind; [apply Hloop; exact Hs | ].
  intros x Hx. exact Hx.
Qed.

(** What every sweep keeps and shows, the time loop keeps and shows. *)
Lemma time_loop_invariant (Inv : HeatNonLinear F -> Prop) (Q : Event F -> Prop)
    (Exc : Exception F -> Prop) :
  (forall s, Inv s ->
     Forall Q (fst (solve_newton fe dh la (begin_step s)))
     /\ ends Inv Exc (solve_newton fe dh la (begin_step s))) ->
  (forall time_step time, Q (PcoutStep time_step time)) ->
  (forall time_step tt s, Inv s -> Forall Q (writing_events time_step tt s)) ->
  Q (Pcout EmptyString) ->
  Exc LengthError ->
  forall (fuel : nat) (time_step tt : Z) (s : HeatNonLinear F),
  Inv s ->
  Forall Q (fst (time_loop fe dh la fuel time_step tt s))
  /\ ends Inv Exc (time_loop fe dh la fuel time_step tt s).
Proof.
  intros Hnewton Hstep Hwriting Hline Hlength.
  induction fuel as [ | fuel IH]; intros time_step tt s Hs;
    destruct (s_ltb (time s) (s_sub (T s) (s_mul s_half (deltat s)))) eqn:Hguard.
  - rewrite (time_loop_out_of_fuel _ _ _ _ _ _ Hguard). split; [constructor | exact I].
  - rewrite (time_loop_exit _ _ _ _ _ _ _ Hguard). split; [constructor | exact Hs].
  - destruct (Hnewton s Hs) as [Hq Hi]. unfold ends in Hi.
    destruct (snd (solve_newton fe dh la (begin_step s))) as [s' | e | ] eqn:Hsweep.
    + destruct (snapshot_fails (uint_succ time_step) tt) eqn:Hwrite.
      * rewrite (time_loop_output_raised fe dh la fuel time_step tt s Hguard Hsweep Hwrite).
        split; [ | exact Hlength]. cbn [fst]. constructor; [apply Hstep | ].
        apply Forall_app. split; [exact Hq | apply Hwriting; exact Hi].
      * rewrite (time_loop_step fe dh la fuel time_step tt s Hguard Hsweep Hwrite).
        cbv zeta.
        destruct (IH (uint_succ time_step) (next_frame (uint_succ time_step) tt) s' Hi)
          as [IH1 IH2].
        split; [ | exact IH2]. cbn [fst]. constructor; [apply Hstep | ].
        apply Forall_app. split; [exact Hq | ].
        apply Forall_app. split; [apply Hwriting; exact Hi | ].
        constructor; [exact Hline | exact IH1].
    + rewrite (time_loop_raised fe dh la fuel time_step tt s Hguard Hsweep).
      split; [ | exact Hi]. cbn [fst]. constructor; [apply Hstep | exact Hq].
    + pose proof (solve_newton_finishes fe dh la (begin_step s)) as Hfin.
      contradiction Hfin.
  - rewrite (time_loop_exit _ _ _ _ _ _ _ Hguard). split; [constructor | exact Hs].
Qed.

(** The same for [solve], from the state the initial condition gives. *)
Lemma solve_invariant (Inv : HeatNonLinear F -> Prop) (Q : Event F -> Prop)
    (Exc : Exception F -> Prop) :
  (forall s, Inv s ->
     Forall Q (fst (solve_newton fe dh la (begin_step s)))
     /\ ends Inv Exc (solve_newton fe dh la (begin_step s))) ->
  (forall time_step time, Q (PcoutStep time_step time)) ->
  (forall time_step tt s, Inv s -> Forall Q (writing_events time_step tt s)) ->
  (forall line, Q (Pcout line)) ->
  Q (TimerEnter "Writing"%string) -> Q TimerLeave ->
  Exc LengthError ->
  forall (fuel : nat) (s : HeatNonLinear F),
  Inv (initial_condition dh la s) ->
  Q (Output 0 "output-0000"%string (s_of_Z 0) (solution (initial_condition dh la s))) ->
  Forall Q (fst (solve fe dh la fuel s))
  /\ ends Inv Exc (solve fe dh la fuel s).
Proof.
  intros Hnewton Hstep Hwriting Hline Henter Hleave Hlength fuel s Hs Hout.
  rewrite solve_eq. cbv zeta.
  destruct (@time_loop_invariant Inv Q Exc Hnewton Hstep Hwriting (Hline EmptyString)
              Hlength fuel 0%Z 1%Z (initial_condition dh la s) Hs) as [H1 H2].
  split; [ | exact H2].
  cbn [fst]. apply Forall_app. split; [ | exact H1].
  unfold header_events. repeat constructor; auto.
Qed.

(** A sweep shows no snapshot: what holds of every other event holds of its
    events. *)
Lemma solve_newton_shows_no_snapshot (Q : Event F -> Prop) (s : HeatNonLinear F) :
  (forall e, newton_event e -> Q e) ->
  Forall Q (fst (solve_newton fe dh la s)).
Proof.
  intros HQ. eapply Forall_impl; [exact HQ | apply solve_newton_events].
Qed.

End Invariants.

(* ================================================================== *)
(** * Further properties: the subsections of the timer *)
(* ================================================================== *)

Section Timer.

Context {F : Type} {SF : Scalar F}.
Variable fe : FEValues F.
Variable dh : DoFHandler F.
Variable la : LinearAlgebra F.

Lemma timer_sections_app (a b : list (Event F)) (open : list string) :
  timer_sections (a ++ b) open =
  match timer_sections a open with
  | Some open' => timer_sections b open'
  | None => None
  end.
Proof.
  revert open. induction a as [ | e a IH]; intros open; [reflexivity | ].
  destruct e; simpl; try apply IH.
  destruct open; [reflexivity | apply IH].
Qed.

Lemma closes_bind {A B : Type} (m : M F A) (k : A -> M F B) :
  closes m -> (forall a, snd m = Returned a -> closes (k a)) -> closes (bind m k).
Proof.
  unfold closes. destruct m as [events [a | e | ]]; simpl; intros Hm Hk; try exact Hm.
  specialize (Hk a eq_refl). destruct (k a) as [events' outcome']. simpl in *.
  rewrite timer_sections_app, Hm. exact Hk.
Qed.

Lemma newton_iteration_closes (s : HeatNonLinear F) (n_iter : nat) :
  closes (newton_iteration fe dh la s n_iter).
Proof.
  rewrite newton_iteration_eq. cbv zeta.
  destruct (s_ltb _ _); [destruct (solver_cg la 1000 _ _ _ _) | ]; reflexivity.
Qed.

Lemma newton_loop_closes (k n_iter : nat) (residual_norm : F) (s : HeatNonLinear F) :
  closes (newton_loop fe dh la k n_iter residual_norm s).
Proof.
  revert n_iter residual_norm s.
  induction k as [ | k IH]; intros n_iter residual_norm s; simpl.
  - destruct (_ && _); reflexivity.
  - destruct (_ && _); [ | reflexivity].
    apply closes_bind; [apply newton_iteration_closes | ].
    intros it _. apply IH.
Qed.

Lemma solve_newton_closes (s : HeatNonLinear F) :
  closes (solve_newton fe dh la s).
Proof.
  unfold solve_newton. apply closes_bind; [apply newton_loop_closes | ].
  intros x _. reflexivity.
Qed.

Lemma writing_events_close (time_step tt : Z) (s : HeatNonLinear F) :
  timer_sections (writing_events time_step tt s) [] =
  Some (if snapshot_fails time_step tt then ["Writing"%string] else []).
Proof.
  unfold writing_events, snapshot_fails.
  destruct (_ =? _)%Z; [ | reflexivity].
  destruct (output_file_name tt); reflexivity.
Qed.

Lemma time_loop_closes (fuel : nat) :
  forall (time_step tt : Z) (s : HeatNonLinear F),
  closes (time_loop fe dh la fuel time_step tt s).
Proof.
  induction fuel as [ | fuel IH]; intros time_step tt s;
    destruct (s_ltb (time s) (s_sub (T s) (s_mul s_half (deltat s)))) eqn:Hguard.
  - rewrite (time_loop_out_of_fuel _ _ _ _ _ _ Hguard). reflexivity.
  - rewrite (time_loop_exit _ _ _ _ _ _ _ Hguard). reflexivity.
  - pose proof (solve_newton_closes (begin_step s)) as Hn.
    pose proof (solve_newton_finishes fe dh la (begin_step s)) as Hfin.
    unfold closes in *.
    destruct (snd (solve_newton fe dh la (begin_step s))) as [s' | e | ] eqn:Hnewton.
    + destruct (snapshot_fails (uint_succ time_step) tt) eqn:Hwrite.
      * rewrite (time_loop_output_raised fe dh la fuel time_step tt s Hguard Hnewton Hwrite).
        cbn [fst snd timer_sections].
        rewrite timer_sections_app, Hn. cbn [sections_left].
        rewrite writing_events_close, Hwrite. reflexivity.
      * rewrite (time_loop_step fe dh la fuel time_step tt s Hguard Hnewton Hwrite).
        cbv zeta. cbn [fst snd timer_sections].
        rewrite timer_sections_app, Hn. cbn [sections_left].
        rewrite timer_sections_app, writing_events_close, Hwrite.
        cbn [timer_sections]. apply IH.
    + rewrite (time_loop_raised fe dh la fuel time_step tt s Hguard Hnewton).
      cbn [fst snd timer_sections]. exact Hn.
    + contradiction Hfin. reflexivity.
  - rewrite (time_loop_exit _ _ _ _ _ _ _ Hguard). reflexivity.
Qed.

End Timer.

(** X1.  The subsections of the timer.  In every run of [solve], whatever
    the collaborators, every [leave_subsection] closes a subsection that is
    open.  A run that returns has closed every subsection it opened.  A run
    left by an exception leaves exactly one open: ["Solve system"] when the
    solver raised [NoConvergence], ["Writing"] when the file name could not
    be built. *)
Theorem timer_subsections_are_closed
    (F : Type) (SF : Scalar F) (fe : FEValues F) (dh : DoFHandler F)
    (la : LinearAlgebra F) (fuel : nat) (s : HeatNonLinear F) :
  let run := solve fe dh la fuel s in
  timer_sections (fst run) [] =
  Some match snd run with
       | Raised (NoConvergence _ _) => ["Solve system"%string]
       | Raised LengthError => ["Writing"%string]
       | _ => []
       end.
Proof.
  cbv zeta. rewrite solve_eq. cbv zeta. cbn [fst snd].
  rewrite timer_sections_app.
  change (timer_sections (header_events _) []) with (Some (@nil string)).
  cbv beta iota.
  pose proof (time_loop_closes fe dh la fuel 0 1 (initial_condition dh la s)) as H.
  unfold closes in H. rewrite H.
  destruct (snd (time_loop fe dh la fuel 0 1 _)) as [s' | [k r | ] | ]; reflexivity.
Qed.

(* ================================================================== *)
(** * Further properties: the work and the exit of a Newton sweep *)
(* ================================================================== *)

Section SweepWork.

Context {F : Type} {SF : Scalar F}.
Variable fe : FEValues F.
Variable dh : DoFHandler F.
Variable la : LinearAlgebra F.

Lemma newton_lines_app (a b : list (Event F)) :
  newton_lines (a ++ b) = (newton_lines a ++ newton_lines b)%list.
Proof.
  induction a as [ | e a IH]; [reflexivity | ].
  destruct e; simpl; rewrite IH; reflexivity.
Qed.

Lemma entered_app (name : string) (a b : list (Event F)) :
  entered name (a ++ b) = entered name a + entered name b.
Proof.
  induction a as [ | e a IH]; [reflexivity | ].
  destruct e; simpl; try exact IH.
  destruct (String.eqb name name0); simpl; rewrite IH; reflexivity.
Qed.

(** The passes of a sweep: their lines are numbered from [n_iter] on, each
    pass assembles once and solves at most once, and the counter never
    passes [n_max_iters]. *)
Lemma newton_loop_work (k : nat) :
  forall (n_iter : nat) (residual_norm : F) (s : HeatNonLinear F),
  n_iter <= n_max_iters ->
  let run := newton_loop fe dh la k n_iter residual_norm s in
  exists passes,
    n_iter + passes <= n_max_iters
    /\ newton_lines (fst run) = seq n_iter passes
    /\ entered "Assemble system" (fst run) = passes
    /\ entered "Solve system" (fst run) <= passes
    /\ (newton_state n_iter residual_norm = ITERATING -> 0 < k -> 0 < passes).
Proof.
  induction k as [ | k IH]; intros n_iter residual_norm s Hn; cbv zeta.
  - exists 0. simpl. destruct (_ && _); simpl; repeat split; try lia.
  - rewrite newton_loop_S. destruct (_ && _) eqn:Hguard.
    + assert (Hlt : n_iter < n_max_iters).
      { apply andb_true_iff in Hguard. apply Nat.ltb_lt. tauto. }
      rewrite newton_iteration_eq. cbv zeta.
      remember (assemble_system fe dh la s) as s1 eqn:Hs1.
      remember (l2_norm la (residual_vector s1)) as norm1 eqn:Hnorm1.
      destruct (s_ltb residual_tolerance norm1) eqn:Hgt.
      * destruct (solver_cg la 1000 _ _ _ _) as [delta last_step | last_step res].
        -- rewrite bind_returned with (a := (apply_increment la s1 delta, norm1))
             by reflexivity.
           cbn [fst snd].
           destruct (IH (S n_iter) norm1 (apply_increment la s1 delta) Hlt)
             as (passes & H1 & H2 & H3 & H4 & _).
           exists (S passes).
           rewrite newton_lines_app, !entered_app, H2, H3.
           repeat split; simpl; lia.
        -- rewrite bind_raised with (e := NoConvergence last_step res) by reflexivity.
           exists 1. simpl. repeat split; lia.
      * rewrite bind_returned with (a := (s1, norm1)) by reflexivity.
        cbn [fst snd].
        rewrite newton_loop_exit by (rewrite Hgt; apply andb_false_r).
        exists 1. simpl. repeat split; lia.
    + exists 0. simpl. repeat split; try lia.
      intros Hit. apply iterating_guard in Hit. congruence.
Qed.


Lemma Vector_pluseq_length (a b : Vector F) :
  List.length (Vector_pluseq a b) = List.length a.
Proof.
  revert b. induction a as [ | x a IH]; intros b; [reflexivity | ].
  destruct b as [ | y b]; [reflexivity | ]. simpl. rewrite IH. reflexivity.
Qed.

End SweepWork.

(** X2.  The work of a Newton sweep.  Whatever the collaborators, a call of
    [solve_newton] prints the lines ["Newton iteration n/1000"] for
    [n = 0, 1, ..., passes - 1] with [passes <= 1000], assembles the system
    exactly [passes] times and calls the linear solver at most [passes]
    times (first part).  It makes at least one pass when [1e-10 + 1 > 1e-10]
    holds, which it does in binary64 (second part) and in exact arithmetic
    (third part): every time step assembles at least once. *)
Theorem newton_sweep_work :
  (forall (F : Type) (SF : Scalar F) (fe : FEValues F) (dh : DoFHandler F)
          (la : LinearAlgebra F) (s : HeatNonLinear F),
     let run := solve_newton fe dh la s in
     exists passes,
       passes <= 1000
       /\ newton_lines (fst run) = seq 0 passes
       /\ entered "Assemble system" (fst run) = passes
       /\ entered "Solve system" (fst run) <= passes
       /\ (newton_state 0 (s_add residual_tolerance (s_of_Z 1)) = ITERATING ->
           1 <= passes))
  /\ newton_state (F := float) 0 (s_add residual_tolerance (s_of_Z 1)) = ITERATING
  /\ newton_state (F := R) 0 (s_add residual_tolerance (s_of_Z 1)) = ITERATING.
Proof.
  split; [ | split].
  - intros F SF fe dh la s. cbv zeta.
    rewrite (proj1 (solve_newton_eq fe dh la s)).
    assert (H0 : 0 <= n_max_iters) by lia.
    destruct (newton_loop_work fe dh la n_max_iters
                (s_add residual_tolerance (s_of_Z 1)) s H0)
      as (passes & H1 & H2 & H3 & H4 & H5).
    exists passes. unfold n_max_iters in H1.
    repeat split; try assumption; try lia.
    intros Hit. apply H5; [exact Hit | unfold n_max_iters; lia].
  - vm_compute. reflexivity.
  - assert (H : s_ltb (F := R) residual_tolerance
                  (s_add residual_tolerance (s_of_Z 1)) = true).
    { apply Rltb_true. unfold residual_tolerance. simpl. lra. }
    unfold newton_state. rewrite H. reflexivity.
Qed.



(** X4.  The ghosted solution never lags behind.  Whatever the
    collaborators and whatever the object held, a run of [solve] that
    returns leaves [solution] equal to the ghost assignment of
    [solution_owned]: every update of the owned vector (the initial
    condition, each increment) is followed by [solution = solution_owned]
    before anything reads the ghosted vector. *)
Theorem solution_stays_synchronised
    (F : Type) (SF : Scalar F) (fe : FEValues F) (dh : DoFHandler F)
    (la : LinearAlgebra F) (fuel : nat) (s : HeatNonLinear F) :
  returns (solve fe dh la fuel s) (synchronised la).
Proof.
  apply ends_returns with (Exc := fun _ => True).
  apply (@solve_invariant F SF fe dh la (synchronised la) (fun _ => True) (fun _ => True));
    try (intros; exact I).
  - intros s' Hs'. split; [apply Forall_forall; intros; exact I | ].
    apply returns_ends. apply solve_newton_invariant.
    + intros s1 Hs1. exact Hs1.
    + intros s1 delta last_step _ _. reflexivity.
    + exact Hs'.
  - intros. apply Forall_forall. intros; exact I.
  - reflexivity.
Qed.

(** X5.  The containers keep their size.  When the interpolant of the
    initial condition has one entry per DoF, the ghost assignment keeps the
    length of a vector and the solver returns an increment of [n_dofs]
    entries for a starting vector of [n_dofs] entries, then after [setup]
    every snapshot a run writes has [n_dofs] entries, and a run that returns
    leaves the increment and the three solution vectors with [n_dofs]
    entries: [solution_owned += delta_owned] always adds vectors of equal
    length. *)
Theorem containers_keep_their_size
    (F : Type) (SF : Scalar F) (fe : FEValues F) (dh : DoFHandler F)
    (la : LinearAlgebra F) (fuel : nat) (s : HeatNonLinear F)
    (Hu0 : List.length (interpolate_u_0 dh) = n_dofs dh)
    (Hghost : forall v, List.length (ghost_assign la v) = List.length v)
    (Hsolver : forall max_steps tolerance A x b delta last_step,
       List.length x = n_dofs dh ->
       solver_cg la max_steps tolerance A x b = SolverSuccess delta last_step ->
       List.length delta = n_dofs dh) :
  let run := solve fe dh la fuel (setup dh s) in
  Forall (sized_event (n_dofs dh)) (fst run)
  /\ returns run (sized (n_dofs dh)).
Proof.
  cbv zeta.
  destruct (@solve_invariant F SF fe dh la (sized (n_dofs dh)) (sized_event (n_dofs dh))
              (fun _ => True)) with (fuel := fuel) (s := setup dh s) as [H1 H2].
  - intros s' (Hd & Ho & Hs & Hold). split.
    + apply solve_newton_shows_no_snapshot.
      intros e He. destruct e; simpl in *; try exact I. contradiction.
    + apply returns_ends. apply solve_newton_invariant.
      * intros s1 Hs1. exact Hs1.
      * intros s1 delta last_step (Hd1 & Ho1 & Hs1 & Hold1) Hcg.
        unfold sized. simpl. rewrite Hghost, Vector_pluseq_length.
        repeat split; try assumption.
        apply (Hsolver _ _ _ _ _ _ _ Hd1 Hcg).
      * unfold sized. simpl. repeat split; assumption.
  - intros; exact I.
  - intros time_step tt s' (_ & _ & Hs & _). unfold writing_events.
    destruct (_ =? _)%Z; [ | constructor].
    destruct (output_file_name tt); repeat constructor. exact Hs.
  - intros; exact I.
  - exact I.
  - exact I.
  - exact I.
  - unfold sized. simpl. rewrite Hghost, Hu0.
    unfold Vector_zero. rewrite !repeat_length. repeat split.
  - simpl. rewrite Hghost. exact Hu0.
  - split; [exact H1 | ]. apply ends_returns with (Exc := fun _ => True). exact H2.
Qed.

(** X5, an instance: two steps on one cell, in binary64. *)
Lemma containers_keep_their_size_witness :
  let run := main_one 1 0.5 0.2 0.1 2 in
  Forall (sized_event 1) (fst run) /\ returns run (sized 1).
Proof.
  assert (Hu0 : List.length (interpolate_u_0 (dof_handler_one 0.5)) =
                n_dofs (dof_handler_one 0.5)) by reflexivity.
  assert (Hghost : forall v : Vector float,
            List.length (ghost_assign la_one v) = List.length v) by reflexivity.
  assert (Hsolver : forall max_steps tolerance A x b delta last_step,
            List.length x = n_dofs (dof_handler_one 0.5) ->
            solver_cg la_one max_steps tolerance A x b = SolverSuccess delta last_step ->
            List.length delta = n_dofs (dof_handler_one 0.5)).
  { intros max_steps tolerance A x b delta last_step _. simpl. unfold solver_one.
    destruct (PrimFloat.leb _ _); [ | discriminate].
    intros H. injection H as <- _. reflexivity. }
  exact (@containers_keep_their_size float ScalarFloat (fe_one 1) (dof_handler_one 0.5)
           la_one 2 (HeatNonLinear_new 19 1 0.2%float 0.1%float) Hu0 Hghost Hsolver).
Defined.

(* ================================================================== *)
(** * Further properties: the names of the snapshots *)
(* ================================================================== *)

(** Every frame from 0 to 9999 gets a name of eleven characters that carries
    it: checked frame by frame. *)
Lemma names_frame_all :
  forallb names_frame (map Z.of_nat (seq 0 (Z.to_nat 10000))) = true.
Proof. vm_compute. reflexivity. Qed.

Lemma names_frame_below (n : Z) :
  (0 <= n <= 9999)%Z -> names_frame n = true.
Proof.
  intros Hn. pose proof names_frame_all as H.
  rewrite forallb_forall in H. apply H.
  apply in_map_iff. exists (Z.to_nat n). split; [lia | ].
  apply in_seq. lia.
Qed.

(** A number is below ten to the number of its digits. *)
Lemma of_lu_lt (d : Decimal.uint) :
  (DecimalPos.Unsigned.of_lu d < 10 ^ N.of_nat (Decimal.nb_digits d))%N.
Proof.
  induction d; cbn [DecimalPos.Unsigned.of_lu Decimal.nb_digits];
    try (rewrite Nnat.Nat2N.inj_succ, N.pow_succ_r by lia);
    try (simpl; lia); lia.
Qed.

Lemma string_of_uint_length (d : Decimal.uint) :
  String.length (NilEmpty.string_of_uint d) = Decimal.nb_digits d.
Proof. induction d; simpl; congruence. Qed.

Lemma to_string_length (n : Z) :
  (Z.to_N n < 10 ^ N.of_nat (String.length (to_string n)))%N.
Proof.
  unfold to_string. set (d := N.to_uint (Z.to_N n)).
  assert (Hv : N.of_uint d = Z.to_N n) by apply DecimalN.Unsigned.of_to.
  rewrite <- Hv. unfold N.of_uint. rewrite DecimalPos.Unsigned.of_uint_alt.
  destruct d eqn:Hd; try (cbn [NilZero.string_of_uint]; rewrite <- Hd;
    rewrite string_of_uint_length, <- DecimalFacts.nb_digits_rev; apply of_lu_lt).
  simpl. lia.
Qed.

(** From frame 10000 on the index has more than four digits. *)
Lemma output_file_name_too_long (n : Z) :
  (10000 <= n)%Z -> output_file_name n = None.
Proof.
  intros Hn. unfold output_file_name. cbv zeta.
  destruct (String.length (to_string n) <=? 4)%nat eqn:Hlen; [ | reflexivity].
  exfalso. apply Nat.leb_le in Hlen.
  pose proof (to_string_length n) as H.
  assert (10 ^ N.of_nat (String.length (to_string n)) <= 10 ^ 4)%N
    by (apply N.pow_le_mono_r; lia).
  lia.
Qed.

Lemma output_file_name_frame (n : Z) (name : string) :
  (0 <= n)%Z -> output_file_name n = Some name ->
  String.length name = 11 /\ frame_of_file_name name = Some n.
Proof.
  intros Hn Hname.
  assert (Hlt : (n <= 9999)%Z).
  { destruct (Z_le_gt_dec 10000 n) as [Hge | Hlt]; [ | lia].
    rewrite (output_file_name_too_long Hge) in Hname. discriminate. }
  pose proof (names_frame_below (conj Hn Hlt)) as H.
  unfold names_frame in H. rewrite Hname in H.
  apply andb_true_iff in H. destruct H as [H1 H2].
  apply Nat.eqb_eq in H1. split; [exact H1 | ].
  destruct (frame_of_file_name name) as [m | ]; [ | discriminate].
  apply Z.eqb_eq in H2. congruence.
Qed.

Lemma output_file_name_inj (n m : Z) :
  (0 <= n)%Z -> (0 <= m)%Z -> output_file_name n <> None ->
  output_file_name n = output_file_name m -> n = m.
Proof.
  intros Hn Hm Hsome Heq.
  destruct (output_file_name n) as [name | ] eqn:Hname; [ | contradiction Hsome; reflexivity].
  symmetry in Heq.
  destruct (output_file_name_frame Hn Hname) as [_ H1].
  destruct (output_file_name_frame Hm Heq) as [_ H2].
  congruence.
Qed.

(** X6.  The names of the files.  For a frame index [n] from 0 to 9999,
    [output] builds a name of eleven characters, ["output-"] and four
    digits, from which [n] can be read back (first part); from 10000 on no
    name is built, the padding count [4 - size] having wrapped, and [output]
    raises [std::length_error] (second part).  Two frame indices that get
    the same name are equal (third part). *)
Theorem output_file_name_spec (n m : Z) :
  ((0 <= n <= 9999)%Z ->
   exists name, output_file_name n = Some name
                /\ String.length name = 11
                /\ frame_of_file_name name = Some n)
  /\ ((10000 <= n)%Z -> output_file_name n = None)
  /\ ((0 <= n)%Z -> (0 <= m)%Z -> output_file_name n <> None ->
      output_file_name n = output_file_name m -> n = m).
Proof.
  split; [ | split].
  - intros Hn. pose proof (names_frame_below Hn) as H. unfold names_frame in H.
    destruct (output_file_name n) as [name | ] eqn:Hname; [ | discriminate].
    exists name. split; [reflexivity | ].
    apply output_file_name_frame; [lia | exact Hname].
  - apply output_file_name_too_long.
  - apply output_file_name_inj.
Qed.

Section Files.

Context {F : Type} {SF : Scalar F}.
Variable fe : FEValues F.
Variable dh : DoFHandler F.
Variable la : LinearAlgebra F.

(** Every snapshot of a run carries the name of its frame. *)
Lemma solve_well_named (fuel : nat) (s : HeatNonLinear F) :
  Forall well_named (fst (solve fe dh la fuel s)).
Proof.
  apply (@solve_invariant F SF fe dh la (fun _ => True) well_named (fun _ => True));
    try (intros; exact I).
  - intros s' _. split; [ | apply returns_ends; unfold returns; destruct (snd _); exact I].
    apply solve_newton_shows_no_snapshot.
    intros e He. destruct e; simpl in *; try exact I. contradiction.
  - intros time_step tt s' _. unfold writing_events.
    destruct (_ =? _)%Z; [ | constructor].
    destruct (output_file_name tt) as [name | ] eqn:Hname; repeat constructor.
    exact Hname.
  - reflexivity.
Qed.

Lemma files_of_frames (events : list (Event F)) :
  Forall well_named events ->
  map Some (files_of events) = map output_file_name (map fst (snapshots_of events)).
Proof.
  induction 1 as [ | e events He _ IH]; [reflexivity | ].
  destruct e; simpl in *; try exact IH.
  rewrite He, IH. reflexivity.
Qed.

(** The frames of the snapshots that are due and can be named go up one by
    one. *)
Lemma snapshots_due_frames (steps : list (Z * F)) :
  forall frame : Z,
  (0 <= frame)%Z ->
  Forall (fun g => output_file_name g <> None) (map fst (snapshots_due steps frame)) ->
  Forall (fun g => (frame <= g)%Z) (map fst (snapshots_due steps frame))
  /\ NoDup (map fst (snapshots_due steps frame)).
Proof.
  induction steps as [ | [time_step time] steps IH]; intros frame Hframe Hnamed.
  - split; constructor.
  - cbn [snapshots_due] in *. destruct (time_step mod 30 =? 0)%Z.
    + cbn [map fst] in *. inversion Hnamed as [ | g l Hg Hl]; subst.
      assert (Hlt : (frame < 10000)%Z).
      { destruct (Z_le_gt_dec 10000 frame) as [Hge | Hlt]; [ | lia].
        contradiction Hg. apply output_file_name_too_long. exact Hge. }
      assert (Hsucc : uint_succ frame = (frame + 1)%Z).
      { unfold uint_succ. apply Z.mod_small. lia. }
      rewrite Hsucc in *.
      assert (Hnext : (0 <= frame + 1)%Z) by lia.
      destruct (IH (frame + 1)%Z Hnext Hl) as [IH1 IH2].
      split.
      * constructor; [lia | ]. eapply Forall_impl; [ | exact IH1].
        simpl. intros; lia.
      * constructor; [ | exact IH2].
        intros Hin. rewrite Forall_forall in IH1. specialize (IH1 _ Hin). lia.
    + apply IH; assumption.
Qed.

End Files.

Lemma named_frames_NoDup (frames : list Z) :
  Forall (fun g => (0 <= g)%Z) frames ->
  Forall (fun g => output_file_name g <> None) frames ->
  NoDup frames ->
  NoDup (map output_file_name frames).
Proof.
  induction frames as [ | g frames IH]; intros Hpos Hsome Hnodup; [constructor | ].
  inversion Hpos as [ | g1 l1 Hg1 Hl1]; subst.
  inversion Hsome as [ | g2 l2 Hg2 Hl2]; subst.
  inversion Hnodup as [ | g3 l3 Hnotin Hrest]; subst.
  cbn [map]. constructor; [ | apply IH; assumption].
  intros Hin. apply in_map_iff in Hin. destruct Hin as (h & Hh & Hhin).
  apply Hnotin. rewrite Forall_forall in Hl1.
  rewrite (@output_file_name_inj g h Hg1 (Hl1 _ Hhin) Hg2 (eq_sym Hh)). exact Hhin.
Qed.

(** X7.  No snapshot is overwritten.  In every run of [solve], whatever the
    collaborators and however long it runs, the names of the files it writes
    are pairwise different: the frame index goes up by one at each snapshot
    and the run is stopped by [std::length_error] before an index could
    need a fifth digit or wrap. *)
Theorem snapshots_are_never_overwritten
    (F : Type) (SF : Scalar F) (fe : FEValues F) (dh : DoFHandler F)
    (la : LinearAlgebra F) (fuel : nat) (s : HeatNonLinear F) :
  NoDup (files_of (fst (solve fe dh la fuel s))).
Proof.
  pose proof (solve_well_named fe dh la fuel s) as Hnamed.
  pose proof (files_of_frames Hnamed) as Hfiles.
  assert (Hsome : Forall (fun g => output_file_name g <> None)
                    (map fst (snapshots_of (fst (solve fe dh la fuel s))))).
  { apply Forall_forall. intros g Hg Hnone.
    apply (in_map output_file_name) in Hg. rewrite <- Hfiles, Hnone in Hg.
    apply in_map_iff in Hg. destruct Hg as (x & Hx & _). discriminate. }
  assert (Hframes : exists steps : list (Z * F),
            map fst (snapshots_of (fst (solve fe dh la fuel s))) =
            0%Z :: map fst (snapshots_due steps 1)).
  { pose proof (solve_trace fe dh la fuel s) as H. cbv zeta in H.
    destruct (snd (solve fe dh la fuel s)).
    - destruct H as (_ & _ & H). rewrite H. eexists. reflexivity.
    - destruct H as (entered & step & rest & _ & _ & H). rewrite H.
      eexists. reflexivity.
    - destruct H as (_ & _ & H). rewrite H. eexists. reflexivity. }
  destruct Hframes as [steps Hframes]. rewrite Hframes in Hsome, Hfiles.
  inversion Hsome as [ | g l _ Hl]; subst.
  assert (H1 : (0 <= 1)%Z) by lia.
  destruct (snapshots_due_frames steps H1 Hl) as [Hge Hnodup].
  apply (NoDup_map_inv Some). rewrite Hfiles.
  apply named_frames_NoDup.
  - constructor; [lia | ]. eapply Forall_impl; [ | exact Hge]. simpl. intros; lia.
  - exact Hsome.
  - constructor; [ | exact Hnodup].
    intros Hin. rewrite Forall_forall in Hge. specialize (Hge _ Hin). lia.
Qed.

(* ================================================================== *)
(** * Further properties: what [solve] reads of the object *)
(* ================================================================== *)

Section Reads.

Context {F : Type} {SF : Scalar F}.
Variable fe : FEValues F.
Variable dh : DoFHandler F.
Variable la : LinearAlgebra F.






End Reads.



(* ================================================================== *)
(** * Further properties: a residual that is not a number *)
(* ================================================================== *)

(** X18.  A residual norm that is not a number.  In binary64, when the norm
    of the residual assembled in the first pass of a sweep is a NaN,
    [solve_newton] prints that norm followed by [" < tolerance"], calls no
    solver and returns after this one pass, the solution vectors unchanged:
    both [residual_norm > residual_tolerance] tests are false on a NaN, and
    the sweep ends as if it had converged. *)
Theorem nan_residual_passes_for_convergence
    (fe : FEValues float) (dh : DoFHandler float) (la : LinearAlgebra float)
    (s : HeatNonLinear float)
    (Hnan : l2_norm la (residual_vector (assemble_system fe dh la s)) = nan) :
  solve_newton fe dh la s =
    (converged_pass_events 0 nan, Returned (assemble_system fe dh la s))
  /\ solution_owned (assemble_system fe dh la s) = solution_owned s
  /\ solution (assemble_system fe dh la s) = solution s.
Proof.
  split; [ | split; reflexivity].
  unfold solve_newton. change n_max_iters with (S 999) at 1.
  rewrite newton_loop_S.
  replace ((0 <? n_max_iters) && s_ltb (F := float) residual_tolerance
             (s_add residual_tolerance (s_of_Z 1))) with true
    by (vm_compute; reflexivity).
  rewrite (proj2 (nan_norm_is_taken_for_convergence fe dh la s 0 Hnan)).
  rewrite bind_returned with (a := (assemble_system fe dh la s, nan)) by reflexivity.
  cbn [fst snd].
  rewrite newton_loop_exit.
  - reflexivity.
  - apply andb_false_iff. right. vm_compute. reflexivity.
Qed.

(** X18, an instance: the first sweep on one cell with [deltat = 0], where
    the residual is [0 / 0]. *)
Lemma nan_residual_passes_for_convergence_witness :
  l2_norm la_one
    (residual_vector (assemble_system (fe_one 1) (dof_handler_one 0) la_one
                        (first_sweep_state 0 15 0))) = nan
  /\ solve_newton (fe_one 1) (dof_handler_one 0) la_one (first_sweep_state 0 15 0) =
     (converged_pass_events 0 nan,
      Returned (assemble_system (fe_one 1) (dof_handler_one 0) la_one
                  (first_sweep_state 0 15 0))).
Proof.
  assert (H : l2_norm la_one
                (residual_vector (assemble_system (fe_one 1) (dof_handler_one 0) la_one
                                    (first_sweep_state 0 15 0))) = nan)
    by (vm_compute; reflexivity).
  split; [exact H | ].
  exact (proj1 (@nan_residual_passes_for_convergence (fe_one 1) (dof_handler_one 0) la_one
                  (first_sweep_state 0 15 0) H)).
Defined.

(* ================================================================== *)
(** * Further properties, in exact arithmetic *)
(* ================================================================== *)

Section ExactArithmetic.

Local Open Scope R_scope.

(** ** Finite sums *)

Lemma Rsum_ext (n : nat) (f g : nat -> R) :
  (forall k, (k < n)%nat -> f k = g k) -> Rsum n f = Rsum n g.
Proof.
  induction n as [ | n IH]; intros H; [reflexivity | ].
  simpl. rewrite IH, H by (intros; try apply H; lia). reflexivity.
Qed.

Lemma Rsum_plus (n : nat) (f g : nat -> R) :
  Rsum n (fun k => f k + g k) = Rsum n f + Rsum n g.
Proof. induction n as [ | n IH]; simpl; [ring | rewrite IH; ring]. Qed.

Lemma Rsum_scal (n : nat) (c : R) (f : nat -> R) :
  Rsum n (fun k => c * f k) = c * Rsum n f.
Proof. induction n as [ | n IH]; simpl; [ring | rewrite IH; ring]. Qed.

Lemma Rsum_scal2 (n : nat) (a b : R) (f : nat -> R) :
  a * Rsum n f * b = Rsum n (fun k => a * f k * b).
Proof. induction n as [ | n IH]; simpl; [ring | rewrite <- IH; ring]. Qed.

Lemma Rsum_lin (n : nat) (c w : R) (f g : nat -> R) :
  (c * Rsum n f + Rsum n g) * w = Rsum n (fun k => (c * f k + g k) * w).
Proof. induction n as [ | n IH]; simpl; [ring | rewrite <- IH; ring]. Qed.

Lemma Rsum_zero (n : nat) : Rsum n (fun _ => 0) = 0.
Proof. induction n as [ | n IH]; simpl; [reflexivity | rewrite IH; ring]. Qed.

Lemma Rsum_swap (n m : nat) (f : nat -> nat -> R) :
  Rsum n (fun i => Rsum m (fun j => f i j)) = Rsum m (fun j => Rsum n (fun i => f i j)).
Proof.
  induction n as [ | n IH]; simpl.
  - symmetry. apply Rsum_zero.
  - rewrite IH, <- Rsum_plus. reflexivity.
Qed.

Lemma Rsum_mult (n m : nat) (f g : nat -> R) :
  Rsum n f * Rsum m g = Rsum n (fun i => Rsum m (fun j => f i * g j)).
Proof.
  induction n as [ | n IH]; simpl; [ring | ].
  rewrite Rsum_scal, <- IH. ring.
Qed.

Lemma Rsum_nonneg (n : nat) (f : nat -> R) :
  (forall k, (k < n)%nat -> 0 <= f k) -> 0 <= Rsum n f.
Proof.
  induction n as [ | n IH]; intros H; simpl; [lra | ].
  assert (0 <= Rsum n f) by (apply IH; intros; apply H; lia).
  assert (0 <= f n) by (apply H; lia). lra.
Qed.

(** ** The initial condition *)

Lemma seed_box_test (p : Point R) :
  Rltb 49 (p 0%nat) && Rltb (p 0%nat) 51 && Rltb 79 (p 1%nat) && Rltb (p 1%nat) 81
  && Rltb 69 (p 2%nat) && Rltb (p 2%nat) 71 = true <-> in_seed_box p.
Proof.
  unfold in_seed_box. rewrite !andb_true_iff, !Rltb_true. tauto.
Qed.

Lemma exp_le_1 (x : R) : x <= 0 -> exp x <= 1.
Proof.
  intros [Hx | ->]; [ | rewrite exp_0; lra].
  left. rewrite <- exp_0. apply exp_increasing. exact Hx.
Qed.

(** X9.  The initial condition.  In exact arithmetic, [FunctionU0::value]
    takes its values between 0 and 1 (first part); it is different from zero
    exactly in the open box (49, 51) x (79, 81) x (69, 71) (second part),
    where it is above [exp (-12)]: it jumps on the faces of the box (third
    part); and it is 1 at the point (50, 80, 70) only (fourth part). *)
Theorem initial_condition_profile (p : Point R) (component : nat) :
  0 <= FunctionU0_value p component <= 1
  /\ (FunctionU0_value p component <> 0 <-> in_seed_box p)
  /\ (in_seed_box p -> exp (- 12) < FunctionU0_value p component)
  /\ (FunctionU0_value p component = 1 <->
      p 0%nat = 50 /\ p 1%nat = 80 /\ p 2%nat = 70).
Proof.
  unfold FunctionU0_value.
  pose proof (seed_box_test p) as Hbox.
  set (e := - (2 * (p 0%nat - 50)) ^ 2 - (2 * (p 1%nat - 80)) ^ 2
            - (2 * (p 2%nat - 70)) ^ 2).
  assert (He : e <= 0).
  { unfold e. pose proof (pow2_ge_0 (2 * (p 0%nat - 50))).
    pose proof (pow2_ge_0 (2 * (p 1%nat - 80))).
    pose proof (pow2_ge_0 (2 * (p 2%nat - 70))). lra. }
  pose proof (exp_pos e) as Hpos. pose proof (exp_le_1 He) as Hle.
  destruct (_ && _) eqn:Htest.
  - assert (Hin : in_seed_box p) by (apply Hbox; reflexivity).
    split; [lra | ]. split; [split; [intros _; exact Hin | intros _; lra] | ].
    split.
    + intros _. rewrite Rmult_1_l. apply exp_increasing.
      destruct Hin as (H0 & H1 & H2). unfold e. nra.
    + rewrite Rmult_1_l. split.
      * intros H1. rewrite <- exp_0 in H1. apply exp_inv in H1.
        unfold e in H1.
        pose proof (pow2_ge_0 (2 * (p 0%nat - 50))) as A.
        pose proof (pow2_ge_0 (2 * (p 1%nat - 80))) as B.
        pose proof (pow2_ge_0 (2 * (p 2%nat - 70))) as C.
        assert (A0 : (2 * (p 0%nat - 50)) ^ 2 = 0) by lra.
        assert (B0 : (2 * (p 1%nat - 80)) ^ 2 = 0) by lra.
        assert (C0 : (2 * (p 2%nat - 70)) ^ 2 = 0) by lra.
        simpl in A0, B0, C0. repeat split; nra.
      * intros (H0 & H1 & H2). unfold e. rewrite H0, H1, H2.
        replace (- (2 * (50 - 50)) ^ 2 - (2 * (80 - 80)) ^ 2 - (2 * (70 - 70)) ^ 2)
          with 0 by ring.
        apply exp_0.
  - assert (Hout : ~ in_seed_box p).
    { intros Hin. apply Hbox in Hin. discriminate. }
    split; [lra | ]. split; [split; [intros H; contradiction H; reflexivity | tauto] | ].
    split; [tauto | ].
    split; [intros H; lra | ].
    intros (H0 & H1 & H2). contradiction Hout. unfold in_seed_box. lra.
Qed.

(** ** The diffusivity tensor as a bilinear form *)

Lemma scalar_product_sum (a b : Tensor1 R) :
  scalar_product a b = a 0%nat * b 0%nat + a 1%nat * b 1%nat + a 2%nat * b 2%nat.
Proof. unfold scalar_product, for_loop, dim. simpl. ring. Qed.

Lemma set_up_diffusivity_form (de da : R) (n g h : Tensor1 R) :
  scalar_product (contract_1_2 g (set_up_diffusivity de da n)) h =
  de * scalar_product g h + da * (scalar_product n g * scalar_product n h).
Proof.
  rewrite scalar_product_contract. unfold grad_D_grad, dim. simpl.
  rewrite !set_up_diffusivity_entry, !scalar_product_sum. simpl. ring.
Qed.

Lemma set_up_diffusivity_nonneg (de da : R) (n g : Tensor1 R) :
  0 <= de -> 0 <= da ->
  0 <= scalar_product (contract_1_2 g (set_up_diffusivity de da n)) g.
Proof.
  intros Hde Hda. rewrite set_up_diffusivity_form, !scalar_product_sum.
  pose proof (Rle_0_sqr (g 0%nat)) as G0. pose proof (Rle_0_sqr (g 1%nat)) as G1.
  pose proof (Rle_0_sqr (g 2%nat)) as G2.
  pose proof (Rle_0_sqr (n 0%nat * g 0%nat + n 1%nat * g 1%nat + n 2%nat * g 2%nat)) as G3.
  unfold Rsqr in G0, G1, G2, G3.
  assert (0 <= g 0%nat * g 0%nat + g 1%nat * g 1%nat + g 2%nat * g 2%nat) by lra.
  apply Rplus_le_le_0_compat; apply Rmult_le_pos; assumption.
Qed.

(** X10.  The diffusion the tensor encodes.  In exact arithmetic the
    product [g * D * h] the assembly computes with the tensor of
    [set_up_diffusivity] is [d_ext (g . h) + d_axn (n . g) (n . h)]: an
    isotropic part and a part along the axon direction [n], which is used
    as given, without normalisation (first part).  It is non-negative on
    [g = h] when neither coefficient is negative (second part).  With the
    initialisers of the class, [d_axn = 0], the diffusion is isotropic:
    [g * D * h = 5 (g . h)] (third part). *)
Theorem diffusivity_is_elliptic (de da : R) (n g h : Tensor1 R) :
  scalar_product (contract_1_2 g (set_up_diffusivity de da n)) h =
    de * scalar_product g h + da * (scalar_product n g * scalar_product n h)
  /\ (0 <= de -> 0 <= da ->
      0 <= scalar_product (contract_1_2 g (set_up_diffusivity de da n)) g)
  /\ scalar_product (contract_1_2 g (set_up_diffusivity d_ext d_axn axon_direction)) h =
     5 * scalar_product g h.
Proof.
  split; [apply set_up_diffusivity_form | ]. split.
  - apply set_up_diffusivity_nonneg.
  - rewrite set_up_diffusivity_form. unfold d_ext, d_axn. simpl. ring.
Qed.

(** ** The local matrix as a quadratic form *)

Lemma grad_D_grad_symmetric (g h : Tensor1 R) (D_ : Tensor2 R) :
  (forall a b, D_ a b = D_ b a) -> grad_D_grad g D_ h = grad_D_grad h D_ g.
Proof.
  intros HD. unfold grad_D_grad, dim. simpl.
  rewrite (HD 1%nat 0%nat), (HD 2%nat 0%nat), (HD 2%nat 1%nat). ring.
Qed.

(** The bilinear form of a combination of gradients. *)
Lemma grad_D_grad_sum_l (d : nat) (v : nat -> R) (g : nat -> Tensor1 R)
    (D_ : Tensor2 R) (h : Tensor1 R) :
  grad_D_grad (fun k => Rsum d (fun i => v i * g i k)) D_ h =
  Rsum d (fun i => v i * grad_D_grad (g i) D_ h).
Proof.
  induction d as [ | d IH].
  - unfold grad_D_grad, dim. simpl. ring.
  - unfold grad_D_grad, dim in *. simpl in *. rewrite <- IH. ring.
Qed.

Lemma grad_D_grad_sum_r (d : nat) (v : nat -> R) (g : nat -> Tensor1 R)
    (D_ : Tensor2 R) (h : Tensor1 R) :
  grad_D_grad h D_ (fun k => Rsum d (fun i => v i * g i k)) =
  Rsum d (fun i => v i * grad_D_grad h D_ (g i)).
Proof.
  induction d as [ | d IH].
  - unfold grad_D_grad, dim. simpl. ring.
  - unfold grad_D_grad, dim in *. simpl in *. rewrite <- IH. ring.
Qed.

Lemma grad_D_grad_zero_l (D_ : Tensor2 R) (g h : Tensor1 R) :
  (forall k, (k < dim)%nat -> g k = 0) -> grad_D_grad g D_ h = 0.
Proof.
  intros Hg. unfold grad_D_grad. unfold dim in *. simpl.
  rewrite (Hg 0%nat), (Hg 1%nat), (Hg 2%nat) by lia. ring.
Qed.

Lemma grad_D_grad_zero_r (D_ : Tensor2 R) (g h : Tensor1 R) :
  (forall k, (k < dim)%nat -> h k = 0) -> grad_D_grad g D_ h = 0.
Proof.
  intros Hh. unfold grad_D_grad. unfold dim in *. simpl.
  rewrite (Hh 0%nat), (Hh 1%nat), (Hh 2%nat) by lia. ring.
Qed.

Lemma local_matrix_symmetric (fe : FEValues R) (s : HeatNonLinear R) (cell n i j : nat) :
  (forall a b, D s a b = D s b a) ->
  fst (for_loop n (node_pass fe s cell) (FullMatrix_zero, CellVector_zero)) i j =
  fst (for_loop n (node_pass fe s cell) (FullMatrix_zero, CellVector_zero)) j i.
Proof.
  intros HD. induction n as [ | n IH]; [reflexivity | ].
  rewrite for_loop_S, !node_pass_matrix, IH.
  rewrite (andb_comm (j <? dofs_per_cell fe)%nat).
  destruct (_ && _); [ | reflexivity].
  unfold mass_term, diffusion_term, reaction_term.
  rewrite !scalar_product_contract.
  rewrite (@grad_D_grad_symmetric (shape_grad fe cell j n) (shape_grad fe cell i n)
             (D s) HD).
  simpl. unfold Rdiv. ring.
Qed.

Lemma quadratic_form_at_node (fe : FEValues R) (s : HeatNonLinear R) (cell : nat)
    (v : nat -> R) (q : nat) :
  Rsum (dofs_per_cell fe) (fun i =>
    Rsum (dofs_per_cell fe) (fun j => v i * jacobian_integrand fe s cell i j q * v j)) =
  ((1 / deltat s - 2 * (1 - 2 * get_function_values fe cell (solution s) q))
     * (fe_value fe cell v q * fe_value fe cell v q)
   + grad_D_grad (fe_gradient fe cell v q) (D s) (fe_gradient fe cell v q))
  * JxW fe cell q.
Proof.
  assert (H1 : fe_value fe cell v q * fe_value fe cell v q =
               Rsum (dofs_per_cell fe) (fun i => Rsum (dofs_per_cell fe) (fun j =>
                 (v i * shape_value fe cell i q) * (v j * shape_value fe cell j q))))
    by apply Rsum_mult.
  assert (H2 : grad_D_grad (fe_gradient fe cell v q) (D s) (fe_gradient fe cell v q) =
               Rsum (dofs_per_cell fe) (fun i => Rsum (dofs_per_cell fe) (fun j =>
                 v i * (v j * grad_D_grad (shape_grad fe cell i q) (D s)
                                  (shape_grad fe cell j q))))).
  { unfold fe_gradient at 1. rewrite grad_D_grad_sum_l.
    apply Rsum_ext. intros i _. unfold fe_gradient.
    rewrite grad_D_grad_sum_r, Rsum_scal. reflexivity. }
  rewrite H1, H2, Rsum_lin. apply Rsum_ext. intros i _.
  rewrite Rsum_lin. apply Rsum_ext. intros j _.
  unfold jacobian_integrand. simpl. unfold Rdiv. ring.
Qed.

(** [v . A . v] as a sum over the quadrature nodes. *)
Lemma local_quadratic_form_sum (fe : FEValues R) (s : HeatNonLinear R) (cell : nat)
    (v : nat -> R) :
  local_quadratic_form fe s cell v =
  Rsum (n_q_points fe) (fun q =>
    ((1 / deltat s - 2 * (1 - 2 * get_function_values fe cell (solution s) q))
       * (fe_value fe cell v q * fe_value fe cell v q)
     + grad_D_grad (fe_gradient fe cell v q) (D s) (fe_gradient fe cell v q))
    * JxW fe cell q).
Proof.
  unfold local_quadratic_form.
  transitivity
    (Rsum (dofs_per_cell fe) (fun i =>
       Rsum (dofs_per_cell fe) (fun j =>
         Rsum (n_q_points fe) (fun q =>
           v i * jacobian_integrand fe s cell i j q * v j)))).
  { apply Rsum_ext. intros i Hi. apply Rsum_ext. intros j Hj.
    rewrite assemble_cell_eq, local_matrix_sum by assumption.
    apply Rsum_scal2. }
  transitivity
    (Rsum (n_q_points fe) (fun q =>
       Rsum (dofs_per_cell fe) (fun i =>
         Rsum (dofs_per_cell fe) (fun j =>
           v i * jacobian_integrand fe s cell i j q * v j)))).
  { transitivity
      (Rsum (dofs_per_cell fe) (fun i =>
         Rsum (n_q_points fe) (fun q =>
           Rsum (dofs_per_cell fe) (fun j =>
             v i * jacobian_integrand fe s cell i j q * v j)))).
    - apply Rsum_ext. intros i _. apply Rsum_swap.
    - apply Rsum_swap. }
  apply Rsum_ext. intros q _. apply quadratic_form_at_node.
Qed.

(** ** The sum of the cells *)

Lemma Vector_add_at_length (v : Vector R) (k : nat) (x : R) :
  List.length (Vector_add_at v k x) = List.length v.
Proof.
  revert k. induction v as [ | y v IH]; intros k; [destruct k; reflexivity | ].
  destruct k as [ | k]; simpl; [reflexivity | rewrite IH; reflexivity].
Qed.

Lemma Vector_add_at_get (v : Vector R) (k : nat) (x : R) (a : nat) :
  (a < List.length v)%nat ->
  Vector_get (Vector_add_at v k x) a =
  Vector_get v a + (if (k =? a)%nat then x else 0).
Proof.
  revert k a. induction v as [ | y v IH]; intros k a Ha; simpl in Ha; [lia | ].
  destruct k as [ | k], a as [ | a]; unfold Vector_get in *; simpl.
  - reflexivity.
  - ring.
  - ring.
  - apply IH. lia.
Qed.

Lemma Matrix_add_at_shape (m : Matrix R) :
  forall (h w r c : nat) (x : R),
  has_shape h w m -> has_shape h w (Matrix_add_at m r c x).
Proof.
  unfold has_shape. induction m as [ | row m IH]; intros h w r c x [Hlen Hrows].
  - destruct r; split; assumption.
  - inversion Hrows as [ | row' m' Hrow Hrest]; subst.
    destruct r as [ | r]; simpl.
    + split; [reflexivity | ]. constructor; [ | exact Hrest].
      rewrite Vector_add_at_length. reflexivity.
    + destruct (IH (List.length m) (List.length row) r c x) as [H1 H2];
        [split; [reflexivity | exact Hrest] | ].
      split; [rewrite H1; reflexivity | constructor; [reflexivity | exact H2]].
Qed.

Lemma Matrix_add_at_get (m : Matrix R) :
  forall (h w r c : nat) (x : R) (a b : nat),
  has_shape h w m -> (a < h)%nat -> (b < w)%nat ->
  Matrix_get (Matrix_add_at m r c x) a b =
  Matrix_get m a b + (if (r =? a)%nat && (c =? b)%nat then x else 0).
Proof.
  unfold has_shape. induction m as [ | row m IH]; intros h w r c x a b [Hlen Hrows] Ha Hb.
  - simpl in Hlen. lia.
  - inversion Hrows as [ | row' m' Hrow Hrest]; subst.
    destruct r as [ | r], a as [ | a]; unfold Matrix_get in *; simpl.
    + apply (Vector_add_at_get row c x). exact Hb.
    + ring.
    + ring.
    + apply (IH (List.length m) (List.length row));
        [split; [reflexivity | exact Hrest] | | exact Hb].
      simpl in Ha. lia.
Qed.

Lemma nth_repeat_below {A : Type} (x d : A) (n k : nat) :
  (k < n)%nat -> nth k (repeat x n) d = x.
Proof.
  revert k. induction n as [ | n IH]; intros k Hk; [lia | ].
  destruct k as [ | k]; [reflexivity | ]. simpl. apply IH. lia.
Qed.

Lemma Matrix_zero_shape (n : nat) : has_shape n n (Matrix_zero n).
Proof.
  unfold has_shape, Matrix_zero. split; [apply repeat_length | ].
  apply Forall_forall. intros row Hrow. apply repeat_spec in Hrow. subst.
  apply repeat_length.
Qed.

Lemma Matrix_zero_get (n a b : nat) :
  (a < n)%nat -> (b < n)%nat -> Matrix_get (Matrix_zero n) a b = 0.
Proof.
  intros Ha Hb. unfold Matrix_get, Matrix_zero.
  rewrite (nth_repeat_below _ _ Ha). apply (nth_repeat_below _ _ Hb).
Qed.

Lemma Vector_zero_get (n a : nat) :
  (a < n)%nat -> Vector_get (Vector_zero n) a = 0.
Proof. intros Ha. unfold Vector_get, Vector_zero. apply (nth_repeat_below _ _ Ha). Qed.

(** A loop each pass of which adds [f i] to an observation adds their sum. *)
Lemma for_loop_sum {A : Type} (get : A -> R) (ok : A -> Prop)
    (body : nat -> A -> A) (f : nat -> R) (n : nat) :
  (forall i acc, (i < n)%nat -> ok acc ->
     ok (body i acc) /\ get (body i acc) = get acc + f i) ->
  forall acc, ok acc ->
  ok (for_loop n body acc) /\ get (for_loop n body acc) = get acc + Rsum n f.
Proof.
  intros Hbody acc Hacc. induction n as [ | n IH].
  - split; [exact Hacc | unfold for_loop; simpl; ring].
  - destruct IH as [IH1 IH2]; [intros i a Hi; apply Hbody; lia | ].
    rewrite for_loop_S.
    destruct (Hbody n (for_loop n body acc) (Nat.lt_succ_diag_r n) IH1) as [H1 H2].
    split; [exact H1 | ]. rewrite H2, IH2. simpl. ring.
Qed.

(** [jacobian_matrix.add(dof_indices, cell_matrix)], entry by entry. *)
Lemma Matrix_add_get (n : nat) (dof_indices : list nat) (A : FullMatrix R)
    (m : Matrix R) (a b : nat) :
  has_shape n n m -> (a < n)%nat -> (b < n)%nat ->
  has_shape n n (Matrix_add dof_indices A m)
  /\ Matrix_get (Matrix_add dof_indices A m) a b =
     Matrix_get m a b + scattered_matrix dof_indices A a b.
Proof.
  intros Hm Ha Hb. unfold Matrix_add, scattered_matrix.
  apply (for_loop_sum (fun m => Matrix_get m a b) (has_shape n n)); [ | exact Hm].
  intros i acc _ Hacc.
  apply (for_loop_sum (fun m => Matrix_get m a b) (has_shape n n)); [ | exact Hacc].
  intros j acc' _ Hacc'. split.
  - apply Matrix_add_at_shape. exact Hacc'.
  - apply (Matrix_add_at_get _ _ _ Hacc' Ha Hb).
Qed.

(** [residual_vector.add(dof_indices, cell_residual)], entry by entry. *)
Lemma Vector_add_get (n : nat) (dof_indices : list nat) (v : CellVector R)
    (R0 : Vector R) (a : nat) :
  List.length R0 = n -> (a < n)%nat ->
  List.length (Vector_add dof_indices v R0) = n
  /\ Vector_get (Vector_add dof_indices v R0) a =
     Vector_get R0 a + scattered_vector dof_indices v a.
Proof.
  intros HR Ha. unfold Vector_add, scattered_vector.
  apply (for_loop_sum (fun R1 => Vector_get R1 a) (fun R1 => List.length R1 = n));
    [ | exact HR].
  intros i acc _ Hacc. split.
  - rewrite Vector_add_at_length. exact Hacc.
  - apply Vector_add_at_get. lia.
Qed.

Lemma cells_matrix_get (fe : FEValues R) (dh : DoFHandler R) (s : HeatNonLinear R)
    (cells : list nat) (a b : nat) :
  (a < n_dofs dh)%nat -> (b < n_dofs dh)%nat ->
  forall J : Matrix R, has_shape (n_dofs dh) (n_dofs dh) J ->
  Matrix_get
    (fold_left (fun J cell =>
                  Matrix_add (get_dof_indices dh cell) (fst (assemble_cell fe s cell)) J)
       cells J) a b =
  Matrix_get J a b
  + cells_sum cells (fun cell =>
      scattered_matrix (get_dof_indices dh cell) (fst (assemble_cell fe s cell)) a b).
Proof.
  intros Ha Hb. induction cells as [ | cell cells IH]; intros J HJ.
  - simpl. ring.
  - cbn [fold_left cells_sum].
    destruct (@Matrix_add_get (n_dofs dh) (get_dof_indices dh cell)
                (fst (assemble_cell fe s cell)) J a b HJ Ha Hb) as [H1 H2].
    rewrite IH by exact H1. rewrite H2. ring.
Qed.

Lemma cells_vector_get (fe : FEValues R) (dh : DoFHandler R) (s : HeatNonLinear R)
    (cells : list nat) (a : nat) :
  (a < n_dofs dh)%nat ->
  forall R0 : Vector R, List.length R0 = n_dofs dh ->
  Vector_get
    (fold_left (fun R0 cell =>
                  Vector_add (get_dof_indices dh cell) (snd (assemble_cell fe s cell)) R0)
       cells R0) a =
  Vector_get R0 a
  + cells_sum cells (fun cell =>
      scattered_vector (get_dof_indices dh cell) (snd (assemble_cell fe s cell)) a).
Proof.
  intros Ha. induction cells as [ | cell cells IH]; intros R0 HR.
  - simpl. ring.
  - cbn [fold_left cells_sum].
    destruct (@Vector_add_get (n_dofs dh) (get_dof_indices dh cell)
                (snd (assemble_cell fe s cell)) R0 a HR Ha) as [H1 H2].
    rewrite IH by exact H1. rewrite H2. ring.
Qed.

Lemma cells_sum_ext (cells : list nat) (f g : nat -> R) :
  (forall cell, f cell = g cell) -> cells_sum cells f = cells_sum cells g.
Proof.
  intros H. induction cells as [ | cell cells IH]; [reflexivity | ].
  simpl. rewrite H, IH. reflexivity.
Qed.

Lemma scattered_matrix_symmetric (dof_indices : list nat) (A : FullMatrix R) (a b : nat) :
  (forall i j, A i j = A j i) ->
  scattered_matrix dof_indices A a b = scattered_matrix dof_indices A b a.
Proof.
  intros HA. unfold scattered_matrix. rewrite Rsum_swap.
  apply Rsum_ext. intros i _. apply Rsum_ext. intros j _.
  rewrite andb_comm, (HA j i). reflexivity.
Qed.

(** X11.  The Jacobian is symmetric.  In exact arithmetic, with the tensor
    [set_up_diffusivity] builds (whatever the coefficients and the
    direction), the local matrix of every cell is symmetric (first part),
    and so is the Jacobian [assemble_system] leaves on one process, where
    [compress] changes no entry (second part): the matrix handed to the
    conjugate gradient solver is symmetric, as that solver requires. *)
Theorem jacobian_is_symmetric
    (fe : FEValues R) (dh : DoFHandler R) (la : LinearAlgebra R) (s : HeatNonLinear R)
    (de da : R) (n : nat -> R)
    (HD : D s = set_up_diffusivity de da n) :
  (forall cell i j,
     fst (assemble_cell fe s cell) i j = fst (assemble_cell fe s cell) j i)
  /\ ((forall m, compress_matrix la m = m) ->
      forall a b, (a < n_dofs dh)%nat -> (b < n_dofs dh)%nat ->
      Matrix_get (jacobian_matrix (assemble_system fe dh la s)) a b =
      Matrix_get (jacobian_matrix (assemble_system fe dh la s)) b a).
Proof.
  assert (Hlocal : forall cell i j,
            fst (assemble_cell fe s cell) i j = fst (assemble_cell fe s cell) j i).
  { intros cell i j. rewrite assemble_cell_eq. apply local_matrix_symmetric.
    intros a b. rewrite HD. apply set_up_diffusivity_symmetric. }
  split; [exact Hlocal | ].
  intros Hmatrix a b Ha Hb.
  destruct (assemble_system_scatter fe dh la s) as [HJ _]. cbv zeta in HJ.
  rewrite HJ, Hmatrix.
  rewrite !cells_matrix_get by (assumption || apply Matrix_zero_shape).
  rewrite !Matrix_zero_get by assumption. f_equal.
  apply cells_sum_ext. intros cell.
  apply scattered_matrix_symmetric. apply Hlocal.
Qed.

(** X11, an instance: on the chain of two segments, the entries (1, 2) and
    (2, 1) of the Jacobian. *)
Lemma jacobian_is_symmetric_witness :
  let J := jacobian_matrix
             (assemble_system fe_segment (dof_handler_chain [0; 1 / 2; 1]) la_unit
                chain_state) in
  fst (assemble_cell fe_segment chain_state 0) 0%nat 1%nat =
  fst (assemble_cell fe_segment chain_state 0) 1%nat 0%nat
  /\ Matrix_get J 1 2 = Matrix_get J 2 1.
Proof.
  intros J.
  destruct (@jacobian_is_symmetric fe_segment (dof_handler_chain [0; 1 / 2; 1]) la_unit
              chain_state d_ext d_axn axon_direction eq_refl) as [H1 H2].
  split; [apply H1 | ].
  apply H2; [reflexivity | simpl; lia | simpl; lia].
Defined.

(** X12.  When the local matrix is positive.  In exact arithmetic, for
    nodal values [v] on a cell, [v . A . v] is the quadrature sum of
    [(1 / dt - 2 (1 - 2 u_k)) V^2 + grad V . D . grad V] times [w_q], with
    [V] the finite element function of [v] (first part).  It is therefore
    non-negative when the quadrature weights and the two diffusion
    coefficients are non-negative and [2 (1 - 2 u_k) <= 1 / dt] at every
    node (second part); with the time step [0.1] of [main] that bound reads
    [u_k >= -2]. *)
Theorem local_jacobian_is_positive
    (fe : FEValues R) (s : HeatNonLinear R) (cell : nat)
    (de da : R) (n : nat -> R) (v : nat -> R)
    (HD : D s = set_up_diffusivity de da n)
    (Hde : 0 <= de) (Hda : 0 <= da)
    (Hw : forall q, (q < n_q_points fe)%nat -> 0 <= JxW fe cell q)
    (Hdt : forall q, (q < n_q_points fe)%nat ->
             2 * (1 - 2 * get_function_values fe cell (solution s) q) <= 1 / deltat s) :
  local_quadratic_form fe s cell v =
    Rsum (n_q_points fe) (fun q =>
      ((1 / deltat s - 2 * (1 - 2 * get_function_values fe cell (solution s) q))
         * (fe_value fe cell v q * fe_value fe cell v q)
       + grad_D_grad (fe_gradient fe cell v q) (D s) (fe_gradient fe cell v q))
      * JxW fe cell q)
  /\ 0 <= local_quadratic_form fe s cell v.
Proof.
  split; [apply local_quadratic_form_sum | ].
  rewrite local_quadratic_form_sum. apply Rsum_nonneg. intros q Hq.
  apply Rmult_le_pos; [ | apply Hw; exact Hq].
  apply Rplus_le_le_0_compat.
  - apply Rmult_le_pos; [specialize (Hdt q Hq); lra | ].
    apply Rle_0_sqr.
  - rewrite <- scalar_product_contract, HD.
    apply set_up_diffusivity_nonneg; assumption.
Qed.

(** X12, an instance: the first cell of the chain and the nodal values
    [(1, -1)]. *)
Lemma local_jacobian_is_positive_witness :
  let v := fun i : nat => if (i =? 0)%nat then 1 else - 1 in
  0 <= local_quadratic_form fe_segment chain_state 0 v
  /\ local_quadratic_form fe_segment chain_state 0 v = 89 / 4.
Proof.
  intros v.
  assert (Hw : forall q, (q < n_q_points fe_segment)%nat -> 0 <= JxW fe_segment 0 q).
  { intros q _. simpl. lra. }
  assert (Hdt : forall q, (q < n_q_points fe_segment)%nat ->
            2 * (1 - 2 * get_function_values fe_segment 0 (solution chain_state) q)
            <= 1 / deltat chain_state).
  { intros q _. simpl. unfold Vector_get. simpl. destruct (q =? 0)%nat; lra. }
  assert (Hde : 0 <= d_ext) by (unfold d_ext; simpl; lra).
  assert (Hda : 0 <= d_axn) by (unfold d_axn; simpl; lra).
  pose proof (@local_jacobian_is_positive fe_segment chain_state 0
                d_ext d_axn axon_direction v eq_refl Hde Hda Hw Hdt) as [Hsum Hpos].
  split; [exact Hpos | ].
  rewrite Hsum. unfold grad_D_grad, fe_value, fe_gradient, dim. simpl.
  rewrite !set_up_diffusivity_entry. simpl. unfold Vector_get. simpl.
  unfold v. simpl. field_simplify. lra.
Defined.

(** ** The balance of the local residual *)

Lemma residual_balance_at_node (fe : FEValues R) (s : HeatNonLinear R) (cell q : nat) :
  Rsum (dofs_per_cell fe) (fun i => shape_value fe cell i q) = 1 ->
  (forall k, (k < dim)%nat ->
     Rsum (dofs_per_cell fe) (fun i => shape_grad fe cell i q k) = 0) ->
  Rsum (dofs_per_cell fe) (fun i => residual_integrand fe s cell i q) =
  (- (get_function_values fe cell (solution s) q
      - get_function_values fe cell (solution_old s) q) / deltat s
   + 2 * get_function_values fe cell (solution s) q
       * (1 - get_function_values fe cell (solution s) q)) * JxW fe cell q.
Proof.
  intros Hone Hzero.
  set (u := get_function_values fe cell (solution s) q).
  set (u_old := get_function_values fe cell (solution_old s) q).
  set (G := get_function_gradients fe cell (solution s) q).
  assert (Hg : Rsum (dofs_per_cell fe)
                 (fun i => 1 * grad_D_grad (shape_grad fe cell i q) (D s) G) = 0).
  { rewrite <- grad_D_grad_sum_l. apply grad_D_grad_zero_l.
    intros k Hk. rewrite <- (Hzero k Hk). apply Rsum_ext. intros i _. ring. }
  transitivity
    (((- (u - u_old) / deltat s + 2 * u * (1 - u))
        * Rsum (dofs_per_cell fe) (fun i => shape_value fe cell i q)
      + Rsum (dofs_per_cell fe)
          (fun i => - (1 * grad_D_grad (shape_grad fe cell i q) (D s) G)))
     * JxW fe cell q).
  - rewrite Rsum_lin. apply Rsum_ext. intros i _.
    unfold residual_integrand. fold u. fold u_old. fold G. simpl. unfold Rdiv. ring.
  - rewrite Hone.
    replace (Rsum (dofs_per_cell fe)
               (fun i => - (1 * grad_D_grad (shape_grad fe cell i q) (D s) G)))
      with (- 1 * Rsum (dofs_per_cell fe)
                    (fun i => 1 * grad_D_grad (shape_grad fe cell i q) (D s) G)).
    + rewrite Hg. ring.
    + rewrite <- Rsum_scal. apply Rsum_ext. intros i _. ring.
Qed.

(** X13.  The balance of a cell.  In exact arithmetic, when the shape
    functions of a cell sum to one and their gradients to zero at every
    quadrature node (as those of the Lagrange elements the program builds
    do), the entries of the local residual sum to the quadrature sum of
    [- (u_k - u_prev) / dt + 2 u_k (1 - u_k)] times [w_q]: the diffusion term
    drops out, whatever the tensor.  As no boundary condition is applied,
    diffusion moves the field and only the reaction changes its total. *)
Theorem local_residual_balance
    (fe : FEValues R) (s : HeatNonLinear R) (cell : nat)
    (Hone : forall q, (q < n_q_points fe)%nat ->
              Rsum (dofs_per_cell fe) (fun i => shape_value fe cell i q) = 1)
    (Hzero : forall q k, (q < n_q_points fe)%nat -> (k < dim)%nat ->
               Rsum (dofs_per_cell fe) (fun i => shape_grad fe cell i q k) = 0) :
  Rsum (dofs_per_cell fe) (fun i => snd (assemble_cell fe s cell) i) =
  Rsum (n_q_points fe) (fun q =>
    (- (get_function_values fe cell (solution s) q
        - get_function_values fe cell (solution_old s) q) / deltat s
     + 2 * get_function_values fe cell (solution s) q
         * (1 - get_function_values fe cell (solution s) q)) * JxW fe cell q).
Proof.
  transitivity
    (Rsum (dofs_per_cell fe) (fun i =>
       Rsum (n_q_points fe) (fun q => residual_integrand fe s cell i q))).
  { apply Rsum_ext. intros i Hi.
    rewrite assemble_cell_eq. apply local_residual_sum. exact Hi. }
  rewrite Rsum_swap. apply Rsum_ext. intros q Hq.
  apply residual_balance_at_node; [apply Hone; exact Hq | ].
  intros k Hk. apply Hzero; assumption.
Qed.

(** X13, an instance: the first cell of the chain, where [u] is [1/8] and
    [3/8] at the two nodes. *)
Lemma local_residual_balance_witness :
  Rsum 2 (fun i => snd (assemble_cell fe_segment chain_state 0) i) = 11 / 32.
Proof.
  assert (Hone : forall q, (q < n_q_points fe_segment)%nat ->
            Rsum (dofs_per_cell fe_segment) (fun i => shape_value fe_segment 0 i q) = 1).
  { intros q _. simpl. destruct (q =? 0)%nat; lra. }
  assert (Hzero : forall q k, (q < n_q_points fe_segment)%nat -> (k < dim)%nat ->
            Rsum (dofs_per_cell fe_segment) (fun i => shape_grad fe_segment 0 i q k) = 0).
  { intros q k _ _. simpl. destruct (k =? 0)%nat; lra. }
  pose proof (@local_residual_balance fe_segment chain_state 0 Hone Hzero) as H.
  change (dofs_per_cell fe_segment) with 2%nat in H. rewrite H.
  simpl. unfold Vector_get. simpl. field.
Defined.

(** X14.  The system is the sum of the cells.  In exact arithmetic and on
    one process, where [compress] changes no entry, entry [(a, b)] of the
    Jacobian [assemble_system] leaves is the sum, over the locally owned
    cells and the pairs [(i, j)] of local indices that the DoF indices of
    the cell map to [(a, b)], of the entries [(i, j)] of the local matrices;
    entry [a] of the residual vector is the like sum of the local
    residuals.  A DoF shared by two cells gets the contributions of
    both. *)
Theorem system_is_the_sum_of_the_cells
    (fe : FEValues R) (dh : DoFHandler R) (la : LinearAlgebra R) (s : HeatNonLinear R)
    (a b : nat)
    (Hmatrix : forall m, compress_matrix la m = m)
    (Hvector : forall v, compress_vector la v = v)
    (Ha : (a < n_dofs dh)%nat) (Hb : (b < n_dofs dh)%nat) :
  let owned := filter (is_locally_owned dh) (active_cell_iterators dh) in
  Matrix_get (jacobian_matrix (assemble_system fe dh la s)) a b =
    cells_sum owned (fun cell =>
      scattered_matrix (get_dof_indices dh cell) (fst (assemble_cell fe s cell)) a b)
  /\ Vector_get (residual_vector (assemble_system fe dh la s)) a =
    cells_sum owned (fun cell =>
      scattered_vector (get_dof_indices dh cell) (snd (assemble_cell fe s cell)) a).
Proof.
  cbv zeta. destruct (assemble_system_scatter fe dh la s) as [HJ HR]. cbv zeta in HJ, HR.
  rewrite HJ, HR, Hmatrix, Hvector. split.
  - rewrite cells_matrix_get by (assumption || apply Matrix_zero_shape).
    rewrite Matrix_zero_get by assumption. ring.
  - rewrite cells_vector_get by (assumption || apply repeat_length).
    rewrite Vector_zero_get by assumption. ring.
Qed.

(** X14, an instance: on the chain of two segments the middle DoF belongs to
    both cells, and entry (1, 1) of the Jacobian is the sum of entry (1, 1)
    of the first local matrix and entry (0, 0) of the second. *)
Lemma system_is_the_sum_of_the_cells_witness :
  let J := jacobian_matrix
             (assemble_system fe_segment (dof_handler_chain [0; 1 / 2; 1]) la_unit
                chain_state) in
  Matrix_get J 1 1 =
  fst (assemble_cell fe_segment chain_state 0) 1%nat 1%nat
  + fst (assemble_cell fe_segment chain_state 1) 0%nat 0%nat.
Proof.
  intros J.
  assert (H1 : (1 < n_dofs (dof_handler_chain [0; 1 / 2; 1]%R))%nat) by (simpl; lia).
  destruct (@system_is_the_sum_of_the_cells fe_segment (dof_handler_chain [0; 1 / 2; 1])
              la_unit chain_state 1%nat 1%nat (fun m => eq_refl) (fun v => eq_refl) H1 H1)
    as [H _].
  cbv zeta in H. unfold J. rewrite H.
  cbn [dof_handler_chain active_cell_iterators is_locally_owned filter cells_sum
       get_dof_indices].
  unfold scattered_matrix. cbn [List.length Rsum nth Nat.eqb andb]. ring.
Defined.

(** ** The Jacobian and the residual *)

Lemma grad_D_grad_plus_r (D_ : Tensor2 R) (g h h1 h2 : Tensor1 R) :
  (forall k, (k < dim)%nat -> h k = h1 k + h2 k) ->
  grad_D_grad g D_ h = grad_D_grad g D_ h1 + grad_D_grad g D_ h2.
Proof.
  intros Hh. unfold grad_D_grad. unfold dim in *. simpl.
  rewrite (Hh 0%nat), (Hh 1%nat), (Hh 2%nat) by lia. ring.
Qed.

(** At a quadrature node the residual of the perturbed solution is that of
    the solution, minus the Jacobian applied to the perturbation, minus a
    term of second order. *)
Lemma residual_increment_at_node (fe : FEValues R) (s s' : HeatNonLinear R)
    (cell : nat) (delta : nat -> R) (i q : nat) :
  perturbed fe cell delta s s' -> (q < n_q_points fe)%nat ->
  residual_integrand fe s' cell i q =
  residual_integrand fe s cell i q
  - Rsum (dofs_per_cell fe) (fun j => jacobian_integrand fe s cell i j q * delta j)
  - shape_value fe cell i q * 2 * (fe_value fe cell delta q * fe_value fe cell delta q)
    * JxW fe cell q.
Proof.
  intros (Hdt & HD & Hq) Hlt. destruct (Hq q Hlt) as (Hu & Hold & Hgrad).
  assert (HJ : Rsum (dofs_per_cell fe)
                 (fun j => jacobian_integrand fe s cell i j q * delta j) =
               (shape_value fe cell i q * fe_value fe cell delta q / deltat s
                + grad_D_grad (shape_grad fe cell i q) (D s) (fe_gradient fe cell delta q)
                - shape_value fe cell i q * 2
                  * (1 - 2 * get_function_values fe cell (solution s) q)
                  * fe_value fe cell delta q) * JxW fe cell q).
  { assert (Hg : grad_D_grad (shape_grad fe cell i q) (D s) (fe_gradient fe cell delta q) =
                 Rsum (dofs_per_cell fe)
                   (fun j => delta j * grad_D_grad (shape_grad fe cell i q) (D s)
                                         (shape_grad fe cell j q))).
    { unfold fe_gradient. rewrite grad_D_grad_sum_r. reflexivity. }
    rewrite Hg. unfold fe_value.
    transitivity
      (((shape_value fe cell i q / deltat s
         - shape_value fe cell i q * 2
           * (1 - 2 * get_function_values fe cell (solution s) q))
        * Rsum (dofs_per_cell fe) (fun j => delta j * shape_value fe cell j q)
        + Rsum (dofs_per_cell fe)
            (fun j => delta j * grad_D_grad (shape_grad fe cell i q) (D s)
                                  (shape_grad fe cell j q)))
       * JxW fe cell q).
    - rewrite Rsum_lin. apply Rsum_ext. intros j _.
      unfold jacobian_integrand. simpl. unfold Rdiv. ring.
    - unfold Rdiv. ring. }
  rewrite HJ. unfold residual_integrand. rewrite Hdt, HD, Hu, Hold.
  rewrite (@grad_D_grad_plus_r (D s) (shape_grad fe cell i q)
             (get_function_gradients fe cell (solution s') q)
             (get_function_gradients fe cell (solution s) q)
             (fe_gradient fe cell delta q) Hgrad).
  simpl. unfold Rdiv. ring.
Qed.

(** X19.  The Jacobian is the derivative of the residual.  In exact
    arithmetic, when the solution is changed by the finite element function
    [d] of nodal values [delta] on a cell, entry [i] of the local residual
    changes by minus the local matrix applied to [delta], minus the
    quadrature sum of [phi_i 2 d^2] times [w_q]: the local matrix is, with
    the sign changed, the exact derivative of the local residual, and the
    remainder of the Newton linearisation is the quadratic term of the
    reaction [2 u (1 - u)] alone. *)
Theorem jacobian_is_the_derivative_of_the_residual
    (fe : FEValues R) (s s' : HeatNonLinear R) (cell : nat) (delta : nat -> R) (i : nat)
    (Hi : (i < dofs_per_cell fe)%nat)
    (Hs : perturbed fe cell delta s s') :
  snd (assemble_cell fe s' cell) i =
  snd (assemble_cell fe s cell) i
  - Rsum (dofs_per_cell fe) (fun j => fst (assemble_cell fe s cell) i j * delta j)
  - Rsum (n_q_points fe) (fun q =>
      shape_value fe cell i q * 2 * (fe_value fe cell delta q * fe_value fe cell delta q)
      * JxW fe cell q).
Proof.
  rewrite !assemble_cell_eq, !local_residual_sum by exact Hi.
  transitivity
    (Rsum (n_q_points fe) (fun q =>
       residual_integrand fe s cell i q
       + (- 1) * (Rsum (dofs_per_cell fe)
                   (fun j => jacobian_integrand fe s cell i j q * delta j)
                 + shape_value fe cell i q * 2
                   * (fe_value fe cell delta q * fe_value fe cell delta q)
                   * JxW fe cell q))).
  { apply Rsum_ext. intros q Hq.
    rewrite (residual_increment_at_node i Hs Hq). ring. }
  rewrite Rsum_plus, Rsum_scal, Rsum_plus.
  replace (Rsum (dofs_per_cell fe)
             (fun j => fst (for_loop (n_q_points fe) (node_pass fe s cell)
                              (FullMatrix_zero, CellVector_zero)) i j * delta j))
    with (Rsum (n_q_points fe) (fun q =>
            Rsum (dofs_per_cell fe)
              (fun j => jacobian_integrand fe s cell i j q * delta j))).
  - ring.
  - rewrite Rsum_swap. apply Rsum_ext. intros j Hj.
    rewrite local_matrix_sum by assumption.
    rewrite Rmult_comm, <- Rsum_scal. apply Rsum_ext. intros q _. ring.
Qed.

(** X19, an instance: on the first cell of the chain, the first nodal value
    raised from 0 to 1. *)
Lemma jacobian_is_the_derivative_of_the_residual_witness :
  let delta := fun i : nat => if (i =? 0)%nat then 1 else 0 in
  let s' := set_solution chain_state [1; 1 / 2; 1] in
  snd (assemble_cell fe_segment s' 0) 0%nat =
  snd (assemble_cell fe_segment chain_state 0) 0%nat
  - Rsum 2 (fun j => fst (assemble_cell fe_segment chain_state 0) 0%nat j * delta j)
  - Rsum 2 (fun q =>
      shape_value fe_segment 0 0 q * 2
      * (fe_value fe_segment 0 delta q * fe_value fe_segment 0 delta q)
      * JxW fe_segment 0 q).
Proof.
  intros delta s'.
  assert (Hi : (0 < dofs_per_cell fe_segment)%nat) by (simpl; lia).
  assert (Hs : perturbed fe_segment 0 delta chain_state s').
  { split; [reflexivity | ]. split; [reflexivity | ].
    intros q _. unfold fe_value, fe_gradient, delta. simpl. unfold Vector_get. simpl.
    split; [destruct (q =? 0)%nat; lra | ]. split; [reflexivity | ].
    intros k _. destruct (k =? 0)%nat; lra. }
  exact (@jacobian_is_the_derivative_of_the_residual fe_segment chain_state s' 0 delta
           0%nat Hi Hs).
Defined.

(** ** Uniform states *)

Lemma Vector_add_at_zero (v : Vector R) (k : nat) : Vector_add_at v k 0 = v.
Proof.
  revert k. induction v as [ | a v IH]; intros k; [destruct k; reflexivity | ].
  destruct k as [ | k]; simpl.
  - rewrite Rplus_0_r. reflexivity.
  - rewrite IH. reflexivity.
Qed.

Lemma Vector_add_zero (dof_indices : list nat) (f : CellVector R) (v : Vector R) :
  (forall i, f i = 0) -> Vector_add dof_indices f v = v.
Proof.
  intros Hf. unfold Vector_add.
  apply (for_loop_frame (fun v : Vector R => v)).
  intros i a _. rewrite Hf. apply Vector_add_at_zero.
Qed.

(** On a uniform state of value 0 or 1 every local residual is zero. *)
Lemma uniform_local_residual (fe : FEValues R) (c : R) (s : HeatNonLinear R)
    (cell : nat) :
  c * (1 - c) = 0 -> uniform fe c s ->
  forall n i, (n <= n_q_points fe)%nat ->
  snd (for_loop n (node_pass fe s cell) (FullMatrix_zero, CellVector_zero)) i = 0.
Proof.
  intros Hc Hu n i. induction n as [ | n IH]; intros Hn; [reflexivity | ].
  rewrite for_loop_S, node_pass_residual, IH by lia.
  destruct (i <? dofs_per_cell fe)%nat; [ | reflexivity].
  unfold time_derivative_term, residual_diffusion_term, residual_reaction_term.
  rewrite scalar_product_contract.
  assert (Hq : (n < n_q_points fe)%nat) by lia.
  rewrite (@grad_D_grad_zero_r (D s) (shape_grad fe cell i n)
             (get_function_gradients fe cell (solution s) n))
    by (intros k Hk; apply (Hu cell n k Hq Hk)).
  assert (H0 : (0 < dim)%nat) by (unfold dim; lia).
  destruct (Hu cell n 0%nat Hq H0) as (H1 & H2 & _).
  rewrite H1, H2. simpl.
  replace (2 * c * (1 - c)) with (2 * (c * (1 - c))) by ring.
  rewrite Hc. unfold Rdiv. ring.
Qed.

Lemma uniform_residual (fe : FEValues R) (dh : DoFHandler R) (la : LinearAlgebra R)
    (c : R) (s : HeatNonLinear R) :
  c * (1 - c) = 0 -> uniform fe c s ->
  residual_vector (assemble_system fe dh la s) =
  compress_vector la (Vector_zero (n_dofs dh)).
Proof.
  intros Hc Hu.
  rewrite (proj2 (assemble_system_scatter fe dh la s)). f_equal.
  induction (filter (is_locally_owned dh) (active_cell_iterators dh)) as [ | cell cells IH];
    [reflexivity | ].
  cbn [fold_left]. rewrite Vector_add_zero; [exact IH | ].
  intros i. rewrite assemble_cell_eq.
  apply (@uniform_local_residual fe c s cell Hc Hu). lia.
Qed.

(** From a uniform state of value 0 or 1 a sweep makes one pass, finds a
    zero residual and returns without solving. *)
Lemma uniform_sweep (fe : FEValues R) (dh : DoFHandler R) (la : LinearAlgebra R)
    (c : R) (s : HeatNonLinear R) :
  c * (1 - c) = 0 -> uniform fe c s ->
  l2_norm la (compress_vector la (Vector_zero (n_dofs dh))) = 0 ->
  solve_newton fe dh la s =
  (converged_pass_events 0 0, Returned (assemble_system fe dh la s)).
Proof.
  intros Hc Hu Hnorm.
  assert (Hpass : forall n_iter,
            newton_iteration fe dh la s n_iter =
            (converged_pass_events n_iter 0, Returned (assemble_system fe dh la s, 0))).
  { intros n_iter. rewrite newton_iteration_eq. cbv zeta.
    rewrite (uniform_residual dh la Hc Hu), Hnorm.
    replace (s_ltb residual_tolerance 0) with false; [reflexivity | ].
    symmetry. apply Rltb_false. unfold residual_tolerance. simpl. lra. }
  unfold solve_newton. change n_max_iters with (S 999) at 1.
  rewrite newton_loop_S.
  replace ((0 <? n_max_iters)%nat && s_ltb residual_tolerance
             (s_add residual_tolerance (s_of_Z 1))) with true.
  - rewrite Hpass.
    rewrite bind_returned with (a := (assemble_system fe dh la s, 0)) by reflexivity.
    cbn [fst snd].
    rewrite newton_loop_exit.
    + reflexivity.
    + apply andb_false_iff. right. apply Rltb_false.
      unfold residual_tolerance. simpl. lra.
  - symmetry. apply andb_true_iff. split; [reflexivity | ].
    apply Rltb_true. unfold residual_tolerance. simpl. lra.
Qed.

(** X15.  The uniform states 0 and 1 are stationary.  In exact arithmetic,
    when the initial condition is uniform of value [c] with
    [c (1 - c) = 0] (its finite element function is [c] with a zero gradient
    at every quadrature node) and the norm of a zero residual is zero, then
    in every run of [solve] each sweep makes one pass, finds the residual
    norm 0 and calls no linear solver, every snapshot is the initial field,
    a run that returns leaves the initial field as its solution, and no run
    is left by [NoConvergence]. *)
Theorem uniform_state_is_stationary
    (fe : FEValues R) (dh : DoFHandler R) (la : LinearAlgebra R)
    (c : R) (fuel : nat) (s : HeatNonLinear R)
    (Hc : c * (1 - c) = 0)
    (Hu : forall cell q k, (q < n_q_points fe)%nat -> (k < dim)%nat ->
            get_function_values fe cell (ghost_assign la (interpolate_u_0 dh)) q = c
            /\ get_function_gradients fe cell (ghost_assign la (interpolate_u_0 dh)) q k = 0)
    (Hnorm : l2_norm la (compress_vector la (Vector_zero (n_dofs dh))) = 0) :
  let run := solve fe dh la fuel s in
  Forall (stationary_event (ghost_assign la (interpolate_u_0 dh))) (fst run)
  /\ match snd run with
     | Returned s' => solution s' = ghost_assign la (interpolate_u_0 dh)
     | Raised e => e = LengthError
     | Unfinished => True
     end.
Proof.
  cbv zeta.
  apply (@solve_invariant R ScalarR fe dh la
           (fun s' => solution s' = ghost_assign la (interpolate_u_0 dh))
           (stationary_event (ghost_assign la (interpolate_u_0 dh)))
           (fun e => e = LengthError)).
  - intros s' Hs'.
    assert (Huniform : uniform fe c (begin_step s')).
    { intros cell q k Hq Hk. cbn [begin_step solution solution_old set_solution_old set_time].
      rewrite Hs'. destruct (Hu cell q k Hq Hk) as [H1 H2]. repeat split; assumption. }
    rewrite (@uniform_sweep fe dh la c (begin_step s') Hc Huniform Hnorm). split.
    + unfold converged_pass_events.
      repeat constructor; simpl; try discriminate.
    + exact Hs'.
  - intros; exact I.
  - intros time_step tt s' Hs'. unfold writing_events.
    destruct (_ =? _)%Z; [ | constructor].
    destruct (output_file_name tt); repeat constructor; simpl; try discriminate.
    exact Hs'.
  - intros; exact I.
  - simpl. discriminate.
  - exact I.
  - reflexivity.
  - reflexivity.
  - reflexivity.
Qed.

(** X15, an instance: three steps on one cell from the value 1. *)
Lemma uniform_state_is_stationary_witness :
  let run := solve fe_unit (dof_handler_unit 1) la_unit 3
               (setup (dof_handler_unit 1) (HeatNonLinear_new 19 1 15 (1 / 10))) in
  Forall (stationary_event [1]) (fst run)
  /\ match snd run with
     | Returned s' => solution s' = [1]
     | Raised e => e = LengthError
     | Unfinished => True
     end.
Proof.
  assert (Hc : 1 * (1 - 1) = 0) by ring.
  assert (Hu : forall cell q k, (q < n_q_points fe_unit)%nat -> (k < dim)%nat ->
            get_function_values fe_unit cell
              (ghost_assign la_unit (interpolate_u_0 (dof_handler_unit 1))) q = 1
            /\ get_function_gradients fe_unit cell
                 (ghost_assign la_unit (interpolate_u_0 (dof_handler_unit 1))) q k = 0).
  { intros cell q k _ _. split; reflexivity. }
  assert (Hnorm : l2_norm la_unit
                    (compress_vector la_unit (Vector_zero (n_dofs (dof_handler_unit 1)))) = 0).
  { simpl. unfold Vector_get. simpl. apply Rabs_R0. }
  exact (@uniform_state_is_stationary fe_unit (dof_handler_unit 1) la_unit 1 3
           (setup (dof_handler_unit 1) (HeatNonLinear_new 19 1 15 (1 / 10))) Hc Hu Hnorm).
Defined.

(** ** The time loop *)

Lemma time_after_R (k : nat) (t dt : R) : time_after k t dt = t + INR k * dt.
Proof.
  induction k as [ | k IH]; [simpl; ring | ].
  cbn [time_after]. rewrite IH, S_INR. simpl. ring.
Qed.

Lemma time_guard_R (t T_ dt : R) :
  s_ltb t (s_sub T_ (s_mul s_half dt)) = true <-> t < T_ - dt / 2.
Proof. simpl. rewrite Rltb_true. split; intros H; lra. Qed.

Lemma time_guard_R_false (t T_ dt : R) :
  s_ltb t (s_sub T_ (s_mul s_half dt)) = false <-> T_ - dt / 2 <= t.
Proof. simpl. rewrite Rltb_false. split; intros H; lra. Qed.

Lemma time_grid_S (fuel : nat) (t T_ dt : R) (time_step : Z) :
  time_grid (S fuel) t T_ dt time_step =
  if s_ltb t (s_sub T_ (s_mul s_half dt))
  then ((uint_succ time_step, s_add t dt)
          :: fst (time_grid fuel (s_add t dt) T_ dt (uint_succ time_step)),
        snd (time_grid fuel (s_add t dt) T_ dt (uint_succ time_step)))
  else ([], true).
Proof. reflexivity. Qed.

(** A grid whose guard has failed needs no more passes than it has steps. *)
Lemma time_grid_enough {F : Type} {SF : Scalar F} (T_ dt : F) (fuel : nat) :
  forall (fuel' : nat) (t : F) (time_step : Z),
  snd (time_grid fuel t T_ dt time_step) = true ->
  (List.length (fst (time_grid fuel t T_ dt time_step)) <= fuel')%nat ->
  time_grid fuel' t T_ dt time_step = time_grid fuel t T_ dt time_step.
Proof.
  induction fuel as [ | fuel IH]; intros fuel' t time_step;
    destruct (s_ltb t (s_sub T_ (s_mul s_half dt))) eqn:Hguard.
  - cbn [time_grid]. rewrite Hguard. discriminate.
  - intros _ _. rewrite !time_grid_exit by exact Hguard. reflexivity.
  - cbn [time_grid]. rewrite Hguard. cbn [fst snd List.length]. intros Hend Hlen.
    destruct fuel' as [ | fuel']; [lia | ].
    cbn [time_grid]. rewrite Hguard. rewrite (IH fuel') by (assumption || lia).
    reflexivity.
  - intros _ _. rewrite !time_grid_exit by exact Hguard. reflexivity.
Qed.

(** With a positive time step the guard fails after finitely many passes. *)
Lemma time_grid_R_ends (T_ dt : R) (m : nat) :
  0 < dt ->
  forall (k : nat) (t : R) (time_step : Z),
  T_ - dt / 2 - t <= INR m * dt ->
  snd (time_grid (m + k) t T_ dt time_step) = true.
Proof.
  intros Hdt. induction m as [ | m IH]; intros k t time_step Hm.
  - rewrite time_grid_exit; [reflexivity | ].
    apply time_guard_R_false. simpl in Hm. lra.
  - cbn [Nat.add]. rewrite time_grid_S.
    destruct (s_ltb t (s_sub T_ (s_mul s_half dt))); [ | reflexivity].
    cbn [snd]. apply IH. rewrite S_INR in Hm. simpl. lra.
Qed.

(** The passes the guard lets through. *)
Lemma time_grid_R_steps (T_ dt : R) (fuel : nat) :
  forall (t : R) (time_step : Z),
  snd (time_grid fuel t T_ dt time_step) = true ->
  let n := List.length (fst (time_grid fuel t T_ dt time_step)) in
  T_ - dt / 2 <= t + INR n * dt
  /\ (forall k, (k < n)%nat -> t + INR k * dt < T_ - dt / 2).
Proof.
  induction fuel as [ | fuel IH]; intros t time_step.
  - destruct (s_ltb t (s_sub T_ (s_mul s_half dt))) eqn:Hguard.
    + cbn [time_grid]. rewrite Hguard. discriminate.
    + rewrite time_grid_exit by exact Hguard. intros _.
      apply time_guard_R_false in Hguard. simpl. split; [lra | intros; lia].
  - rewrite time_grid_S.
    destruct (s_ltb t (s_sub T_ (s_mul s_half dt))) eqn:Hguard.
    + cbn [fst snd List.length]. intros Hend.
      destruct (IH (s_add t dt) (uint_succ time_step) Hend) as [H1 H2].
      cbv zeta in H1, H2. change (s_add t dt) with (t + dt) in *.
      apply time_guard_R in Hguard. cbv zeta.
      split.
      * rewrite S_INR. lra.
      * intros k Hk. destruct k as [ | k]; [simpl; lra | ].
        apply Nat.succ_lt_mono in Hk. specialize (H2 k Hk). rewrite S_INR. lra.
    + intros _. apply time_guard_R_false in Hguard. simpl. split; [lra | intros; lia].
Qed.

Lemma INR_up (r : R) : exists m : nat, r <= INR m.
Proof.
  destruct (archimed r) as [Hup _].
  exists (Z.to_nat (up r)).
  destruct (Z_le_gt_dec 0 (up r)) as [Hpos | Hneg].
  - rewrite INR_IZR_INZ, Z2Nat.id by exact Hpos. lra.
  - assert (IZR (up r) < 0) by (apply IZR_lt; lia).
    pose proof (pos_INR (Z.to_nat (up r))). lra.
Qed.

(** X16.  The time loop reaches the final time.  In exact arithmetic, with
    a positive time step, the loop of [solve] ends: there is a number [n] of
    steps, the first with [n dt >= T - dt / 2], such that every run with at
    least [n] passes to spend returns after the steps at times
    [dt, 2 dt, ..., n dt], or is left by an exception within them, whatever
    the collaborators.  When a step is made at all, the last one lands
    within half a step of [T]: the guard [time < T - 0.5 * deltat] rounds
    the number of steps [T / dt] to the nearest integer. *)
Theorem time_loop_reaches_final_time
    (fe : FEValues R) (dh : DoFHandler R) (la : LinearAlgebra R) (s : HeatNonLinear R)
    (Hdt : 0 < deltat s) :
  exists n : nat,
    T s - deltat s / 2 <= INR n * deltat s
    /\ (forall k, (k < n)%nat -> INR k * deltat s < T s - deltat s / 2)
    /\ ((1 <= n)%nat -> Rabs (INR n * deltat s - T s) <= deltat s / 2)
    /\ forall fuel, (n <= fuel)%nat ->
       let run := solve fe dh la fuel s in
       match snd run with
       | Returned _ =>
           map snd (steps_of (fst run)) = map (fun k => INR k * deltat s) (seq 1 n)
       | Raised _ => (List.length (steps_of (fst run)) <= n)%nat
       | Unfinished => False
       end.
Proof.
  destruct (INR_up ((T s - deltat s / 2) / deltat s)) as [m Hm].
  assert (Hm' : T s - deltat s / 2 - 0 <= INR m * deltat s).
  { apply (Rmult_le_compat_r (deltat s)) in Hm; [ | lra].
    unfold Rdiv in Hm. rewrite Rmult_assoc, Rinv_l, Rmult_1_r in Hm by lra. lra. }
  pose proof (@time_grid_R_ends (T s) (deltat s) m Hdt 0%nat 0 0%Z Hm') as Hend.
  rewrite Nat.add_0_r in Hend.
  set (n := List.length (fst (time_grid m 0 (T s) (deltat s) 0))).
  destruct (@time_grid_R_steps (T s) (deltat s) m 0 0%Z Hend) as [H1 H2].
  cbv zeta in H1, H2. fold n in H1, H2.
  exists n. split; [lra | ]. split; [intros k Hk; specialize (H2 k Hk); lra | ].
  split.
  { intros Hn. assert (Hk : (n - 1 < n)%nat) by lia. specialize (H2 (n - 1)%nat Hk).
    replace (INR n) with (INR (n - 1) + 1) in *
      by (rewrite <- S_INR; f_equal; lia).
    apply Rabs_le. lra. }
  intros fuel Hfuel. cbv zeta.
  assert (Hgrid : time_grid fuel (s_of_Z 0) (T s) (deltat s) 0 =
                  time_grid m 0 (T s) (deltat s) 0).
  { apply time_grid_enough; [exact Hend | exact Hfuel]. }
  pose proof (solve_trace fe dh la fuel s) as H. cbv zeta in H.
  rewrite Hgrid in H.
  pose proof (time_grid_times m 0 (T s) (deltat s) 0%Z) as Htimes. fold n in Htimes.
  destruct (snd (solve fe dh la fuel s)).
  - destruct H as (H & _). rewrite H, Htimes.
    apply map_ext. intros k. rewrite time_after_R. ring.
  - destruct H as (entered & step & rest & Ha & Hb & _).
    rewrite Ha. apply (f_equal (@List.length _)) in Hb. fold n in Hb.
    rewrite !length_app in *. simpl in *. lia.
  - destruct H as (_ & H & _). rewrite Hend in H. discriminate H.
Qed.

(** X16, an instance: with [T = 1] and [deltat = 1/10] the number of steps
    is ten. *)
Lemma time_loop_reaches_final_time_witness :
  exists n : nat,
    n = 10%nat
    /\ forall fuel, (n <= fuel)%nat ->
       let run := solve fe_unit (dof_handler_unit 0) la_unit fuel
                    (setup (dof_handler_unit 0) (HeatNonLinear_new 19 1 1 (1 / 10))) in
       match snd run with
       | Returned _ =>
           map snd (steps_of (fst run)) = map (fun k => INR k * (1 / 10)) (seq 1 n)
       | Raised _ => (List.length (steps_of (fst run)) <= n)%nat
       | Unfinished => False
       end.
Proof.
  assert (Hdt : 0 < deltat (setup (dof_handler_unit 0) (HeatNonLinear_new 19 1 1 (1 / 10))))
    by (simpl; lra).
  destruct (@time_loop_reaches_final_time fe_unit (dof_handler_unit 0) la_unit
              (setup (dof_handler_unit 0) (HeatNonLinear_new 19 1 1 (1 / 10))) Hdt)
    as (n & H1 & H2 & _ & H4).
  exists n. split; [ | exact H4].
  simpl in H1, H2.
  destruct (le_gt_dec n 9) as [Hle | Hgt].
  - exfalso. apply le_INR in Hle. simpl in Hle. lra.
  - destruct (le_gt_dec n 10) as [Hle' | Hgt']; [lia | ].
    exfalso. assert (Hk : (10 < n)%nat) by lia.
    specialize (H2 10%nat Hk). simpl in H2. lra.
Defined.

(** With a time step that is not positive the guard never fails. *)
Lemma time_grid_R_goes_on (T_ dt : R) (fuel : nat) :
  dt <= 0 ->
  forall (t : R) (time_step : Z),
  t < T_ - dt / 2 ->
  snd (time_grid fuel t T_ dt time_step) = false
  /\ List.length (fst (time_grid fuel t T_ dt time_step)) = fuel.
Proof.
  intros Hdt. induction fuel as [ | fuel IH]; intros t time_step Ht.
  - cbn [time_grid]. rewrite (proj2 (time_guard_R t T_ dt) Ht). split; reflexivity.
  - rewrite time_grid_S, (proj2 (time_guard_R t T_ dt) Ht). cbn [fst snd List.length].
    destruct (IH (s_add t dt) (uint_succ time_step)) as [H1 H2]; [simpl; lra | ].
    rewrite H1, H2. split; reflexivity.
Qed.

(** X17.  A time step that is not positive.  In exact arithmetic, when
    [deltat <= 0] and the guard holds at time 0, [0 < T - deltat / 2], no
    run of [solve] returns, whatever the collaborators: the time never
    comes closer to [T], every pass granted to the loop is spent on a step,
    and only an exception can leave it. *)
Theorem nonpositive_time_step_never_returns
    (fe : FEValues R) (dh : DoFHandler R) (la : LinearAlgebra R) (s : HeatNonLinear R)
    (fuel : nat)
    (Hdt : deltat s <= 0) (HT : 0 < T s - deltat s / 2) :
  let run := solve fe dh la fuel s in
  match snd run with
  | Returned _ => False
  | Raised _ => True
  | Unfinished => List.length (steps_of (fst run)) = fuel
  end.
Proof.
  cbv zeta.
  pose proof (solve_trace fe dh la fuel s) as H. cbv zeta in H.
  destruct (@time_grid_R_goes_on (T s) (deltat s) fuel Hdt 0 0%Z HT) as [H1 H2].
  change (s_of_Z 0) with 0 in H.
  destruct (snd (solve fe dh la fuel s)).
  - destruct H as (_ & H & _). rewrite H1 in H. discriminate H.
  - exact I.
  - destruct H as (H & _). rewrite H. exact H2.
Qed.

(** X17, an instance: [T = 15] and [deltat = -1/10] on one cell. *)
Lemma nonpositive_time_step_never_returns_witness :
  has_returned
    (solve fe_unit (dof_handler_unit 0) la_unit 3
       (setup (dof_handler_unit 0) (HeatNonLinear_new 19 1 15 (- (1 / 10))))) = false.
Proof.
  assert (Hdt : deltat (setup (dof_handler_unit 0)
                          (HeatNonLinear_new 19 1 15 (- (1 / 10)))) <= 0)
    by (simpl; lra).
  assert (HT : 0 < T (setup (dof_handler_unit 0) (HeatNonLinear_new 19 1 15 (- (1 / 10))))
                   - deltat (setup (dof_handler_unit 0)
                               (HeatNonLinear_new 19 1 15 (- (1 / 10)))) / 2)
    by (simpl; lra).
  pose proof (@nonpositive_time_step_never_returns fe_unit (dof_handler_unit 0) la_unit
                (setup (dof_handler_unit 0) (HeatNonLinear_new 19 1 15 (- (1 / 10))))
                3 Hdt HT) as H.
  cbv zeta in H. unfold has_returned.
  destruct (snd (solve fe_unit (dof_handler_unit 0) la_unit 3 _));
    [contradiction H | reflexivity | reflexivity].
Defined.

End ExactArithmetic.
